(** * TimelineComments: moderation, admission control and annotation store

    A shallow embedding of the browser extension's core:
    - [src/content-filter.js]: the [ContentFilter] class (word list, regular
      expression patterns, spam heuristics);
    - [src/background.js]: the sliding-window [rateLimiter] and the message
      handlers of the service worker;
    - [src/content.js]: [getRealTimestamp] and [handleAddComment];
    - [src/popup.js]: the toggle of the [enabled] flag.

    The definitions come first, module by module; the properties follow
    under "Properties".

    Texts are sequences of 7-bit ASCII characters; a byte above 127 is
    treated as a caseless symbol that is neither white space nor a word
    character.  Finite numbers are the rationals they denote. *)

From Stdlib Require Import ZArith QArith Qround Qabs Ascii String.
From stdpp Require Import base tactics option list gmap strings pretty sorting.

Local Open Scope string_scope.
Local Open Scope list_scope.
Local Open Scope nat_scope.

(** A call either returns a value or throws an error (its message). *)
Inductive Outcome (A : Type) :=
| Returned (a : A)
| Threw (error : string).
Arguments Returned {A} a.
Arguments Threw {A} error.

(** ** JavaScript strings *)

Module JSString.

Definition code (c : ascii) : nat := nat_of_ascii c.

Definition between (lo hi : nat) (c : ascii) : bool :=
  (lo <=? code c) && (code c <=? hi).

Definition isUpper : ascii -> bool := between 65 90.
Definition isLower : ascii -> bool := between 97 122.
Definition isDigit : ascii -> bool := between 48 57.

Definition toLowerChar (c : ascii) : ascii :=
  if isUpper c then ascii_of_nat (code c + 32) else c.

Definition toUpperChar (c : ascii) : ascii :=
  if isLower c then ascii_of_nat (code c - 32) else c.

(** [\w]: letters, digits and the underscore. *)
Definition isWordChar (c : ascii) : bool :=
  isUpper c || isLower c || isDigit c || (code c =? 95).

(** Line terminators (LF, CR) and white space (TAB, VT, FF, SP and the
    line terminators), as [\s] and [trim] read them among the characters
    below 128.  (They also take U+00A0, U+FEFF, U+2028 and other
    characters that a text of characters below 128, [isASCII] below, does
    not have.) *)
Definition isLineTerminator (c : ascii) : bool :=
  (code c =? 10) || (code c =? 13).

Definition isWhiteSpace (c : ascii) : bool :=
  between 9 13 c || (code c =? 32).

Definition ascii_eqb (a b : ascii) : bool := code a =? code b.

Definition chars (s : string) : list ascii := list_ascii_of_string s.
Definition str (l : list ascii) : string := string_of_list_ascii l.

Definition toLowerCase (s : list ascii) : list ascii := map toLowerChar s.

Fixpoint trimStart (s : list ascii) : list ascii :=
  match s with
  | c :: s' => if isWhiteSpace c then trimStart s' else s
  | [] => []
  end.

Definition trim (s : list ascii) : list ascii :=
  rev (trimStart (rev (trimStart s))).

Fixpoint startsWith (s sub : list ascii) : bool :=
  match sub, s with
  | [], _ => true
  | _ :: _, [] => false
  | b :: sub', a :: s' => ascii_eqb a b && startsWith s' sub'
  end.

(** [s.includes(sub)] *)
Fixpoint includes (s sub : list ascii) : bool :=
  startsWith s sub ||
  match s with
  | [] => false
  | _ :: s' => includes s' sub
  end.

(** ['*'.repeat(n)] *)
Definition stars (n : nat) : list ascii := replicate n "*"%char.

(** [a.join(sep)] on an array of strings. *)
Fixpoint join (sep : string) (a : list string) : string :=
  match a with
  | [] => ""
  | [s] => s
  | s :: a' => s +:+ sep +:+ join sep a'
  end.


(** A text whose characters are all below 128.  The strings of this
    development are lists of characters below 256; a JavaScript text of
    characters below 128 is the string of the same characters, its
    [length] is the length of that string, and [trim], [toLowerCase] and
    the classes of a regular expression read it as the definitions above
    do.  What is stated about the length, the white space or the case of
    a text is stated for such texts. *)
Definition isASCII (s : string) : bool :=
  forallb (fun c => code c <? 128) (chars s).

End JSString.

(** ** Regular expressions

    The backtracking matcher of ECMAScript for the constructs the source
    uses: characters, [.], classes, [\s \w \d \b], [^ $], greedy
    quantifiers, capturing groups and back-references, with the [i] and
    [g] flags.  A matcher returns the end states it can reach in
    backtracking priority order; the head of the list is the match. *)

Module JSRegExp.
Import JSString.

Inductive ClassAtom :=
| CChar (c : ascii)
| CRange (lo hi : ascii)
| CDigit
| CWord
| CSpace.

Inductive Regex :=
| Empty
| Char (c : ascii)
| Dot
| Class (invert : bool) (atoms : list ClassAtom)
| AssertStart
| AssertEnd
| WordBoundary
| Seq (r1 r2 : Regex)
| Alt (r1 r2 : Regex)
| Repeat (min : nat) (max : option nat) (r : Regex)
| Group (n : nat) (r : Regex)
| Backref (n : nat).

(** The state of a match: where it ends and what the groups captured
    (start and end index of each). *)
Record MState := mkMState {
  endIndex : nat;
  captures : gmap nat (nat * nat)
}.

Fixpoint groups (r : Regex) : list nat :=
  match r with
  | Seq r1 r2 | Alt r1 r2 => groups r1 ++ groups r2
  | Repeat _ _ r' => groups r'
  | Group n r' => n :: groups r'
  | _ => []
  end.

Definition clearCaptures (ns : list nat) (x : MState) : MState :=
  mkMState (endIndex x) (foldr delete (captures x) ns).

Section Matcher.
Context (Input : list ascii) (IgnoreCase : bool).

Definition Canonicalize (c : ascii) : ascii :=
  if IgnoreCase then toUpperChar c else c.

Definition sameChar (a b : ascii) : bool :=
  ascii_eqb (Canonicalize a) (Canonicalize b).

Definition atomMatches (ch : ascii) (a : ClassAtom) : bool :=
  match a with
  | CChar c => sameChar c ch
  | CRange lo hi =>
      existsb (fun n => sameChar (ascii_of_nat n) ch)
              (seq (code lo) (S (code hi) - code lo))
  | CDigit => isDigit ch
  | CWord => isWordChar ch
  | CSpace => isWhiteSpace ch
  end.

Definition CharacterSetMatcher (p : ascii -> bool) (x : MState) : list MState :=
  match Input !! endIndex x with
  | Some ch => if p ch then [mkMState (S (endIndex x)) (captures x)] else []
  | None => []
  end.

Definition IsWordCharAt (before : bool) (e : nat) : bool :=
  match before, e with
  | true, 0 => false
  | true, S e' => from_option isWordChar false (Input !! e')
  | false, _ => from_option isWordChar false (Input !! e)
  end.

(** The substring a back-reference must see again at the current
    position, compared character by character after canonicalisation. *)
Definition BackreferenceMatcher (n : nat) (x : MState) : list MState :=
  match captures x !! n with
  | None => [x]
  | Some (s, e) =>
      let sub := take (e - s) (drop s Input) in
      let here := take (e - s) (drop (endIndex x) Input) in
      if (length here =? e - s) && forallb (fun p => sameChar p.1 p.2) (zip sub here)
      then [mkMState (endIndex x + (e - s)) (captures x)]
      else []
  end.

(** [RepeatMatcher]: [m] is the matcher of the quantified atom.  An
    iteration past [min] that consumes nothing is discarded, so
    [fuel], which starts at [min] plus the characters left, bounds the
    iterations: at [0] no further iteration can succeed. *)
Fixpoint RepeatMatcher (m : MState -> list MState) (parens : list nat)
    (fuel min : nat) (max : option nat) (x : MState) : list MState :=
  match max with
  | Some 0 => [x]
  | _ =>
    match fuel with
    | 0 => [x]
    | S fuel' =>
        let again :=
          y ← m (clearCaptures parens x);
          if (min =? 0) && (endIndex y =? endIndex x) then []
          else RepeatMatcher m parens fuel' (pred min) (pred <$> max) y in
        if 0 <? min then again else again ++ [x]
    end
  end.

Fixpoint matches (r : Regex) (x : MState) : list MState :=
  match r with
  | Empty => [x]
  | Char c => CharacterSetMatcher (sameChar c) x
  | Dot => CharacterSetMatcher (fun ch => negb (isLineTerminator ch)) x
  | Class invert atoms =>
      CharacterSetMatcher (fun ch => xorb invert (existsb (atomMatches ch) atoms)) x
  | AssertStart => if endIndex x =? 0 then [x] else []
  | AssertEnd => if endIndex x =? length Input then [x] else []
  | WordBoundary =>
      if xorb (IsWordCharAt true (endIndex x)) (IsWordCharAt false (endIndex x))
      then [x] else []
  | Seq r1 r2 => y ← matches r1 x; matches r2 y
  | Alt r1 r2 => matches r1 x ++ matches r2 x
  | Repeat min max r' =>
      RepeatMatcher (matches r') (groups r')
                    (min + (length Input - endIndex x)) min max x
  | Group n r' =>
      y ← matches r' x;
      [mkMState (endIndex y) (<[n := (endIndex x, endIndex y)]> (captures y))]
  | Backref n => BackreferenceMatcher n x
  end.

(** The first match that starts at index [i], if any. *)
Definition matchAt (r : Regex) (i : nat) : option MState :=
  head (matches r (mkMState i ∅)).

(** The leftmost match that starts at [i] or later: [n] counts the
    start positions still to try. *)
Fixpoint scan (r : Regex) (n i : nat) : option (nat * MState) :=
  match n with
  | 0 => None
  | S n' =>
      match matchAt r i with
      | Some y => Some (i, y)
      | None => scan r n' (S i)
      end
  end.

End Matcher.

(** A [RegExp] object: its pattern and flags, and the mutable
    [lastIndex] that [exec] and [test] read and write under [g]. *)
Record RegExp := mkRegExp {
  source : Regex;
  global : bool;
  ignoreCase : bool;
  lastIndex : nat
}.

Definition setLastIndex (R : RegExp) (i : nat) : RegExp :=
  mkRegExp (source R) (global R) (ignoreCase R) i.

(** A successful match: index, end, captures. *)
Record Match := mkMatch {
  index : nat;
  mend : nat;
  groupsOf : gmap nat (nat * nat)
}.

(** [RegExpBuiltinExec(R, txt)]: starts at [lastIndex] under [g] (at 0
    otherwise); a failure resets [lastIndex] to 0, a success under [g]
    moves it to the end of the match. *)
Definition exec (R : RegExp) (txt : list ascii) : RegExp * option Match :=
  let start := if global R then lastIndex R else 0 in
  match scan txt (ignoreCase R) (source R) (S (length txt) - start) start with
  | Some (i, y) =>
      (if global R then setLastIndex R (endIndex y) else R,
       Some (mkMatch i (endIndex y) (captures y)))
  | None => (if global R then setLastIndex R 0 else R, None)
  end.

(** [R.test(txt)] *)
Definition test (R : RegExp) (txt : list ascii) : RegExp * bool :=
  let '(R', m) := exec R txt in (R', bool_decide (is_Some m)).

(** [txt.match(R)] for a regular expression without [g]: the first match. *)
Definition smatch (txt : list ascii) (R : RegExp) : option Match :=
  (exec (mkRegExp (source R) false (ignoreCase R) 0) txt).2.

Definition group (txt : list ascii) (m : Match) (n : nat) : option (list ascii) :=
  '(s, e) ← groupsOf m !! n; Some (take (e - s) (drop s txt)).

(** [txt.replace(R, f)] for a global [R]: [lastIndex] is set to 0, every
    match is found in turn (an empty match advances by one), and the
    text between matches is kept.  [lastIndex] grows with every match,
    so a text has at most one match per start position: [n] counts
    them; [pos] is the end of the previous match. *)
Fixpoint replaceLoop (txt : list ascii) (f : list ascii -> list ascii)
    (R : RegExp) (n pos : nat) : list ascii :=
  match n with
  | 0 => drop pos txt
  | S n' =>
      match exec R txt with
      | (R', Some m) =>
          let matched := take (mend m - index m) (drop (index m) txt) in
          let next := if mend m =? index m then S (mend m) else mend m in
          take (index m - pos) (drop pos txt) ++ f matched ++
          replaceLoop txt f (setLastIndex R' next) n' (mend m)
      | (_, None) => drop pos txt
      end
  end.

Definition replace (txt : list ascii) (R : RegExp) (f : list ascii -> list ascii)
    : RegExp * list ascii :=
  (setLastIndex R 0,
   replaceLoop txt f (setLastIndex R 0) (S (length txt)) 0).

(** *** [new RegExp(pattern, flags)]

    The pattern grammar for texts made of ordinary characters and the
    quantifier [*]: a [*] needs an atom before it that is not itself
    quantified, else the constructor throws a [SyntaxError].  A pattern
    with any other syntax character is outside this grammar. *)
Inductive Parsed :=
| Pattern (r : Regex)
| SyntaxError
| Unsupported.

Definition isSyntaxCharacter (c : ascii) : bool :=
  existsb (ascii_eqb c) (chars "^$\.*+?()[]{}|").

(** [acc]: the terms read so far; [atom]: the last term, still open to
    a quantifier. *)
Fixpoint parseTerms (p : list ascii) (acc : Regex) (atom : option Regex) : Parsed :=
  let close := match atom with Some a => Seq acc a | None => acc end in
  match p with
  | [] => Pattern close
  | c :: p' =>
      if ascii_eqb c "*" then
        match atom with
        | Some a => parseTerms p' (Seq acc (Repeat 0 None a)) None
        | None => SyntaxError
        end
      else if isSyntaxCharacter c then Unsupported
      else parseTerms p' close (Some (Char c))
  end.

Definition parsePattern (p : list ascii) : Parsed := parseTerms p Empty None.

(** An upper bound on the characters a match of [r] takes, when the
    syntax gives one. *)
Fixpoint maxWidth (r : Regex) : option nat :=
  match r with
  | Empty | AssertStart | AssertEnd | WordBoundary => Some 0
  | Char _ | Dot | Class _ _ => Some 1
  | Seq r1 r2 => a ← maxWidth r1; b ← maxWidth r2; Some (a + b)
  | Alt r1 r2 => a ← maxWidth r1; b ← maxWidth r2; Some (a `max` b)
  | Repeat _ (Some n) r' => a ← maxWidth r'; Some (n * a)
  | Repeat _ None _ => None
  | Group _ r' => maxWidth r'
  | Backref _ => None
  end.

(** Every group of [r] encloses at most [b] characters. *)
Fixpoint narrowGroups (b : nat) (r : Regex) : bool :=
  match r with
  | Seq r1 r2 | Alt r1 r2 => narrowGroups b r1 && narrowGroups b r2
  | Repeat _ _ r' => narrowGroups b r'
  | Group _ r' =>
      match maxWidth r' with Some a => a <=? b | None => false end && narrowGroups b r'
  | _ => true
  end.

(** Every capture spans at most [b] characters. *)
Definition narrow (b : nat) (caps : gmap nat (nat * nat)) : Prop :=
  ∀ n s e, caps !! n = Some (s, e) → e - s ≤ b.

(** The number of characters every match of [r] takes, when the syntax
    fixes it. *)
Fixpoint exactWidth (r : Regex) : option nat :=
  match r with
  | Empty | AssertStart | AssertEnd | WordBoundary => Some 0
  | Char _ | Dot | Class _ _ => Some 1
  | Seq r1 r2 => a ← exactWidth r1; b ← exactWidth r2; Some (a + b)
  | Group _ r' => exactWidth r'
  | _ => None
  end.

End JSRegExp.

(** ** The moderation engine ([src/content-filter.js]) *)

Module ContentFilter.
Import JSString JSRegExp.

(** Pattern literals are written with these abbreviations. *)
Definition lit (s : string) : Regex := foldr (fun c r => Seq (Char c) r) Empty (chars s).
Definition plus (r : Regex) : Regex := Repeat 1 None r.
Definition star (r : Regex) : Regex := Repeat 0 None r.
Definition opt (r : Regex) : Regex := Repeat 0 (Some 1) r.
Definition seqs (rs : list Regex) : Regex := foldr Seq Empty rs.
Definition oneOf (s : string) : Regex := Class false (CChar <$> chars s).
Definition ws : Regex := Class false [CSpace].

(** [/c1+c2+.../gi] over the letters of [s]. *)
Definition stretched (s : string) : Regex := seqs ((fun c => plus (Char c)) <$> chars s).
(** [/c1\s*c2\s*.../gi] over the letters of [s]. *)
Fixpoint spaced (cs : list ascii) : Regex :=
  match cs with
  | [] => Empty
  | [c] => Char c
  | c :: cs' => Seq (Char c) (Seq (star ws) (spaced cs'))
  end.

Definition gi (r : Regex) : RegExp := mkRegExp r true true 0.
Definition g (r : Regex) : RegExp := mkRegExp r true false 0.

(** The object's fields, as the constructor sets them. *)
Record t := mkFilter {
  profanityList : list string;
  patterns : list RegExp;
  spamPatterns : list RegExp
}.

Definition new : t := {|
  profanityList :=
    [ "fuck"; "shit"; "bitch"; "ass"; "damn"; "cunt";
      "crap"; "piss"; "bastard"; "slut"; "whore";
      "n***a"; "f****t"; "r****d" ];
  patterns :=
    [ gi (stretched "fuck");
      gi (stretched "shit");
      gi (stretched "bitch");
      gi (stretched "asshole");
      gi (stretched "damn");
      gi (seqs [Char "f"; oneOf "u*@"; lit "ck"]);
      gi (seqs [lit "sh"; oneOf "i*"; Char "t"]);
      gi (seqs [Char "b"; oneOf "*i"; lit "tch"]);
      gi (spaced (chars "fuck"));
      gi (spaced (chars "shit")) ];
  spamPatterns :=
    [ gi (Seq (Group 1 Dot) (Repeat 10 None (Backref 1)));
      gi (Group 1 (seqs [lit "http"; opt (Char "s"); lit "://";
                         plus (Class true [CSpace])]));
      gi (Seq (Group 1 (seqs [WordBoundary; plus (Class false [CWord]); WordBoundary]))
              (Repeat 3 None (Group 2 (Seq (plus ws) (Backref 1)))));
      g (Repeat 20 None (Class false [CRange "A" "Z"])) ]
|}.

Inductive Action := allow | warn | block.

Record Verdict := mkVerdict {
  isClean : bool;
  filteredText : string;
  violations : list string;
  action : Action
}.

(** The result object of [checkProfanity]. *)
Record Profanity := mkProfanity {
  pClean : bool;
  pFiltered : list ascii;
  pViolations : list string
}.

(** The body of the word loop for one [word]. *)
Definition checkWord (lowerText : list ascii) (word : string) (res : Profanity)
    : Outcome Profanity :=
  if includes lowerText (chars word) then
    match parsePattern (chars word) with
    | Pattern r =>
        Returned {|
          pClean := false;
          pViolations := pViolations res ++ ["Inappropriate language: " +:+ word];
          pFiltered := (replace (pFiltered res) (gi r)
                                (fun _ => stars (String.length word))).2 |}
    | SyntaxError => Threw "SyntaxError: Invalid regular expression: Nothing to repeat"
    | Unsupported => Threw "pattern outside the modelled grammar"
    end
  else Returned res.

Fixpoint checkWords (lowerText : list ascii) (words : list string) (res : Profanity)
    : Outcome Profanity :=
  match words with
  | [] => Returned res
  | word :: words' =>
      match checkWord lowerText word res with
      | Returned res' => checkWords lowerText words' res'
      | Threw e => Threw e
      end
  end.

(** The pattern loop: [test] moves the pattern's [lastIndex], [replace]
    resets it; the redaction starts again from [text]. *)
Fixpoint checkPatterns (text : list ascii) (ps : list RegExp) (res : Profanity)
    : list RegExp * Profanity :=
  match ps with
  | [] => ([], res)
  | pattern :: ps' =>
      let '(pattern1, hit) := test pattern text in
      let '(pattern2, res') :=
        if hit then
          let '(pattern2, filtered) :=
            replace text pattern1 (fun m => stars (length m)) in
          (pattern2, {| pClean := false;
                        pViolations := pViolations res ++ ["Inappropriate language detected"];
                        pFiltered := filtered |})
        else (pattern1, res) in
      let '(ps'', res'') := checkPatterns text ps' res' in
      (pattern2 :: ps'', res'')
  end.

Definition withPatterns (this : t) (ps : list RegExp) : t :=
  mkFilter (profanityList this) ps (spamPatterns this).
Definition withSpamPatterns (this : t) (ps : list RegExp) : t :=
  mkFilter (profanityList this) (patterns this) ps.

Definition checkProfanity (this : t) (text : list ascii) : t * Outcome Profanity :=
  let result := mkProfanity true text [] in
  let lowerText := toLowerCase text in
  match checkWords lowerText (profanityList this) result with
  | Threw e => (this, Threw e)
  | Returned result' =>
      let '(ps, result'') := checkPatterns text (patterns this) result' in
      (withPatterns this ps, Returned result'')
  end.

(** The reason [checkSpam] gives for the pattern at index [i]. *)
Definition spamReason (i : nat) : list string :=
  match i with
  | 0 => ["Excessive repeated characters"]
  | 1 => ["URLs not allowed"]
  | 2 => ["Excessive repeated words"]
  | 3 => ["Excessive capital letters"]
  | _ => []
  end.

Fixpoint checkSpamFrom (text : list ascii) (i : nat) (ps : list RegExp)
    (res : bool * list string) : list RegExp * (bool * list string) :=
  match ps with
  | [] => ([], res)
  | pattern :: ps' =>
      let '(pattern', hit) := test pattern text in
      let res' := if hit then (false, res.2 ++ spamReason i) else res in
      let '(ps'', res'') := checkSpamFrom text (S i) ps' res' in
      (pattern' :: ps'', res'')
  end.

Definition checkSpam (this : t) (text : list ascii) : t * (bool * list string) :=
  let '(ps, res) := checkSpamFrom text 0 (spamPatterns this) (true, []) in
  (withSpamPatterns this ps, res).

Definition filterContent (this : t) (text : string) : t * Outcome Verdict :=
  let txt := chars text in
  let result := mkVerdict true text [] allow in
  match checkProfanity this txt with
  | (this1, Threw e) => (this1, Threw e)
  | (this1, Returned profanityCheck) =>
      let result1 :=
        if pClean profanityCheck then result
        else mkVerdict false (str (pFiltered profanityCheck))
                       (violations result ++ pViolations profanityCheck) block in
      let '(this2, spamCheck) := checkSpam this1 txt in
      let result2 :=
        if spamCheck.1 then result1
        else mkVerdict false (filteredText result1)
                       (violations result1 ++ spamCheck.2) block in
      let result3 :=
        if 500 <? length txt
        then mkVerdict false (filteredText result2)
               (violations result2 ++ ["Text too long (max 500 characters)"]) block
        else result2 in
      let result4 :=
        if length (trim txt) <? 2
        then mkVerdict false (filteredText result3)
               (violations result3 ++ ["Text too short"]) block
        else result3 in
      (this2, Returned result4)
  end.

Definition isContentAppropriate (this : t) (text : string) : t * Outcome bool :=
  match filterContent this text with
  | (this', Returned result) => (this', Returned (isClean result))
  | (this', Threw e) => (this', Threw e)
  end.

Definition getSafeVersion (this : t) (text : string) : t * Outcome string :=
  match filterContent this text with
  | (this', Returned result) => (this', Returned (filteredText result))
  | (this', Threw e) => (this', Threw e)
  end.

Definition fifteen : string := "aaaaaaaaaaaaaaa".

(** *** Instances of the class *)

(** A pattern with [lastIndex] back at 0, and the rules of an instance:
    its fields with every pattern rewound. *)
Definition rewind (R : RegExp) : RegExp := setLastIndex R 0.

Definition rules (this : t) : t :=
  mkFilter (profanityList this) (rewind <$> patterns this) (rewind <$> spamPatterns this).

(** An instance that the constructor made, in whatever state its
    patterns are. *)
Definition constructed (this : t) : Prop := rules this = new.

(** Whether a lower-case text includes one of the three words of the
    list that are written with stars. *)
Definition starred (lowerText : list ascii) : bool :=
  includes lowerText (chars "n***a") || includes lowerText (chars "f****t")
  || includes lowerText (chars "r****d").

(** The verdict that [filterContent] assembles from the result of
    [checkProfanity], the result of [checkSpam] and the two length
    checks. *)
Definition assemble (text : string) (profanityCheck : Profanity)
    (spamCheck : bool * list string) : Verdict :=
  let txt := chars text in
  let result := mkVerdict true text [] allow in
  let result1 :=
    if pClean profanityCheck then result
    else mkVerdict false (str (pFiltered profanityCheck))
                   (violations result ++ pViolations profanityCheck) block in
  let result2 :=
    if spamCheck.1 then result1
    else mkVerdict false (filteredText result1)
                   (violations result1 ++ spamCheck.2) block in
  let result3 :=
    if 500 <? length txt
    then mkVerdict false (filteredText result2)
           (violations result2 ++ ["Text too long (max 500 characters)"]) block
    else result2 in
  if length (trim txt) <? 2
  then mkVerdict false (filteredText result3)
         (violations result3 ++ ["Text too short"]) block
  else result3.

(** The two reasons of the length checks. *)
Definition lengthReason (s : string) : Prop :=
  s = "Text too long (max 500 characters)" ∨ s = "Text too short".


(** The result of [checkProfanity] is clean exactly when it has no
    reason, and none of its reasons is one of the length checks. *)
Definition sound (res : Profanity) : Prop :=
  (pClean res = true ↔ pViolations res = [])
  ∧ Forall (fun s => ¬ lengthReason s) (pViolations res).

End ContentFilter.


(** ** The rate limiter ([rateLimiter] in [src/background.js]) *)

Module RateLimiter.

Record Limit := mkLimit { max : nat; window : Z }.

(** [actions]: per user, per action, the times of the admitted calls;
    [limits]: the table of the object.  The maps stand for the plain
    objects of the source as long as every key is an own key ([ownKey]
    below). *)
Record t := mkLimiter {
  actions : gmap string (gmap string (list Z));
  limits : gmap string Limit
}.

Definition table : gmap string Limit :=
  {[ "comment" := mkLimit 10 60000;
     "like" := mkLimit 30 60000;
     "reply" := mkLimit 20 60000 ]}.

Definition new : t := mkLimiter ∅ table.

(** [this.actions[userId][action]], the empty list when there is none. *)
Definition windowOf (this : t) (userId action : string) : list Z :=
  default [] (actions this !! userId ≫= (.!! action)).

Definition setWindow (this : t) (userId action : string) (l : list Z) : t :=
  mkLimiter (<[userId := <[action := l]> (default ∅ (actions this !! userId))]>
               (actions this))
            (limits this).

Definition inWindow (now w : Z) (time : Z) : Prop := (now - time < w)%Z.
#[global] Instance inWindow_dec now w time : Decision (inWindow now w time) :=
  Z_lt_dec _ _.

(** [check(userId, action)] at [Date.now() = now].  An action without a
    limit makes [limit.window] (or [limit.max]) throw after the entries
    of the user and the action were created. *)
Definition check (this : t) (userId action : string) (now : Z) : t * Outcome bool :=
  let times := windowOf this userId action in
  match limits this !! action with
  | None =>
      (setWindow this userId action times,
       Threw "TypeError: Cannot read properties of undefined")
  | Some limit =>
      let kept := filter (inWindow now (window limit)) times in
      if max limit <=? length kept
      then (setWindow this userId action kept, Returned false)
      else (setWindow this userId action (kept ++ [now]), Returned true)
  end.

(** A call: who, what, when. *)
Record Call := mkCall { who : string; what : string; when : Z }.

Definition call (this : t) (c : Call) : t * Outcome bool :=
  check this (who c) (what c) (when c).

(** The limiter after a sequence of calls. *)
Definition run (this : t) (calls : list Call) : t :=
  foldl (fun this c => (call this c).1) this calls.

(** The times at which the calls of [calls] on [(userId, action)] were
    admitted, in order. *)
Fixpoint admitted (userId action : string) (this : t) (calls : list Call) : list Z :=
  match calls with
  | [] => []
  | c :: calls' =>
      let '(this', r) := call this c in
      match r with
      | Returned true =>
          if bool_decide (who c = userId ∧ what c = action) then [when c] else []
      | _ => []
      end ++ admitted userId action this' calls'
  end.

(** No window is longer than its limit allows. *)
Definition bounded (this : t) : Prop :=
  ∀ userId action limit,
    limits this !! action = Some limit →
    length (windowOf this userId action) ≤ max limit.

(** The limiter of the example: two admissions per second. *)
Definition twoPerSecond : t := mkLimiter ∅ {[ "comment" := mkLimit 2 1000%Z ]}.


(** The names that every plain object inherits from [Object.prototype].
    [actions], the objects in it and [limits] are plain objects: under
    one of these names they find an inherited value instead of nothing,
    and under ["__proto__"] the prototype itself, shared by all.  The
    maps of [t] stand for the objects as long as no key is one of these
    names. *)
Definition inherited : list string :=
  [ "__proto__"; "constructor"; "hasOwnProperty"; "isPrototypeOf";
    "propertyIsEnumerable"; "toLocaleString"; "toString"; "valueOf";
    "__defineGetter__"; "__defineSetter__"; "__lookupGetter__"; "__lookupSetter__" ].

Definition ownKey (key : string) : bool := negb (bool_decide (key ∈ inherited)).

(** A call whose user and action are own keys, and a limiter whose
    keys all are. *)
Definition ownCall (c : Call) : bool := ownKey (who c) && ownKey (what c).

Definition ownState (this : t) : bool :=
  forallb (fun entry => ownKey entry.1 && forallb (fun w => ownKey w.1) (map_to_list entry.2))
          (map_to_list (actions this))
  && forallb (fun entry => ownKey entry.1) (map_to_list (limits this)).

End RateLimiter.

(** ** The service worker ([src/background.js])

    The remote store answers every request that reaches it; a request
    that does not reach it makes [fetch] throw and changes nothing there.
    Local storage always answers.  A handler runs to its end before the
    next one starts. *)

Module Background.
Import JSString.

Record User := mkUser { uid : string; token : string }.

Record Reply := mkReply {
  replyId : option string;
  replyText : string;
  replyAuthorId : string;
  replyAuthorName : string;
  replyCreatedAt : Z
}.

(** A comment as the handlers hold and cache it.  [id], [replies] and
    [likedByUser] are the fields a handler may not have set yet. *)
Record Comment := mkComment {
  id : option string;
  text : string;
  timestamp : Z;
  authorId : string;
  authorName : string;
  likes : nat;
  createdAt : Z;
  platform : string;
  replies : option (list Reply);
  likedByUser : option bool
}.

Record Profile := mkProfile {
  displayName : string;
  profileCreatedAt : Z;
  commentCount : nat;
  isAnonymous : bool;
  banned : bool
}.

Record Report := mkReport {
  reportCommentId : string;
  reportVideoId : string;
  reportedBy : string;
  reportedAt : Z
}.

(** The remote document store.  The children of [comments/{videoId}]
    and [replies/{commentId}] are listed with their keys in the order
    the store returns them; [likes/{commentId}/{uid}] is either absent
    or [true], the one value the program writes there; [nextKey]
    numbers the keys the store generates on [POST].  The maps stand for
    the tree of the store as long as every key is one segment of a path
    ([plainKey] below). *)
Record Remote := mkRemote {
  users : gmap string Profile;
  comments : gmap string (list (string * Comment));
  allReplies : gmap string (list (string * Reply));
  allLikes : gmap string (gset string);
  reports : gmap string (list Report);
  nextKey : nat
}.

(** [chrome.storage.local] *)
Record Storage := mkStorage {
  enabled : option bool;
  showOverlayByDefault : option bool;
  userId : option string;
  authToken : option string;
  cache : gmap string (list Comment)
}.

Inductive Path :=
| SignUp
| UserPath (uid : string)
| CommentCountPath (uid : string)
| CommentsPath (videoId : string)
| RepliesPath (commentId : string)
| LikesPath (commentId : string)
| LikePath (commentId uid : string)
| ReportsPath (commentId : string).

Inductive Method := GET | PUT | POST | DELETE.

(** What one run of a handler meets: the clock, whether each [fetch] in
    turn goes through ([true]) or fails (a missing entry goes through),
    the answer of the identity provider to a sign-up ([None]: an
    error), and the draw of [Math.random] for the display name. *)
Record Env := mkEnv {
  now : Z;
  net : list bool;
  signUp : option User;
  random : nat
}.

(** The state of the worker, the two stores, and the requests issued
    so far (newest last). *)
Record World := mkWorld {
  currentUser : option User;
  rateLimiter : RateLimiter.t;
  contentFilter : ContentFilter.t;
  storage : Storage;
  remote : Remote;
  issued : list (Method * Path)
}.

Definition initialStorage : Storage := mkStorage None None None None ∅.
Definition emptyRemote : Remote := mkRemote ∅ ∅ ∅ ∅ ∅ 0.

Definition initial : World :=
  mkWorld None RateLimiter.new ContentFilter.new initialStorage emptyRemote [].

(** *** The monad of the handlers: state, the rest of the network
    schedule, and exceptions. *)
Definition M (A : Type) : Type := World * list bool → (World * list bool) * Outcome A.

#[global] Instance M_ret : MRet M := fun A a s => (s, Returned a).
#[global] Instance M_bind : MBind M := fun A B k m s =>
  match m s with
  | (s', Returned a) => k a s'
  | (s', Threw e) => (s', Threw e)
  end.

Definition ret {A} (a : A) : M A := mret a.
Definition throw {A} (e : string) : M A := fun s => (s, Threw e).
Definition catch {A} (m : M A) (h : string → M A) : M A :=
  fun s => match m s with
           | (s', Threw e) => h e s'
           | r => r
           end.
Definition gets {A} (f : World → A) : M A := fun s => (s, Returned (f s.1)).
Definition modify (f : World → World) : M unit := fun s => ((f s.1, s.2), Returned tt).

Definition setCurrentUser (u : option User) (w : World) : World :=
  mkWorld u (rateLimiter w) (contentFilter w) (storage w) (remote w) (issued w).
Definition setRateLimiter (r : RateLimiter.t) (w : World) : World :=
  mkWorld (currentUser w) r (contentFilter w) (storage w) (remote w) (issued w).
Definition setContentFilter (f : ContentFilter.t) (w : World) : World :=
  mkWorld (currentUser w) (rateLimiter w) f (storage w) (remote w) (issued w).
Definition setStorage (st : Storage) (w : World) : World :=
  mkWorld (currentUser w) (rateLimiter w) (contentFilter w) st (remote w) (issued w).
Definition setRemote (r : Remote) (w : World) : World :=
  mkWorld (currentUser w) (rateLimiter w) (contentFilter w) (storage w) r (issued w).
Definition setIssued (l : list (Method * Path)) (w : World) : World :=
  mkWorld (currentUser w) (rateLimiter w) (contentFilter w) (storage w) (remote w) l.

(** [await fetch(...)]: the request is issued; it goes through or
    throws, as the schedule says. *)
Definition fetch (m : Method) (p : Path) : M unit :=
  fun s =>
    let w := setIssued (issued s.1 ++ [(m, p)]) s.1 in
    match s.2 with
    | false :: rest => ((w, rest), Threw "Failed to fetch")
    | true :: rest => ((w, rest), Returned tt)
    | [] => ((w, []), Returned tt)
    end.

Definition rateLimiterCheck (userId action : string) (t : Z) : M bool :=
  fun s =>
    let '(r, o) := RateLimiter.check (rateLimiter s.1) userId action t in
    ((setRateLimiter r s.1, s.2), o).

Definition filterContent (txt : string) : M ContentFilter.Verdict :=
  fun s =>
    let '(f, o) := ContentFilter.filterContent (contentFilter s.1) txt in
    ((setContentFilter f s.1, s.2), o).

(** A stored string is truthy unless it is empty. *)
Definition truthy (s : option string) : option string :=
  s ≫= fun v => if String.eqb v "" then None else Some v.

Definition setCredentials (u : User) (st : Storage) : Storage :=
  mkStorage (enabled st) (showOverlayByDefault st) (Some (uid u)) (Some (token u)) (cache st).
Definition setCache (videoId : string) (l : list Comment) (st : Storage) : Storage :=
  mkStorage (enabled st) (showOverlayByDefault st) (userId st) (authToken st)
            (<[videoId := l]> (cache st)).
Definition setFlags (st : Storage) : Storage :=
  mkStorage (Some true) (Some true) (userId st) (authToken st) (cache st).

Definition putUser (u : string) (p : Profile) (r : Remote) : Remote :=
  mkRemote (<[u := p]> (users r)) (comments r) (allReplies r) (allLikes r)
           (reports r) (nextKey r).
Definition setLikes (c : string) (l : gset string) (r : Remote) : Remote :=
  mkRemote (users r) (comments r) (allReplies r)
           (if bool_decide (l = ∅) then delete c (allLikes r) else <[c := l]> (allLikes r))
           (reports r) (nextKey r).
Definition likesOf (r : Remote) (c : string) : gset string :=
  default ∅ (allLikes r !! c).

(** The key the store generates for the next [POST]. *)
Definition generated (r : Remote) : string := "-K" +:+ pretty (nextKey r).

Definition postComment (v : string) (c : Comment) (r : Remote) : Remote :=
  mkRemote (users r)
           (<[v := default [] (comments r !! v) ++ [(generated r, c)]]> (comments r))
           (allReplies r) (allLikes r) (reports r) (S (nextKey r)).
Definition postReply (c : string) (x : Reply) (r : Remote) : Remote :=
  mkRemote (users r) (comments r)
           (<[c := default [] (allReplies r !! c) ++ [(generated r, x)]]> (allReplies r))
           (allLikes r) (reports r) (S (nextKey r)).
Definition postReport (c : string) (x : Report) (r : Remote) : Remote :=
  mkRemote (users r) (comments r) (allReplies r) (allLikes r)
           (<[c := default [] (reports r !! c) ++ [x]]> (reports r)) (S (nextKey r)).
Definition putCommentCount (u : string) (n : nat) (r : Remote) : Remote :=
  match users r !! u with
  | Some p => putUser u (mkProfile (displayName p) (profileCreatedAt p) n
                                   (isAnonymous p) (banned p)) r
  | None => r
  end.

(** [initializeAuth()]: the stored credentials if there are any, else
    an anonymous sign-up whose credentials are stored and whose profile
    is created.  Errors are logged, not thrown. *)
Definition initializeAuth (env : Env) : M unit :=
  catch
    (stored ← gets storage;
     match truthy (userId stored), truthy (authToken stored) with
     | Some u, Some t => modify (setCurrentUser (Some (mkUser u t)))
     | _, _ =>
         fetch POST SignUp;;
         match signUp env with
         | None => throw "sign-up error"
         | Some u =>
             modify (setCurrentUser (Some u));;
             modify (fun w => setStorage (setCredentials u (storage w)) w);;
             fetch PUT (UserPath (uid u));;
             modify (fun w => setRemote
               (putUser (uid u)
                  (mkProfile ("User" +:+ pretty (random env)) (now env) 0 true false)
                  (remote w)) w)
         end
     end)
    (fun _ => ret tt).

(** [if (!currentUser) await initializeAuth();] followed by the first
    read of [currentUser.uid], which throws when there is still none. *)
Definition requireUser (env : Env) : M User :=
  u ← gets currentUser;
  match u with
  | Some u => ret u
  | None =>
      initializeAuth env;;
      u ← gets currentUser;
      match u with
      | Some u => ret u
      | None => throw "TypeError: Cannot read properties of null (reading 'uid')"
      end
  end.

(** [comments.sort((a, b) => a.timestamp - b.timestamp)]: the sort is
    stable, so the result is the one of insertion from the right. *)
Fixpoint insertByTimestamp (c : Comment) (l : list Comment) : list Comment :=
  match l with
  | [] => [c]
  | d :: l' =>
      if (timestamp c <=? timestamp d)%Z then c :: d :: l'
      else d :: insertByTimestamp c l'
  end.

Definition sortByTimestamp (l : list Comment) : list Comment :=
  foldr insertByTimestamp [] l.

(** [cacheCommentLocally(videoId, comment)] *)
Definition cacheCommentLocally (videoId : string) (comment : Comment) : M unit :=
  catch
    (result ← gets (fun w => cache (storage w) !! videoId);
     let comments := default [] result in
     modify (fun w => setStorage
       (setCache videoId (sortByTimestamp (comments ++ [comment])) (storage w)) w))
    (fun _ => ret tt).

(** The data of a [SAVE_COMMENT] message. *)
Record CommentData := mkCommentData {
  dataVideoId : string;
  dataText : string;
  dataTimestamp : Q;
  dataPlatform : string
}.

(** What a handler answers: [{success: false, error}] or
    [{success: true, ...}]. *)
Inductive Response :=
| Failure (error : string)
| Saved (comment : Comment)
| Loaded (comments : list Comment)
| Liked (liked : bool)
| Replied (reply : Reply)
| Reported.

Definition success (r : Response) : bool :=
  match r with Failure _ => false | _ => true end.

Definition orAnonymous (name : string) : string :=
  if String.eqb name "" then "Anonymous" else name.

(** [handleSaveComment(commentData)] *)
Definition handleSaveComment (env : Env) (commentData : CommentData) : M Response :=
  catch
    (user ← requireUser env;
     admitted ← rateLimiterCheck (uid user) "comment" (now env);
     if negb admitted
     then ret (Failure "Rate limit exceeded. Please wait before posting again.")
     else
       filterResult ← filterContent (dataText commentData);
       if negb (ContentFilter.isClean filterResult)
       then ret (Failure (join ". " (ContentFilter.violations filterResult)))
       else
         fetch GET (UserPath (uid user));;
         userData ← gets (fun w => users (remote w) !! uid user);
         match userData with
         | None => throw "TypeError: Cannot read properties of null (reading 'displayName')"
         | Some userData =>
             if banned userData
             then ret (Failure "Your account has been suspended.")
             else
               let newComment :=
                 mkComment None (dataText commentData)
                           (Qfloor (dataTimestamp commentData))
                           (uid user) (orAnonymous (displayName userData)) 0
                           (now env) (dataPlatform commentData) None None in
               fetch POST (CommentsPath (dataVideoId commentData));;
               name ← gets (fun w => generated (remote w));
               modify (fun w => setRemote
                 (postComment (dataVideoId commentData) newComment (remote w)) w);;
               let newComment :=
                 mkComment (Some name) (text newComment) (timestamp newComment)
                           (authorId newComment) (authorName newComment)
                           (likes newComment) (createdAt newComment)
                           (platform newComment) None None in
               fetch PUT (CommentCountPath (uid user));;
               modify (fun w => setRemote
                 (putCommentCount (uid user) (commentCount userData + 1) (remote w)) w);;
               cacheCommentLocally (dataVideoId commentData) newComment;;
               ret (Saved newComment)
         end)
    (fun e => ret (Failure e)).

(** The loop of [handleLoadComments] that loads the replies and the
    likes of each comment in turn. *)
Definition withReplies (c : Comment) (rs : option (list Reply)) : Comment :=
  mkComment (id c) (text c) (timestamp c) (authorId c) (authorName c) (likes c)
            (createdAt c) (platform c) rs (likedByUser c).
Definition withLikes (c : Comment) (n : nat) (mine : option bool) : Comment :=
  mkComment (id c) (text c) (timestamp c) (authorId c) (authorName c) n
            (createdAt c) (platform c) (replies c) mine.

(** [{id: key, ...repliesData[key]}], for a stored reply without an
    [id] of its own, as [handleAddReply] writes them. *)
Definition keyedReply (kr : string * Reply) : Reply :=
  mkReply (Some kr.1) (replyText kr.2) (replyAuthorId kr.2) (replyAuthorName kr.2)
          (replyCreatedAt kr.2).

Definition loadDetails (comment : Comment) : M Comment :=
  let commentId := default "undefined" (id comment) in
  fetch GET (RepliesPath commentId);;
  repliesData ← gets (fun w => allReplies (remote w) !! commentId);
  let comment :=
    match repliesData with
    | Some rs => withReplies comment (Some (keyedReply <$> rs))
    | None => comment
    end in
  fetch GET (LikesPath commentId);;
  likesData ← gets (fun w => allLikes (remote w) !! commentId);
  user ← gets currentUser;
  ret match likesData with
      | Some ls =>
          withLikes comment (size ls)
                    ((fun u => bool_decide (uid u ∈ ls)) <$> user)
      | None => comment
      end.

Fixpoint loadAllDetails (cs : list Comment) : M (list Comment) :=
  match cs with
  | [] => ret []
  | c :: cs' =>
      c' ← loadDetails c;
      cs'' ← loadAllDetails cs';
      ret (c' :: cs'')
  end.

(** [{id: key, ...data[key], replies: [], likedByUser: false}], for a
    stored body without an [id] of its own ([unnamed] below), as
    [handleSaveComment] writes them. *)
Definition keyedComment (kc : string * Comment) : Comment :=
  mkComment (Some kc.1) (text kc.2) (timestamp kc.2) (authorId kc.2) (authorName kc.2)
            (likes kc.2) (createdAt kc.2) (platform kc.2) (Some []) (Some false).

(** The [try] block of [handleLoadComments]: the comments of the video
    from the remote store, sorted, with their replies and likes, stored
    in the cache. *)
Definition loadFromRemote (videoId : string) : M Response :=
  fetch GET (CommentsPath videoId);;
  data ← gets (fun w => comments (remote w) !! videoId);
  match data with
  | None => ret (Loaded [])
  | Some data =>
      let comments := sortByTimestamp (keyedComment <$> data) in
      comments ← loadAllDetails comments;
      modify (fun w => setStorage (setCache videoId comments (storage w)) w);;
      ret (Loaded comments)
  end.

(** Its [catch] block: what the cache holds for the video. *)
Definition loadFromCache (videoId : string) : M Response :=
  cached ← gets (fun w => cache (storage w) !! videoId);
  ret (Loaded (default [] cached)).

(** [handleLoadComments(videoId)] *)
Definition handleLoadComments (videoId : string) : M Response :=
  catch (loadFromRemote videoId) (fun _ => loadFromCache videoId).

(** [handleLikeComment(commentId)] *)
Definition handleLikeComment (env : Env) (commentId : string) : M Response :=
  catch
    (user ← requireUser env;
     admitted ← rateLimiterCheck (uid user) "like" (now env);
     if negb admitted
     then ret (Failure "Rate limit exceeded.")
     else
       fetch GET (LikePath commentId (uid user));;
       liked ← gets (fun w => bool_decide (uid user ∈ likesOf (remote w) commentId));
       if liked : bool
       then
         fetch DELETE (LikePath commentId (uid user));;
         modify (fun w => setRemote
           (setLikes commentId (likesOf (remote w) commentId ∖ {[uid user]}) (remote w)) w);;
         ret (Liked false)
       else
         fetch PUT (LikePath commentId (uid user));;
         modify (fun w => setRemote
           (setLikes commentId ({[uid user]} ∪ likesOf (remote w) commentId) (remote w)) w);;
         ret (Liked true))
    (fun e => ret (Failure e)).

(** [handleAddReply(commentId, text)] *)
Definition handleAddReply (env : Env) (commentId txt : string) : M Response :=
  catch
    (user ← requireUser env;
     admitted ← rateLimiterCheck (uid user) "reply" (now env);
     if negb admitted
     then ret (Failure "Rate limit exceeded.")
     else
       filterResult ← filterContent txt;
       if negb (ContentFilter.isClean filterResult)
       then ret (Failure (join ". " (ContentFilter.violations filterResult)))
       else
         fetch GET (UserPath (uid user));;
         userData ← gets (fun w => users (remote w) !! uid user);
         match userData with
         | None => throw "TypeError: Cannot read properties of null (reading 'displayName')"
         | Some userData =>
             if banned userData
             then ret (Failure "Your account has been suspended.")
             else
               let newReply :=
                 mkReply None txt (uid user) (orAnonymous (displayName userData))
                         (now env) in
               fetch POST (RepliesPath commentId);;
               name ← gets (fun w => generated (remote w));
               modify (fun w => setRemote (postReply commentId newReply (remote w)) w);;
               ret (Replied (mkReply (Some name) txt (uid user)
                                     (replyAuthorName newReply) (now env)))
         end)
    (fun e => ret (Failure e)).

(** [handleReportComment(commentId, videoId)] *)
Definition handleReportComment (env : Env) (commentId videoId : string) : M Response :=
  catch
    (user ← requireUser env;
     let report := mkReport commentId videoId (uid user) (now env) in
     fetch POST (ReportsPath commentId);;
     modify (fun w => setRemote (postReport commentId report (remote w)) w);;
     ret Reported)
    (fun e => ret (Failure e)).

(** The listener of [chrome.runtime.onInstalled]. *)
Definition onInstalled (env : Env) : M unit :=
  modify (fun w => setStorage (setFlags (storage w)) w);;
  initializeAuth env.

(** The messages of the content scripts and the listener that serves
    them. *)
Inductive Message :=
| SAVE_COMMENT (data : CommentData)
| LOAD_COMMENTS (videoId : string)
| LIKE_COMMENT (commentId : string)
| ADD_REPLY (commentId txt : string)
| REPORT_COMMENT (commentId videoId : string).

Definition onMessage (env : Env) (message : Message) : M Response :=
  match message with
  | SAVE_COMMENT data => handleSaveComment env data
  | LOAD_COMMENTS videoId => handleLoadComments videoId
  | LIKE_COMMENT commentId => handleLikeComment env commentId
  | ADD_REPLY commentId txt => handleAddReply env commentId txt
  | REPORT_COMMENT commentId videoId => handleReportComment env commentId videoId
  end.

(** One run of a handler in a world, under an environment. *)
Definition run {A} (m : M A) (env : Env) (w : World) : World * Outcome A :=
  let '((w', _), o) := m (w, net env) in (w', o).

(** The worker is stopped and started again: what it held in memory
    is lost, both stores stay. *)
Definition restart (w : World) : World :=
  mkWorld None RateLimiter.new ContentFilter.new (storage w) (remote w) (issued w).

(** The toggle of the popup ([src/popup.js]), the one other writer of
    local storage: [enabled] becomes the opposite of
    [result.enabled !== false]. *)
Definition toggleEnabled (st : Storage) : Storage :=
  mkStorage (match enabled st with Some false => Some true | _ => Some false end)
            (showOverlayByDefault st) (userId st) (authToken st) (cache st).

(** What can happen to a world: the worker serves a message or the
    installation event, it is restarted, the popup toggles the extension,
    or someone else writes the remote store. *)
Inductive step : World → World → Prop :=
| step_message env message w : step w (run (onMessage env message) env w).1
| step_installed env w : step w (run (onInstalled env) env w).1
| step_restart w : step w (restart w)
| step_toggle w : step w (setStorage (toggleEnabled (storage w)) w)
| step_remote r w : step w (setRemote r w).

Definition reachable : World → Prop := rtc step initial.

(** Every cached list is in ascending order of [timestamp]. *)
Definition ascending : list Comment → Prop :=
  Sorted (fun a b => (timestamp a ≤ timestamp b)%Z).

Definition cacheAscending (w : World) : Prop :=
  ∀ videoId l, cache (storage w) !! videoId = Some l → ascending l.

(** *** A logic for the handlers

    [triple P m Q E]: from a world in [P], [m] ends in a world in [Q a]
    if it returns [a], and in a world in [E] if it throws. *)
Definition triple {A} (P : World → Prop) (m : M A)
    (Q : A → World → Prop) (E : World → Prop) : Prop :=
  ∀ w net w' net' o,
    P w → m (w, net) = ((w', net'), o) →
    match o with Returned a => Q a w' | Threw _ => E w' end.

(** [keeps I m]: [m] keeps the invariant [I], however it ends. *)
Definition keeps {A} (I : World → Prop) (m : M A) : Prop :=
  triple I m (fun _ => I) I.

(** The requests of [initializeAuth]. *)
Definition authRequest (req : Method * Path) : Prop :=
  req = (POST, SignUp) ∨ ∃ u, req = (PUT, UserPath u).


(** *** Worlds of the examples *)

(** Two comments, the later one stored first. *)
Definition late : Comment := mkComment None "late" 90 "u1" "Ann" 0 1 "netflix" None None.

Definition early : Comment := mkComment None "early" 10 "u2" "Bob" 0 2 "netflix" None None.

(** A remote store that lists [late] before [early] under the video "v". *)
Definition twoComments : Remote :=
  mkRemote ∅ {[ "v" := [("-K0", late); ("-K1", early)] ]} ∅ ∅ ∅ 2.

(** A run at time 1000 in which every request goes through, and a run
    at time 2000 in which the first request fails. *)
Definition quiet : Env := mkEnv 1000 [] None 0.

Definition offline : Env := mkEnv 2000 [false] None 0.

(** The world after someone else stored [twoComments] and the worker
    loaded "v". *)
Definition afterLoad : World :=
  (run (onMessage quiet (LOAD_COMMENTS "v")) quiet (setRemote twoComments initial)).1.

(** The remote store with [late] alone under "v". *)
Definition oneComment : Remote := mkRemote ∅ {[ "v" := [("-K0", late)] ]} ∅ ∅ ∅ 1.

(** The world after someone else stored [oneComment], the worker loaded
    "v", and the comment was deleted on the remote store. *)
Definition afterDeletion : World :=
  setRemote emptyRemote
    (run (handleLoadComments "v") quiet (setRemote oneComment initial)).1.

(** A signed-in user. *)
Definition alice : User := mkUser "alice" "token".

Definition signedIn : World := setCurrentUser (Some alice) initial.


(** *** Runs in which the network is up *)

(** Every request that the schedule holds goes through. *)
Definition up (net : list bool) : Prop := Forall (fun b => b = true) net.

(** What the loop of [handleLoadComments] makes of one comment when its
    two requests go through: the replies and the likes that the remote
    store holds under the id of the comment. *)
Definition detailed (w : World) (comment : Comment) : Comment :=
  let commentId := default "undefined" (id comment) in
  let comment :=
    match allReplies (remote w) !! commentId with
    | Some rs => withReplies comment (Some (keyedReply <$> rs))
    | None => comment
    end in
  match allLikes (remote w) !! commentId with
  | Some ls =>
      withLikes comment (size ls)
                ((fun u => bool_decide (uid u ∈ ls)) <$> currentUser w)
  | None => comment
  end.

(** The comment that [handleSaveComment] builds, before the store has
    named it. *)
Definition newComment (env : Env) (data : CommentData) (user : User) (userData : Profile)
    : Comment :=
  mkComment None (dataText data) (Qfloor (dataTimestamp data)) (uid user)
            (orAnonymous (displayName userData)) 0 (now env) (dataPlatform data) None None.

Definition named (name : string) (c : Comment) : Comment :=
  mkComment (Some name) (text c) (timestamp c) (authorId c) (authorName c) (likes c)
            (createdAt c) (platform c) None None.

(** What a comment says, whatever its id, replies and likes are. *)
Definition content (c : Comment) : string * Z * string * string * Z * string :=
  (text c, timestamp c, authorId c, authorName c, createdAt c, platform c).

(** A signed-in user who is not banned, with the limiter about to admit
    a call of [action] and the filter about to accept [txt]. *)
Definition welcome (w : World) (env : Env) (user : User) (userData : Profile)
    (action txt : string) : Prop :=
  currentUser w = Some user
  ∧ (RateLimiter.check (rateLimiter w) (uid user) action (now env)).2 = Returned true
  ∧ (∃ verdict, (ContentFilter.filterContent (contentFilter w) txt).2 = Returned verdict
                ∧ ContentFilter.isClean verdict = true)
  ∧ users (remote w) !! uid user = Some userData
  ∧ banned userData = false.

(** Alice has a profile and a comment to save. *)
Definition aliceProfile : Profile := mkProfile "Alice" 1 0 true false.

Definition withAlice : World :=
  setRemote (putUser "alice" aliceProfile emptyRemote) signedIn.

Definition hello : CommentData := mkCommentData "v" "hello there" 12 "netflix".


(** Alice has used up her likes and her replies of the minute. *)
Definition busy : World :=
  setRateLimiter
    (RateLimiter.mkLimiter
       {[ "alice" := {[ "like" := replicate 30 1000%Z; "reply" := replicate 20 1000%Z ]} ]}
       RateLimiter.table)
    signedIn.


(** A comment as the answer of a load shows it, and a stored comment as
    a load is to show it: the key as id, and what the comment says. *)
Definition shown (c : Comment) : option string * (string * Z * string * string * Z * string) :=
  (id c, content c).

Definition stored (kc : string * Comment)
    : option string * (string * Z * string * string * Z * string) :=
  (Some kc.1, content kc.2).

(** The replies and the likes that the store holds for a loaded
    comment. *)
Definition upToDate (w : World) (c : Comment) : Prop :=
  ∃ key, id c = Some key
    ∧ replies c = Some (keyedReply <$> default [] (allReplies (remote w) !! key))
    ∧ ∀ ls, allLikes (remote w) !! key = Some ls → likes c = size ls.


(** The profile of the user is missing on the remote store, or it says
    that the user is banned. *)
Definition unwelcome (w : World) (user : User) : Prop :=
  currentUser w = Some user
  ∧ match users (remote w) !! uid user with
    | Some userData => banned userData = true
    | None => True
    end.

(** The same world but for the requests issued. *)
Definition sameStores (w w' : World) : Prop :=
  remote w' = remote w ∧ storage w' = storage w.

(** Messages that need a signed-in user: all but the load. *)
Definition needsUser (message : Message) : bool :=
  match message with LOAD_COMMENTS _ => false | _ => true end.

(** A world in which Alice is banned. *)
Definition bannedAlice : World :=
  setRemote (putUser "alice" (mkProfile "Alice" 1 0 true true) emptyRemote) signedIn.

(** A run in which the identity provider answers with an error. *)
Definition refused : Env := mkEnv 1000 [] None 0.


(** *** What the worker keeps *)



(** The limiter has the limits of the source and no window beyond
    them, and the moderation engine is one that the constructor made. *)
Definition configured (w : World) : Prop :=
  RateLimiter.limits (rateLimiter w) = RateLimiter.table
  ∧ RateLimiter.bounded (rateLimiter w)
  ∧ ContentFilter.constructed (contentFilter w).

(** Local storage holds the credentials [u] and [t], and whoever is
    signed in is that user. *)
Definition identified (u t : string) (w : World) : Prop :=
  userId (storage w) = Some u
  ∧ authToken (storage w) = Some t
  ∧ (currentUser w = None ∨ currentUser w = Some (mkUser u t)).

(** The requests issued since [w0] include no sign-up. *)
Definition noSignUpSince (w0 w : World) : Prop :=
  ∃ l, issued w = issued w0 ++ l ∧ (POST, SignUp) ∉ l.

(** What the worker itself does: it serves a message or the
    installation event. *)
Inductive served : World → World → Prop :=
| served_message env message w : served w (run (onMessage env message) env w).1
| served_installed env w : served w (run (onInstalled env) env w).1.

(** A run in which the identity provider signs Alice up. *)
Definition signsUp : Env := mkEnv 1000 [] (Some alice) 7.


(** The user is identified as [u] with [t], and no sign-up was
    requested since [w0]. *)
Definition since (u t : string) (w0 w : World) : Prop :=
  identified u t w ∧ noSignUpSince w0 w.


(** *** Keys of the remote store *)

(** A key that is one segment of a path of the remote store: letters,
    digits, [_] and [-], at least one.  The requests put the video id,
    the comment id and the user id into the path of the address, so a key
    with [/] names a place inside the node of another key; the maps of
    [Remote] stand for the store as long as every key is plain. *)
Definition plainKey (key : string) : bool :=
  negb (String.eqb key "")
  && forallb (fun c => isWordChar c || ascii_eqb c "-") (chars key).

(** Every key of the store is plain: the video ids, the comment ids
    and the user ids of the likes. *)
Definition plainStore (r : Remote) : bool :=
  forallb (fun entry => plainKey entry.1 && forallb (fun kc => plainKey kc.1) entry.2)
          (map_to_list (comments r))
  && forallb (fun entry => plainKey entry.1) (map_to_list (allReplies r))
  && forallb (fun entry => plainKey entry.1 && forallb plainKey (elements entry.2))
             (map_to_list (allLikes r)).

(** A comment as [handleSaveComment] stores it, and the replies as
    [handleAddReply] stores them: the body has no [id].  (An [id] in a
    stored body would take the place of the key in what a load lists.) *)
Definition unnamed (kc : string * Comment) : bool :=
  bool_decide (id kc.2 = None).

Definition unnamedReplies (r : Remote) : bool :=
  forallb (fun entry => forallb (fun kr => bool_decide (replyId kr.2 = None)) entry.2)
          (map_to_list (allReplies r)).

(** The comment that the content script sends a second time, and the
    data of its message. *)
Definition repeated : CommentData :=
  mkCommentData "hulu_abc" ContentFilter.fifteen 754 "hulu".

End Background.

(** ** The content script ([src/content.js]): playback position and the
    submission of a comment *)

Module Content.
Import JSString JSRegExp.

(** A JavaScript number: a finite one is the rational it denotes. *)
Inductive Num :=
| NaN
| Finite (q : Q)
| Infinity
| NegInfinity.

Definition isNaN (n : Num) : bool := match n with NaN => true | _ => false end.

Definition Qltb (a b : Q) : bool := negb (Qle_bool b a).

(** [n > q] and [n < q] against a finite bound. *)
Definition gt (n : Num) (q : Q) : bool :=
  match n with
  | Finite x => Qltb q x
  | Infinity => true
  | _ => false
  end.
Definition lt (n : Num) (q : Q) : bool :=
  match n with
  | Finite x => Qltb x q
  | NegInfinity => true
  | _ => false
  end.

(** [Math.floor] *)
Definition floor (n : Num) : Num :=
  match n with
  | Finite x => Finite (inject_Z (Qfloor x))
  | _ => n
  end.

Definition ofInt (z : Z) : Num := Finite (inject_Z z).

Inductive Platform := netflix | disneyplus | hulu.

(** Reading [progressBar[prop]]: the getter throws, the value is
    [undefined] or [null], or it is a value, given as the string
    [parseFloat] reads. *)
Inductive PropRead :=
| PropThrows
| PropNullish
| PropValue (s : string).

(** The [<progress-bar>] element: the slider in its shadow root if
    there is one ([value] and [max] as [parseFloat] reads them), its
    properties, and its attributes in the order of
    [getAttributeNames()]. *)
Record ProgressBar := mkProgressBar {
  shadowInput : option (string * string);
  property : string → PropRead;
  attributes : list (string * string)
}.

(** What the page shows when [getRealTimestamp] looks: the progress
    bar, the text of every element under [.controls], the text of the
    time displays of Netflix and Hulu, and [currentTime] of the video
    element that [findVideoElement] returns. *)
Record Page := mkPage {
  progressBar : option ProgressBar;
  controls : option (list string);
  netflixTime : option string;
  huluTime : option string;
  video : option Num
}.

Definition digit : Regex := Class false [CDigit].
Definition d12 : Regex := Repeat 1 (Some 2) digit.
Definition d2 : Regex := Repeat 2 (Some 2) digit.
Definition re (r : Regex) : RegExp := mkRegExp r false false 0.

(** [/^\d+(\.\d+)?$/] *)
Definition decimalShape : RegExp :=
  re (ContentFilter.seqs
        [AssertStart; ContentFilter.plus digit;
         ContentFilter.opt (Group 1 (Seq (Char ".") (ContentFilter.plus digit)));
         AssertEnd]).
(** [/\d{1,2}:\d{2}/] *)
Definition timeShape : RegExp := re (ContentFilter.seqs [d12; Char ":"; d2]).
(** [/(\d{1,2}):(\d{2})(?::(\d{2}))?/] *)
Definition clock : RegExp :=
  re (ContentFilter.seqs
        [Group 1 d12; Char ":"; Group 2 d2;
         ContentFilter.opt (Seq (Char ":") (Group 3 d2))]).
(** [/(\d{1,2}):(\d{2}):(\d{2})/] *)
Definition netflixClock : RegExp :=
  re (ContentFilter.seqs [Group 1 d12; Char ":"; Group 2 d2; Char ":"; Group 3 d2]).
(** [/(\d{1,2}):(\d{2})/] *)
Definition huluClock : RegExp :=
  re (ContentFilter.seqs [Group 1 d12; Char ":"; Group 2 d2]).

(** [parseInt]: the number the leading decimal digits stand for.  (Of a
    text without a leading digit JavaScript makes [NaN]; the groups it
    is applied to here are one or two digits.) *)
Fixpoint parseDigits (acc : Z) (s : list ascii) : Z :=
  match s with
  | c :: s' =>
      if isDigit c then parseDigits (10 * acc + (Z.of_nat (code c) - 48)) s' else acc
  | [] => acc
  end.

Definition parseInt (s : list ascii) : Z := parseDigits 0 s.

(** [parseInt(match[n])] where the group took part in the match. *)
Definition intGroup (txt : list ascii) (m : Match) (n : nat) : Z :=
  parseInt (default [] (group txt m n)).

Definition possibleProps : list string :=
  [ "value"; "currentTime"; "current"; "position";
    "currentValue"; "time"; "playbackTime"; "seconds" ].

Section Sources.
(** [parseFloat], whatever it reads from a string. *)
Context (parseFloat : string → Num).

(** The slider in the shadow root of the progress bar. *)
Definition shadowSlider (bar : ProgressBar) : option Num :=
  match shadowInput bar with
  | Some (v, m) =>
      let value := parseFloat v in
      let max := parseFloat m in
      if gt max 100 && lt max 86400 && gt value 0
      then Some (floor value) else None
  | None => None
  end.

(** The first of [possibleProps] that reads as a number in range. *)
Fixpoint firstProperty (bar : ProgressBar) (props : list string) : option Num :=
  match props with
  | [] => None
  | prop :: props' =>
      match property bar prop with
      | PropValue s =>
          let value := parseFloat s in
          if negb (isNaN value) && gt value 0 && lt value 86400
          then Some (floor value)
          else firstProperty bar props'
      | _ => firstProperty bar props'
      end
  end.

(** The first attribute whose value is a decimal number in range. *)
Fixpoint firstAttribute (attrs : list (string * string)) : option Num :=
  match attrs with
  | [] => None
  | (_, value) :: attrs' =>
      if negb (String.eqb value "")
         && bool_decide (is_Some (smatch (chars value) decimalShape))
      then
        let numValue := parseFloat value in
        if negb (isNaN numValue) && gt numValue 10 && lt numValue 86400
        then Some (floor numValue)
        else firstAttribute attrs'
      else firstAttribute attrs'
  end.

(** The seconds a time text of the controls stands for, when they lie
    strictly between 0 and 86400. *)
Definition controlSeconds (txt : list ascii) : option Z :=
  match smatch txt clock with
  | Some m =>
      let third := is_Some (groupsOf m !! 3) in
      let hours := if bool_decide third then intGroup txt m 1 else 0%Z in
      let minutes := if bool_decide third then intGroup txt m 2 else intGroup txt m 1 in
      let seconds := if bool_decide third then intGroup txt m 3 else intGroup txt m 2 in
      let totalSeconds := (hours * 3600 + minutes * 60 + seconds)%Z in
      if (0 <? totalSeconds)%Z && (totalSeconds <? 86400)%Z then Some totalSeconds else None
  | None => None
  end.

(** The largest time among the short texts of the controls that look
    like a time. *)
Definition controlsTime (texts : list string) : option Num :=
  let timeTexts :=
    List.filter (fun txt => (length txt <? 30)
                            && bool_decide (is_Some (smatch txt timeShape)))
                ((fun el => trim (chars el)) <$> texts) in
  let times := omap controlSeconds timeTexts in
  match times with
  | [] => None
  | t :: times' => Some (ofInt (foldl Z.max t times'))
  end.

Definition disneyTime (page : Page) : option Num :=
  match
    bar ← progressBar page;
    match shadowSlider bar with
    | Some t => Some t
    | None =>
        match firstProperty bar possibleProps with
        | Some t => Some t
        | None => firstAttribute (attributes bar)
        end
    end
  with
  | Some t => Some t
  | None => controls page ≫= controlsTime
  end.

Definition netflixDisplay (page : Page) : option Num :=
  txt ← chars <$> netflixTime page;
  m ← smatch txt netflixClock;
  Some (ofInt (intGroup txt m 1 * 3600 + intGroup txt m 2 * 60 + intGroup txt m 3)%Z).

Definition huluDisplay (page : Page) : option Num :=
  txt ← chars <$> huluTime page;
  m ← smatch txt huluClock;
  Some (ofInt (intGroup txt m 1 * 60 + intGroup txt m 2)%Z).

(** The clock of the media element. *)
Definition fallback (page : Page) : option Num :=
  match video page with
  | Some currentTime => if gt currentTime 0 then Some (floor currentTime) else None
  | None => None
  end.

(** [getRealTimestamp()]: [None] is [null]. *)
Definition getRealTimestamp (platform : option Platform) (page : Page) : option Num :=
  let platformTime :=
    match platform with
    | Some disneyplus => disneyTime page
    | Some netflix => netflixDisplay page
    | Some hulu => huluDisplay page
    | None => None
    end in
  match platformTime with
  | Some t => Some t
  | None => fallback page
  end.

(** What [handleAddComment] does with a text: nothing, an error
    message, or a [SAVE_COMMENT] message with the text and the
    position. *)
Inductive Submission :=
| Ignored
| ShowError (message : string)
| SaveComment (txt : string) (timestamp : Num).

(** [handleAddComment(text)], up to the call of [saveComment]. *)
Definition handleAddComment (filter : ContentFilter.t) (platform : option Platform)
    (page : Page) (txt : string) : ContentFilter.t * Outcome Submission :=
  if length (trim (chars txt)) =? 0 then (filter, Returned Ignored)
  else
    match ContentFilter.filterContent filter txt with
    | (filter', Threw e) => (filter', Threw e)
    | (filter', Returned filterResult) =>
        if negb (ContentFilter.isClean filterResult)
        then (filter', Returned (ShowError (join ". " (ContentFilter.violations filterResult))))
        else
          match getRealTimestamp platform page with
          | None =>
              (filter', Returned (ShowError "Could not get current timestamp. Please try again."))
          | Some timestamp => (filter', Returned (SaveComment txt timestamp))
          end
    end.

End Sources.

(** A non-negative whole number of seconds, or [Infinity]. *)
Definition wholeSeconds (t : Num) : Prop :=
  t = Infinity ∨ ∃ z, (0 ≤ z)%Z ∧ t = ofInt z.

(** A whole number of seconds in [0, 86400). *)
Definition withinDay (t : Num) : Prop :=
  ∃ z, (0 ≤ z < 86400)%Z ∧ t = ofInt z.

(** A page that shows only the given time display and media clock. *)
Definition showing (display : option string) (currentTime : option Num) : Page :=
  mkPage None None display display currentTime.

(** [parseFloat] on the texts of digits; the examples read no other. *)
Definition wholeNumber (s : string) : Num :=
  if forallb isDigit (chars s) && negb (String.eqb s "")
  then ofInt (parseInt (chars s)) else NaN.


(** *** The video element and the comments at the playhead *)

(** A [<video>] element: what [findVideoElement] and [onTimeUpdate]
    read of it. *)
Record Video := mkVideo {
  readyState : nat;
  paused : bool;
  currentTime : Num
}.

Definition playing (video : Video) : bool := (0 <? readyState video) && negb (paused video).
Definition hasContent (video : Video) : bool := 0 <? readyState video.

(** What [querySelectorAll(selectors[this.platform])] selects among the
    [<video>] elements [videos] of the page: all of them on a detected
    platform; without a platform the selector is [undefined], which
    selects no [<video>] element. *)
Definition selected (platform : option Platform) (videos : list Video) : list Video :=
  match platform with
  | Some _ => videos
  | None => []
  end.

(** [findVideoElement()]: [videos] are the [<video>] elements of the
    page, [None] is [null]. *)
Definition findVideoElement (platform : option Platform) (videos : list Video)
    : option Video :=
  let videos := selected platform videos in
  match
    if 1 <? length videos then
      match List.find playing videos with
      | Some video => Some video
      | None => List.find hasContent videos
      end
    else None
  with
  | Some video => Some video
  | None => head videos
  end.

(** [Math.abs(timestamp - currentTime) < 1] *)
Definition near (timestamp : Z) (currentTime : Num) : bool :=
  match currentTime with
  | Finite q => Qltb (Qabs (inject_Z timestamp - q)) 1
  | _ => false
  end.

(** [onTimeUpdate()]: the comments handed to [displayComments], [None]
    when it is not called. *)
Definition onTimeUpdate (platform : option Platform) (videos : list Video)
    (comments : list Background.Comment) : option (list Background.Comment) :=
  match findVideoElement platform videos with
  | None => None
  | Some video =>
      let currentTime := floor (currentTime video) in
      let activeComments :=
        List.filter (fun c => near (Background.timestamp c) currentTime) comments in
      if 0 <? length activeComments then Some activeComments else None
  end.

(** [s.padStart(2, '0')] *)
Definition padStart2 (s : string) : string :=
  if String.length s <? 2 then "0" +:+ s else s.

(** [formatTime(seconds)] of a whole number of seconds. *)
Definition formatTime (seconds : Z) : string :=
  let hours := (seconds / 3600)%Z in
  let mins := (Z.rem seconds 3600 / 60)%Z in
  let secs := Z.rem seconds 60 in
  if (0 <? hours)%Z
  then pretty hours +:+ ":" +:+ padStart2 (pretty mins) +:+ ":" +:+ padStart2 (pretty secs)
  else pretty mins +:+ ":" +:+ padStart2 (pretty secs).

(** Whether each of [n] whole numbers from [z] on passes a test. *)
Fixpoint allFrom (test : Z → bool) (n : nat) (z : Z) : bool :=
  match n with
  | 0 => true
  | S n' => test z && allFrom test n' (z + 1)%Z
  end.


(** *** The key of the video *)

(** [detectPlatform()] on [window.location.hostname]. *)
Definition detectPlatform (hostname : string) : option Platform :=
  if includes (chars hostname) (chars "netflix") then Some netflix
  else if includes (chars hostname) (chars "disneyplus") then Some disneyplus
  else if includes (chars hostname) (chars "hulu") then Some hulu
  else None.

Definition notQuestion : Regex := Class true [CChar "?"].

(** [/\/watch\/(\d+)/] *)
Definition watchId : RegExp :=
  re (ContentFilter.seqs [ContentFilter.lit "/watch/"; Group 1 (ContentFilter.plus digit)]).
(** [/[?&]movieid=(\d+)/] *)
Definition movieId : RegExp :=
  re (ContentFilter.seqs [ContentFilter.oneOf "?&"; ContentFilter.lit "movieid=";
                          Group 1 (ContentFilter.plus digit)]).
(** [/\/(\d+)\/(\d+)\?/] *)
Definition srcPath : RegExp :=
  re (ContentFilter.seqs [Char "/"; Group 1 (ContentFilter.plus digit); Char "/";
                          Group 2 (ContentFilter.plus digit); Char "?"]).
(** [/Video[:%](\d+)/] *)
Definition tctxVideo : RegExp :=
  re (ContentFilter.seqs [ContentFilter.lit "Video"; ContentFilter.oneOf ":%";
                          Group 1 (ContentFilter.plus digit)]).
(** [/\/video\/([^?]+)/], [/\/play\/([^?]+)/] and [/\/watch\/([^?]+)/] *)
Definition disneyVideo : RegExp :=
  re (ContentFilter.seqs [ContentFilter.lit "/video/"; Group 1 (ContentFilter.plus notQuestion)]).
Definition disneyPlay : RegExp :=
  re (ContentFilter.seqs [ContentFilter.lit "/play/"; Group 1 (ContentFilter.plus notQuestion)]).
Definition huluWatch : RegExp :=
  re (ContentFilter.seqs [ContentFilter.lit "/watch/"; Group 1 (ContentFilter.plus notQuestion)]).

(** [match[n]] of a match of [txt]: [None] is [undefined]. *)
Definition matched (txt : string) (m : Match) (n : nat) : option string :=
  str <$> group (chars txt) m n.

(** An id as the page holds it: a number or a string. *)
Inductive JSId :=
| IdNumber (z : Z)
| IdString (s : string).

Definition truthyId (v : JSId) : bool :=
  match v with
  | IdNumber z => negb (z =? 0)%Z
  | IdString s => negb (String.eqb s "")
  end.

(** The id in a template literal. *)
Definition idText (v : JSId) : string :=
  match v with
  | IdNumber z => pretty z
  | IdString s => s
  end.

(** [episodeId !== showId], where [showId] is a string. *)
Definition differs (episodeId : JSId) (showId : string) : bool :=
  match episodeId with
  | IdNumber _ => true
  | IdString s => negb (String.eqb s showId)
  end.

(** What [extractVideoInfo] reads of the window: the address, the
    [tctx] parameter of its query, the video id of the player model of
    Netflix (absent when a link of the chain to it is), and the
    [data-videoid] of the first element that has one. *)
Record Window := mkWindow {
  href : string;
  tctx : option string;
  playerVideoId : option JSId;
  dataVideoid : option string
}.

(** [getNetflixEpisodeId()]: [videoElement] gives [currentSrc] and [src]
    of [this.videoElement]; [None] is [null] or [undefined]. *)
Definition getNetflixEpisodeId (videoElement : option (string * string)) (win : Window)
    : option JSId :=
  let method4 := IdString <$> Background.truthy (dataVideoid win) in
  let method3 :=
    match playerVideoId win with
    | Some videoId => if truthyId videoId then Some videoId else method4
    | None => method4
    end in
  let method2 :=
    match Background.truthy (tctx win) with
    | Some t =>
        match smatch (chars t) tctxVideo with
        | Some videoMatch => IdString <$> matched t videoMatch 1
        | None => method3
        end
    | None => method3
    end in
  match videoElement with
  | Some (currentSrc, src) =>
      let videoSrc := if String.eqb currentSrc "" then src else currentSrc in
      if String.eqb videoSrc "" then method2
      else
        match smatch (chars videoSrc) movieId with
        | Some movieIdMatch => IdString <$> matched videoSrc movieIdMatch 1
        | None =>
            match smatch (chars videoSrc) srcPath with
            | Some pathMatch =>
                match Background.truthy (matched videoSrc pathMatch 2) with
                | Some episode => Some (IdString episode)
                | None => method2
                end
            | None => method2
            end
        end
  | None => method2
  end.

(** [extractVideoInfo()]: the new value of [this.currentVideoId], which
    is [old] before the call. *)
Definition extractVideoInfo (platform : option Platform)
    (videoElement : option (string * string)) (win : Window) (old : option string)
    : option string :=
  let url := href win in
  match platform with
  | Some netflix =>
      match Background.truthy (smatch (chars url) watchId ≫= fun m => matched url m 1) with
      | None => None
      | Some showId =>
          match getNetflixEpisodeId videoElement win with
          | Some episodeId =>
              if truthyId episodeId && differs episodeId showId
              then Some ("netflix_ep_" +:+ idText episodeId)
              else Some ("netflix_" +:+ showId)
          | None => Some ("netflix_" +:+ showId)
          end
      end
  | Some disneyplus =>
      let guid :=
        match smatch (chars url) disneyVideo with
        | Some videoMatch => matched url videoMatch 1
        | None => smatch (chars url) disneyPlay ≫= fun playMatch => matched url playMatch 1
        end in
      (fun guid => "disneyplus_" +:+ guid) <$> Background.truthy guid
  | Some hulu =>
      (fun m => "hulu_" +:+ default "undefined" (matched url m 1))
        <$> smatch (chars url) huluWatch
  | None => old
  end.

(** A text of decimal digits, at least one. *)
Definition digits (s : string) : Prop :=
  s ≠ "" ∧ Forall (fun c => isDigit c = true) (chars s).


(** The name of the platform and an underscore, at the head of a key. *)
Definition keyPrefix (platform : Platform) : string :=
  match platform with
  | netflix => "netflix_"
  | disneyplus => "disneyplus_"
  | hulu => "hulu_"
  end.


(** Whether an answer of a reader is the whole number [n]. *)
Definition reads (n : Z) (t : option Num) : bool :=
  match t with
  | Some (Finite (Qmake a 1)) => (a =? n)%Z
  | _ => false
  end.


(** Whether the readers of the controls of Disney+ and of the Hulu
    display read [formatTime n] back, and the reader of the Netflix
    display reads nothing. *)
Definition readBack (n : Z) : bool :=
  bool_decide (controlSeconds (chars (formatTime n)) = Some n)
  && reads n (huluDisplay (showing (Some (formatTime n)) None))
  && bool_decide (is_Some (smatch (chars (formatTime n)) netflixClock) → False).


(** *** What [saveComment] sends *)

(** The data of the [SAVE_COMMENT] message that [saveComment(text,
    timestamp)] sends for a submission with a finite position, on the
    page of the video [videoId] of [platform]. *)
Definition saveComment (videoId platform : string) (submission : Submission)
    : option Background.CommentData :=
  match submission with
  | SaveComment txt (Finite timestamp) =>
      Some (Background.mkCommentData videoId txt timestamp platform)
  | _ => None
  end.

End Content.

(** * Properties *)

(** ** The rate limiter *)

Module RateLimiterFacts.
Import RateLimiter.

Lemma windowOf_setWindow this userId action l :
  windowOf (setWindow this userId action l) userId action = l.
Proof.
  unfold windowOf, setWindow; simpl.
  rewrite lookup_insert_eq; simpl. by rewrite lookup_insert_eq.
Qed.

Lemma windowOf_setWindow_ne this userId action l userId' action' :
  (userId, action) ≠ (userId', action') →
  windowOf (setWindow this userId action l) userId' action' =
  windowOf this userId' action'.
Proof.
  intros Hne. unfold windowOf, setWindow; simpl.
  destruct (decide (userId = userId')) as [<-|Hu].
  - rewrite lookup_insert_eq; simpl.
    rewrite lookup_insert_ne by congruence.
    by destruct (actions this !! userId).
  - by rewrite lookup_insert_ne.
Qed.

Lemma limits_check this userId action now :
  limits (check this userId action now).1 = limits this.
Proof.
  unfold check. destruct (limits this !! action) as [limit|]; [|done].
  by destruct (max limit <=? _).
Qed.

Lemma limits_run calls this : limits (run this calls) = limits this.
Proof.
  revert this. induction calls as [|c calls IH]; intros this; [done|].
  unfold run in *; simpl. rewrite IH. apply limits_check.
Qed.

(** What a call does to the window it is about. *)
Lemma check_window this userId action now limit :
  limits this !! action = Some limit →
  let kept := filter (inWindow now (window limit)) (windowOf this userId action) in
  (max limit ≤ length kept ∧
   (check this userId action now).2 = Returned false ∧
   windowOf (check this userId action now).1 userId action = kept)
  ∨ (length kept < max limit ∧
     (check this userId action now).2 = Returned true ∧
     windowOf (check this userId action now).1 userId action = kept ++ [now]).
Proof.
  intros Hl kept. unfold check. rewrite Hl. fold kept.
  destruct (Nat.leb_spec (max limit) (length kept)); simpl;
    rewrite windowOf_setWindow; [left|right]; done.
Qed.

(** A call leaves every other window as it was. *)
Lemma check_frame this userId action now userId' action' :
  (userId, action) ≠ (userId', action') →
  windowOf (check this userId action now).1 userId' action' =
  windowOf this userId' action'.
Proof.
  intros Hne. unfold check.
  destruct (limits this !! action) as [limit|]; simpl.
  - destruct (max limit <=? _); simpl; by apply windowOf_setWindow_ne.
  - by apply windowOf_setWindow_ne.
Qed.

Lemma bounded_check this userId action now :
  bounded this → bounded (check this userId action now).1.
Proof.
  intros Hb u a limit Hl. rewrite limits_check in Hl.
  destruct (decide ((userId, action) = (u, a))) as [[= <- <-]|Hne].
  - destruct (check_window this userId action now limit Hl) as [(_&_&->)|(Hlt&_&->)].
    + etrans; [apply length_filter|]. by apply Hb.
    + rewrite length_app; simpl. lia.
  - rewrite check_frame by done. by apply Hb.
Qed.

Lemma bounded_run calls this : bounded this → bounded (run this calls).
Proof.
  revert this. induction calls as [|c calls IH]; intros this Hb; [done|].
  apply (IH (call this c).1). by apply bounded_check.
Qed.

Lemma bounded_empty table : bounded (mkLimiter ∅ table).
Proof. intros u a limit _. unfold windowOf; simpl. rewrite lookup_empty; simpl. lia. Qed.

(** Pruning at a time [tc ≤ now] keeps what is in the window at [now]. *)
Lemma filter_prune now tc w (l : list Z) :
  (tc ≤ now)%Z →
  filter (inWindow now w) (filter (inWindow tc w) l) = filter (inWindow now w) l.
Proof.
  intros Hle. apply list_filter_filter_l. unfold inWindow. intros t. lia.
Qed.

(** After calls made no later than [now], the part of a window that is
    in the window at [now] is what was there before followed by what was
    admitted since. *)
Lemma window_after_run userId action limit now calls this :
  limits this !! action = Some limit →
  (∀ c, c ∈ calls → (when c ≤ now)%Z) →
  filter (inWindow now (window limit)) (windowOf (run this calls) userId action) =
  filter (inWindow now (window limit)) (windowOf this userId action) ++
  filter (inWindow now (window limit)) (admitted userId action this calls).
Proof.
  revert this. induction calls as [|c calls IH]; intros this Hl Hle.
  { simpl. by rewrite app_nil_r. }
  assert (when c ≤ now)%Z as Hc by (apply Hle; left).
  change (run this (c :: calls)) with (run (call this c).1 calls).
  rewrite IH; [|by unfold call; rewrite limits_check|by intros; apply Hle; right].
  simpl. destruct (call this c) as [this' r] eqn:Hcall; simpl.
  rewrite filter_app, app_assoc. f_equal.
  unfold call in Hcall.
  destruct (decide ((who c, what c) = (userId, action))) as [[= Hu Ha]|Hne].
  - rewrite Hu, Ha in Hcall.
    destruct (check_window this userId action (when c) limit Hl) as [(_&Hr&Hw)|(_&Hr&Hw)];
      rewrite Hcall in Hr, Hw; simpl in Hr, Hw; subst r; rewrite Hw.
    + by rewrite filter_prune, app_nil_r.
    + rewrite bool_decide_eq_true_2 by done.
      by rewrite filter_app, filter_prune.
  - replace this' with (check this (who c) (what c) (when c)).1 by (by rewrite Hcall).
    rewrite check_frame by done.
    destruct r as [[|]|]; rewrite ?app_nil_r; try done.
    rewrite bool_decide_eq_false_2; [by rewrite app_nil_r|].
    intros [??]; apply Hne; congruence.
Qed.

(** C2: sliding-window admission.  (1) After any calls made no later
    than [now], if at least [max] of those on [(userId, action)] were
    admitted less than [window] before [now], the call at [now] is
    rejected.  (2) From the empty limiter, after any calls, if [window]
    has elapsed since a recorded admission (the oldest one in
    particular), the call is admitted.  (3) With [max = 2] and
    [window = 1000], calls at 0 and 100 are admitted, the call at 200 is
    rejected and the call at 1101 is admitted. *)
Theorem sliding_window_admission :
  (∀ this calls userId action limit now,
      limits this !! action = Some limit →
      (∀ c, c ∈ calls → (when c ≤ now)%Z) →
      max limit ≤ length (filter (inWindow now (window limit))
                                 (admitted userId action this calls)) →
      (check (run this calls) userId action now).2 = Returned false)
  ∧ (∀ table calls userId action limit now oldest,
      table !! action = Some limit →
      oldest ∈ windowOf (run (mkLimiter ∅ table) calls) userId action →
      (window limit ≤ now - oldest)%Z →
      (check (run (mkLimiter ∅ table) calls) userId action now).2 = Returned true)
  ∧ (let c0 := check twoPerSecond "u" "comment" 0 in
     let c1 := check c0.1 "u" "comment" 100 in
     let c2 := check c1.1 "u" "comment" 200 in
     let c3 := check c2.1 "u" "comment" 1101 in
     (c0.2, c1.2, c2.2, c3.2) =
     (Returned true, Returned true, Returned false, Returned true)).
Proof.
  split; [|split].
  - intros this calls userId action limit now Hl Hle Hmax.
    assert (limits (run this calls) !! action = Some limit) as Hl'
      by (by rewrite limits_run).
    destruct (check_window _ userId action now limit Hl') as [(_&Hr&_)|(Hlt&_&_)]; [done|].
    rewrite (window_after_run _ _ _ _ _ _ Hl Hle), length_app in Hlt. lia.
  - intros table calls userId action limit now oldest Hl Hin Hold.
    set (this := run (mkLimiter ∅ table) calls) in *.
    assert (limits this !! action = Some limit) as Hl'
      by (by unfold this; rewrite limits_run).
    destruct (check_window this userId action now limit Hl') as [(Hge&_&_)|(_&Hr&_)]; [|done].
    pose proof (bounded_run calls _ (bounded_empty table) userId action limit Hl') as Hb.
    pose proof (length_filter_lt (inWindow now (window limit)) _ oldest Hin) as Hlt.
    fold this in Hb. unfold inWindow in Hlt at 1. lia.
  - by vm_compute.
Qed.

(** The rejection and the later admission of C2 at the limiter of the
    example, after the calls at 0 and 100. *)
Lemma sliding_window_admission_witness :
  (check (run twoPerSecond [mkCall "u" "comment" 0; mkCall "u" "comment" 100])
         "u" "comment" 200).2 = Returned false
  ∧ (check (run twoPerSecond [mkCall "u" "comment" 0; mkCall "u" "comment" 100])
           "u" "comment" 1101).2 = Returned true.
Proof.
  destruct sliding_window_admission as (Hreject & Hadmit & _).
  split.
  - apply (Hreject _ _ _ _ (mkLimit 2 1000%Z)).
    + reflexivity.
    + intros c Hc. repeat (apply elem_of_cons in Hc as [->|Hc]); simpl; try lia.
      by apply elem_of_nil in Hc.
    + vm_compute. lia.
  - apply (Hadmit _ _ _ _ (mkLimit 2 1000%Z) _ 0%Z).
    + reflexivity.
    + vm_compute. by left.
    + simpl. lia.
Defined.

(** C9: from the empty limiter, after any sequence of calls, every
    window holds at most the [max] of its action; and a rejected call
    replaces its window by the entries still in the window at the time
    of the call, records no time and leaves every other window as it
    was. *)
Theorem windows_stay_bounded (table : gmap string Limit) (calls : list Call) :
  bounded (run (mkLimiter ∅ table) calls)
  ∧ ∀ this c limit,
      limits this !! what c = Some limit →
      (call this c).2 = Returned false →
      windowOf (call this c).1 (who c) (what c) =
        filter (inWindow (when c) (window limit)) (windowOf this (who c) (what c))
      ∧ ∀ userId action,
          (who c, what c) ≠ (userId, action) →
          windowOf (call this c).1 userId action = windowOf this userId action.
Proof.
  split; [apply bounded_run, bounded_empty|].
  intros this c limit Hl Hr. unfold call in *. split.
  - destruct (check_window this (who c) (what c) (when c) limit Hl)
      as [(_&_&Hw)|(_&Hr'&_)]; [done|congruence].
  - intros. by apply check_frame.
Qed.

(** A rejected call of C9: the third call of the example prunes
    nothing, records nothing and is within the bound. *)
Lemma windows_stay_bounded_witness :
  let calls := [mkCall "u" "comment" 0; mkCall "u" "comment" 100] in
  let this := run twoPerSecond calls in
  length (windowOf (run twoPerSecond (calls ++ [mkCall "u" "comment" 200])) "u" "comment") ≤ 2
  ∧ windowOf (call this (mkCall "u" "comment" 200)).1 "u" "comment" = [0%Z; 100%Z].
Proof.
  intros calls this. split.
  - apply (proj1 (windows_stay_bounded {[ "comment" := mkLimit 2 1000%Z ]}
                    (calls ++ [mkCall "u" "comment" 200]))
             "u" "comment" (mkLimit 2 1000%Z)).
    reflexivity.
  - destruct (proj2 (windows_stay_bounded ∅ []) this (mkCall "u" "comment" 200)
                    (mkLimit 2 1000%Z)) as [Hw _]; [by vm_compute..|].
    vm_compute in Hw. vm_compute. exact Hw.
Defined.

(** *** Independence and order of the windows *)

(** The outcome of a call depends on its own window and the table only. *)
Lemma check_outcome_ext this1 this2 userId action now :
  windowOf this1 userId action = windowOf this2 userId action →
  limits this1 = limits this2 →
  (check this1 userId action now).2 = (check this2 userId action now).2.
Proof.
  intros Hw Hl. unfold check. rewrite Hw, Hl.
  destruct (limits this2 !! action) as [limit|]; [|done].
  by destruct (max limit <=? _).
Qed.

Lemma run_frame calls this userId action :
  (∀ c, c ∈ calls → (who c, what c) ≠ (userId, action)) →
  windowOf (run this calls) userId action = windowOf this userId action.
Proof.
  revert this. induction calls as [|c calls IH]; intros this Hne; [done|].
  change (run this (c :: calls)) with (run (call this c).1 calls).
  rewrite IH by (intros; apply Hne; by right).
  apply check_frame, Hne. by left.
Qed.

(** X1: the calls of other users, and the calls of the same user for
    other actions, have no effect on a window: after any number of them a
    call is admitted or rejected exactly as it would have been without
    them.  The users and the actions are own keys of the objects of the
    limiter: none is a name that a plain object inherits, such as
    ["__proto__"], under which the objects of all users would share
    their windows. *)
Theorem other_calls_do_not_matter this calls userId action now :
  ownState this = true →
  forallb ownCall calls = true →
  ownKey userId = true → ownKey action = true →
  (∀ c, c ∈ calls → (who c, what c) ≠ (userId, action)) →
  windowOf (run this calls) userId action = windowOf this userId action
  ∧ (check (run this calls) userId action now).2 = (check this userId action now).2.
Proof.
  intros _ _ _ _ Hne. split; [by apply run_frame|].
  apply check_outcome_ext; [by apply run_frame|apply limits_run].
Qed.

(** X1 at the limiter of the example: a like of "u" and a comment of "v"
    leave the comments of "u" where they were. *)
Lemma other_calls_do_not_matter_witness :
  (check (run twoPerSecond [mkCall "u" "like" 5; mkCall "v" "comment" 7])
         "u" "comment" 10).2
  = (check twoPerSecond "u" "comment" 10).2.
Proof.
  apply (other_calls_do_not_matter twoPerSecond
           [mkCall "u" "like" 5; mkCall "v" "comment" 7] "u" "comment" 10);
    [by vm_compute|reflexivity|reflexivity|reflexivity|].
  intros c Hc. repeat (apply elem_of_cons in Hc as [->|Hc]); simpl; try done.
  by apply elem_of_nil in Hc.
Defined.

Lemma StronglySorted_filter_le (P : Z → Prop) `{!∀ t, Decision (P t)} l :
  StronglySorted Z.le l → StronglySorted Z.le (filter P l).
Proof.
  induction 1 as [|t l Hl IH Ht]; [constructor|].
  rewrite filter_cons. destruct (decide (P t)); [|done].
  constructor; [done|]. apply Forall_forall. intros t' [_ Ht']%list_elem_of_filter.
  rewrite Forall_forall in Ht. by apply Ht.
Qed.

Lemma run_snoc this calls c : run this (calls ++ [c]) = (call (run this calls) c).1.
Proof. unfold run. by rewrite foldl_snoc. Qed.

(** Every recorded time is the time of a call on that window, and under
    a clock that never goes back the times are in order. *)
Lemma windows_chronological_all table calls :
  StronglySorted Z.le (when <$> calls) →
  ∀ userId action,
    StronglySorted Z.le (windowOf (run (mkLimiter ∅ table) calls) userId action)
    ∧ ∀ t, t ∈ windowOf (run (mkLimiter ∅ table) calls) userId action →
           ∃ c, c ∈ calls ∧ who c = userId ∧ what c = action ∧ when c = t.
Proof.
  induction calls as [|c calls IH] using rev_ind; intros Hs userId action.
  { unfold windowOf; simpl. rewrite lookup_empty; simpl. split; [constructor|].
    by intros t ?%elem_of_nil. }
  rewrite fmap_app in Hs. apply StronglySorted_app in Hs as (Hle & Hs & _).
  specialize (IH Hs). rewrite run_snoc. set (this := run (mkLimiter ∅ table) calls) in *.
  assert (∀ t, (∃ c', c' ∈ calls ∧ who c' = userId ∧ what c' = action ∧ when c' = t) →
               ∃ c', c' ∈ calls ++ [c] ∧ who c' = userId ∧ what c' = action ∧ when c' = t)
    as Hmore.
  { intros t (c' & ? & ?). exists c'. split; [|done]. apply elem_of_app. by left. }
  destruct (decide ((who c, what c) = (userId, action))) as [[= Hu Ha]|Hne].
  - unfold call. rewrite Hu, Ha.
    destruct (IH userId action) as [Hsorted Hcalls].
    destruct (limits this !! action) as [limit|] eqn:Hl.
    + assert (StronglySorted Z.le
                (filter (inWindow (when c) (window limit)) (windowOf this userId action)))
        as Hkept by by apply StronglySorted_filter_le.
      destruct (check_window this userId action (when c) limit Hl)
        as [(_&_&->)|(_&_&->)].
      * split; [done|]. intros t [_ Ht]%list_elem_of_filter. by apply Hmore, Hcalls.
      * split.
        -- apply StronglySorted_app_2; [|done|repeat constructor].
           intros t t' [_ Ht]%list_elem_of_filter ->%list_elem_of_singleton.
           destruct (Hcalls t Ht) as (c' & Hc' & _ & _ & <-).
           apply Hle; [by apply list_elem_of_fmap_2|]. simpl. by left.
        -- intros t [[_ Ht]%list_elem_of_filter| ->%list_elem_of_singleton]%elem_of_app.
           ++ by apply Hmore, Hcalls.
           ++ exists c. split; [|done]. apply elem_of_app. right. by left.
    + unfold check. rewrite Hl; simpl. rewrite windowOf_setWindow.
      split; [done|]. intros t Ht. by apply Hmore, Hcalls.
  - unfold call. rewrite check_frame by done.
    destruct (IH userId action) as [Hsorted Hcalls].
    split; [done|]. intros t Ht. by apply Hmore, Hcalls.
Qed.

(** X2: from the empty limiter, when the times of the calls never go
    back, every window lists its times oldest first, and each of them is
    the time of a call for that user and action.  The users and the
    actions, those of the calls and of the table too, are own keys of
    the objects of the limiter: none is a name that a plain object
    inherits. *)
Theorem windows_are_chronological table calls userId action :
  ownState (mkLimiter ∅ table) = true →
  forallb ownCall calls = true →
  ownKey userId = true → ownKey action = true →
  StronglySorted Z.le (when <$> calls) →
  StronglySorted Z.le (windowOf (run (mkLimiter ∅ table) calls) userId action)
  ∧ ∀ t, t ∈ windowOf (run (mkLimiter ∅ table) calls) userId action →
         ∃ c, c ∈ calls ∧ who c = userId ∧ what c = action ∧ when c = t.
Proof. intros _ _ _ _ Hs. by apply windows_chronological_all. Qed.

(** X2 at the calls of the example. *)
Lemma windows_are_chronological_witness :
  StronglySorted Z.le
    (windowOf (run twoPerSecond [mkCall "u" "comment" 0; mkCall "u" "comment" 100;
                                 mkCall "u" "comment" 200])
              "u" "comment").
Proof.
  apply (windows_are_chronological {[ "comment" := mkLimit 2 1000%Z ]}
           [mkCall "u" "comment" 0; mkCall "u" "comment" 100; mkCall "u" "comment" 200]
           "u" "comment"); [by vm_compute|reflexivity|reflexivity|reflexivity|].
  simpl. repeat constructor; lia.
Defined.

End RateLimiterFacts.

(** ** The moderation engine *)

Module ContentFilterFacts.
Import JSString JSRegExp ContentFilter.

(** Every word of the list is a pattern of the modelled grammar or a
    syntax error: the constructor's third answer never occurs. *)
Lemma profanityList_parsed :
  Forall (fun word => parsePattern (chars word) ≠ Unsupported) (profanityList new).
Proof. repeat constructor; by vm_compute. Qed.

(** Where [test] leaves a global pattern: a hit moves [lastIndex] to
    the end of the match, a miss resets it. *)
Lemma test_lastIndex R txt :
  global R = true →
  lastIndex (test R txt).1 =
    match (exec R txt).2 with Some m => mend m | None => 0 end.
Proof.
  intros Hg. unfold test, exec. rewrite Hg.
  by destruct (scan _ _ _ _ _) as [[i y]|].
Qed.

Lemma test_miss R txt :
  global R = true → (test R txt).2 = false → lastIndex (test R txt).1 = 0.
Proof.
  intros Hg. unfold test, exec. rewrite Hg.
  by destruct (scan _ _ _ _ _) as [[i y]|].
Qed.

(** The profanity patterns keep no state from one call to the next: a
    hit is followed by [replace], which resets [lastIndex], and a miss
    resets it. *)
Lemma checkPatterns_lastIndex text ps res :
  Forall (fun R => global R = true) ps →
  Forall (fun R => lastIndex R = 0) (checkPatterns text ps res).1.
Proof.
  intros Hps. revert res. induction Hps as [|R ps Hg _ IH]; intros res; simpl; [done|].
  pose proof (test_miss R text Hg) as Hmiss.
  destruct (test R text) as [R1 [|]]; simpl in *.
  - specialize (IH {| pClean := false;
                      pViolations := pViolations res ++ ["Inappropriate language detected"];
                      pFiltered := replaceLoop text (fun m => stars (length m))
                                     (setLastIndex R1 0) (S (length text)) 0 |}).
    destruct (checkPatterns text ps _) as [ps' res']. simpl. by constructor.
  - specialize (IH res). destruct (checkPatterns text ps res) as [ps' res'].
    simpl. constructor; [by apply Hmiss|done].
Qed.

(** The word loop throws only at a word that the text includes and that
    is no pattern. *)
Lemma checkWords_returns lowerText words res :
  Forall (fun word => includes lowerText (chars word) = false
                      ∨ ∃ r, parsePattern (chars word) = Pattern r) words →
  ∃ res', checkWords lowerText words res = Returned res'.
Proof.
  intros Hwords. revert res.
  induction Hwords as [|word words Hword _ IH]; intros res; simpl; [by eexists|].
  unfold checkWord. destruct Hword as [->|[r Hr]]; [apply IH|].
  destruct (includes lowerText (chars word)); [|apply IH]. rewrite Hr. apply IH.
Qed.

(** A text that includes none of the three words written with stars gets
    a verdict, whatever the state of the patterns. *)
Lemma filterContent_returns ps sps text :
  let lowerText := toLowerCase (chars text) in
  includes lowerText (chars "n***a") = false →
  includes lowerText (chars "f****t") = false →
  includes lowerText (chars "r****d") = false →
  ∃ verdict,
    (filterContent (mkFilter (profanityList new) ps sps) text).2 = Returned verdict.
Proof.
  intros lowerText H1 H2 H3. unfold filterContent, checkProfanity.
  cbn [profanityList patterns spamPatterns].
  destruct (checkWords_returns lowerText (profanityList new)
              (mkProfanity true (chars text) [])) as [res' Hres].
  { repeat (apply Forall_cons; split; [first [by left|right; by eexists]|]).
    apply Forall_nil_2. }
  fold lowerText. rewrite Hres.
  destruct (checkPatterns (chars text) ps res') as [ps' res''].
  unfold checkSpam. cbn [spamPatterns withPatterns].
  destruct (checkSpamFrom (chars text) 0 sps (true, [])) as [sps' spam]. simpl.
  by eexists.
Qed.

(** C1: two calls in a row on fifteen times the letter a.  The first
    call blocks the text for its repeated characters and leaves
    [lastIndex = 15] in the first spam pattern; the second call, on the
    same text, starts that pattern at 15, misses, and allows the text. *)
Theorem filterContent_second_call_differs :
  let first := filterContent new fifteen in
  let second := filterContent first.1 fifteen in
  first.2 = Returned (mkVerdict false fifteen ["Excessive repeated characters"] block)
  ∧ lastIndex <$> spamPatterns first.1 = [15; 0; 0; 0]
  ∧ second.2 = Returned (mkVerdict true fifteen [] allow).
Proof. by vm_compute. Qed.

(** C4: on ["ass damn"] the word loop redacts both words, then the
    pattern for "damn" redacts the original text again and the
    redaction of "ass" is lost; the second pass over the filtered text
    reports "ass" once more. *)
Theorem filterContent_redaction_lost :
  let first := filterContent new "ass damn" in
  first.2 = Returned (mkVerdict false "ass ****"
              ["Inappropriate language: ass"; "Inappropriate language: damn";
               "Inappropriate language detected"] block)
  ∧ (filterContent first.1 "ass ****").2 =
      Returned (mkVerdict false "*** ****"
                  ["Inappropriate language: ass"] block).
Proof. by vm_compute. Qed.

(** C8: on the text ["n***a"] the word is found in the text, its
    pattern is refused by the constructor of [RegExp], and the call
    throws. *)
Theorem filterContent_throws :
  parsePattern (chars "n***a") = SyntaxError
  ∧ (filterContent new "n***a").2 =
      Threw "SyntaxError: Invalid regular expression: Nothing to repeat".
Proof. by vm_compute. Qed.

End ContentFilterFacts.

(** ** The service worker *)

Module BackgroundFacts.
Import Background.

(** *** The rules of the logic of the handlers *)

Lemma triple_ret {A} (P : World → Prop) (a : A) Q E :
  (∀ w, P w → Q a w) → triple P (ret a) Q E.
Proof. intros H w net w' net' o HP [= <- <- <-]. by apply H. Qed.

Lemma triple_throw {A} (P : World → Prop) e (Q : A → World → Prop) (E : World → Prop) :
  (∀ w, P w → E w) → triple P (throw e) Q E.
Proof. intros H w net w' net' o HP [= <- <- <-]. by apply H. Qed.

Lemma triple_bind {A B} P (m : M A) (k : A → M B) R Q E :
  triple P m R E → (∀ a, triple (R a) (k a) Q E) → triple P (m ≫= k) Q E.
Proof.
  intros Hm Hk w net w' net' o HP. unfold mbind, M_bind.
  destruct (m (w, net)) as [[w1 net1] [a|e]] eqn:Hrun; intros Heq.
  - eapply Hk; [|exact Heq]. exact (Hm _ _ _ _ _ HP Hrun).
  - injection Heq as <- <- <-. exact (Hm _ _ _ _ _ HP Hrun).
Qed.

Lemma triple_catch {A} P (m : M A) (h : string → M A) Q R E :
  triple P m Q R → (∀ e, triple R (h e) Q E) → triple P (catch m h) Q E.
Proof.
  intros Hm Hh w net w' net' o HP. unfold catch.
  destruct (m (w, net)) as [[w1 net1] [a|e]] eqn:Hrun; intros Heq.
  - injection Heq as <- <- <-. exact (Hm _ _ _ _ _ HP Hrun).
  - eapply Hh; [|exact Heq]. exact (Hm _ _ _ _ _ HP Hrun).
Qed.

Lemma triple_gets {A} P (f : World → A) Q E :
  (∀ w, P w → Q (f w) w) → triple P (gets f) Q E.
Proof. intros H w net w' net' o HP [= <- <- <-]. by apply H. Qed.

Lemma triple_modify P (f : World → World) Q E :
  (∀ w, P w → Q tt (f w)) → triple P (modify f) Q E.
Proof. intros H w net w' net' o HP [= <- <- <-]. by apply H. Qed.

Lemma triple_fetch P method path Q E :
  (∀ w, P w → Q tt (setIssued (issued w ++ [(method, path)]) w)
              ∧ E (setIssued (issued w ++ [(method, path)]) w)) →
  triple P (fetch method path) Q E.
Proof.
  intros H w net w' net' o HP. unfold fetch; simpl.
  destruct net as [|[|] rest]; intros [= <- <- <-]; by apply H.
Qed.



Lemma keeps_bind {A B} I (m : M A) (k : A → M B) :
  keeps I m → (∀ a, keeps I (k a)) → keeps I (m ≫= k).
Proof. intros. by eapply triple_bind. Qed.

Lemma keeps_catch {A} I (m : M A) (h : string → M A) :
  keeps I m → (∀ e, keeps I (h e)) → keeps I (catch m h).
Proof. intros. by eapply triple_catch. Qed.

(** *** Sorting by position *)




Lemma insertByTimestamp_Permutation c l : insertByTimestamp c l ≡ₚ c :: l.
Proof.
  induction l as [|d l IH]; simpl; [done|].
  destruct (timestamp c <=? timestamp d)%Z; [done|].
  rewrite IH. apply Permutation_swap.
Qed.

Lemma sortByTimestamp_Permutation l : sortByTimestamp l ≡ₚ l.
Proof.
  induction l as [|c l IH]; simpl; [done|].
  by rewrite insertByTimestamp_Permutation, IH.
Qed.


(** *** The cache stays in ascending order *)

Lemma keeps_cache_frame (f : World → World) :
  (∀ w, cache (storage (f w)) = cache (storage w)) →
  keeps cacheAscending (modify f).
Proof.
  intros Hf. apply triple_modify. intros w Hw v l. rewrite Hf. apply Hw.
Qed.

Lemma keeps_ret {A} I (a : A) : keeps I (ret a).
Proof. by apply triple_ret. Qed.

Lemma keeps_throw {A} I e : keeps I (throw (A := A) e).
Proof. by apply triple_throw. Qed.

Lemma keeps_gets {A} I (f : World → A) : keeps I (gets f).
Proof. by apply triple_gets. Qed.

Lemma keeps_fetch method path : keeps cacheAscending (fetch method path).
Proof. apply triple_fetch. intros w Hw. split; exact Hw. Qed.

Lemma keeps_rateLimiterCheck userId action t :
  keeps cacheAscending (rateLimiterCheck userId action t).
Proof.
  intros w net w' net' o Hw. unfold rateLimiterCheck; simpl.
  destruct (RateLimiter.check _ _ _ _) as [r o']. intros [= <- <- <-].
  by destruct o'.
Qed.

Lemma keeps_filterContent txt : keeps cacheAscending (filterContent txt).
Proof.
  intros w net w' net' o Hw. unfold filterContent; simpl.
  destruct (ContentFilter.filterContent _ _) as [f o']. intros [= <- <- <-].
  by destruct o'.
Qed.

Lemma keeps_setCache videoId l :
  ascending l →
  keeps cacheAscending
    (modify (fun w => setStorage (setCache videoId l (storage w)) w)).
Proof.
  intros Hl. apply triple_modify. intros w Hw v l'; simpl.
  destruct (decide (videoId = v)) as [<-|Hne].
  - rewrite lookup_insert_eq. by intros [= <-].
  - rewrite lookup_insert_ne by done. apply Hw.
Qed.

(** One step of the proof that a handler keeps the order of the cache:
    the rule of the construct at the head. *)
Ltac keeps_step :=
  lazymatch goal with
  | |- keeps _ (_ ≫= _) => apply keeps_bind; [|intro; cbv beta]
  | |- keeps _ (catch _ _) => apply keeps_catch; [|intro; cbv beta]
  | |- keeps _ (ret _) => apply keeps_ret
  | |- keeps _ (throw _) => apply keeps_throw
  | |- keeps _ (gets _) => apply keeps_gets
  | |- keeps _ (fetch _ _) => apply keeps_fetch
  | |- keeps _ (rateLimiterCheck _ _ _) => apply keeps_rateLimiterCheck
  | |- keeps _ (filterContent _) => apply keeps_filterContent
  | |- keeps _ (modify _) =>
      first [apply keeps_cache_frame; intros; reflexivity
            |apply keeps_setCache]
  | |- keeps _ (match ?x with _ => _ end) => destruct x
  | |- keeps _ _ => solve [auto]
  end.
Ltac keeps := repeat keeps_step.














(** What [run] keeps. *)
Lemma run_triple {A} P (m : M A) Q E env w :
  triple P m Q E → P w →
  match (run m env w).2 with
  | Returned a => Q a (run m env w).1
  | Threw _ => E (run m env w).1
  end.
Proof.
  intros Hm Hw. unfold run.
  destruct (m (w, net env)) as [[w' net'] o] eqn:Hrun.
  exact (Hm _ _ _ _ _ Hw Hrun).
Qed.

Lemma run_keeps {A} I (m : M A) env w : keeps I m → I w → I (run m env w).1.
Proof.
  intros Hm Hw. pose proof (run_triple _ _ _ _ env w Hm Hw) as H.
  by destruct (run m env w).2.
Qed.







Lemma afterLoad_reachable : reachable afterLoad.
Proof.
  unfold reachable, afterLoad.
  eapply rtc_l; [apply (step_remote twoComments)|].
  apply rtc_once, step_message.
Qed.


(** *** Falling back to the cache *)

(** Until it stores its result, a load from the remote store leaves
    local storage and the remote store as they were: so they are when it
    throws. *)
Lemma loadFromRemote_throws videoId st r :
  triple (fun w => storage w = st ∧ remote w = r) (loadFromRemote videoId)
         (fun _ _ => True) (fun w => storage w = st ∧ remote w = r).
Proof.
  set (I := fun w => storage w = st ∧ remote w = r).
  assert (∀ method path, keeps I (fetch method path)) as Hfetch.
  { intros. apply triple_fetch. by intros w Hw. }
  assert (∀ c, keeps I (loadDetails c)) as Hone.
  { intros c. unfold loadDetails.
    repeat (apply keeps_bind; [first [apply Hfetch|apply keeps_gets]|intro; cbv beta]).
    apply keeps_ret. }
  assert (∀ cs, keeps I (loadAllDetails cs)) as Hall.
  { induction cs as [|c cs IH]; cbn [loadAllDetails]; [apply keeps_ret|].
    apply keeps_bind; [apply Hone|intro; cbv beta].
    apply keeps_bind; [apply IH|intro; cbv beta]. apply keeps_ret. }
  unfold loadFromRemote.
  eapply triple_bind; [apply Hfetch|intros ?; cbv beta].
  eapply triple_bind; [apply keeps_gets|intros [data|]; cbv beta].
  - eapply triple_bind; [apply Hall|intros cs; cbv beta].
    eapply triple_bind with (R := fun _ _ => True).
    + by apply triple_modify.
    + intros ?. by apply triple_ret.
  - by apply triple_ret.
Qed.

(** When a fetch of a load fails, the handler still answers with
    success: with the list the cache holds for the video, the empty list
    if it holds none; local storage and the remote store are untouched. *)
Lemma load_falls_back_to_cache videoId env w w1 net1 e :
  loadFromRemote videoId (w, net env) = ((w1, net1), Threw e) →
  (run (handleLoadComments videoId) env w).2
    = Returned (Loaded (default [] (cache (storage w) !! videoId)))
  ∧ storage (run (handleLoadComments videoId) env w).1 = storage w
  ∧ remote (run (handleLoadComments videoId) env w).1 = remote w.
Proof.
  intros Hrun.
  pose proof (loadFromRemote_throws videoId (storage w) (remote w) w (net env) w1 net1
                (Threw e) (conj eq_refl eq_refl) Hrun) as [Hst Hr].
  unfold run, handleLoadComments, catch. rewrite Hrun.
  unfold loadFromCache, mbind, M_bind, gets, ret, mret, M_ret; simpl.
  by rewrite Hst.
Qed.

(** C5: the last successful load of "v" answered with the empty list
    (the remote store holds no comment any more) and left the cache as it
    was; the next load, with the network down, answers with the comment
    cached before the deletion. *)
Theorem fallback_is_not_the_last_load :
  let loaded := run (handleLoadComments "v") quiet afterDeletion in
  let fallen := run (handleLoadComments "v") offline loaded.1 in
  loaded.2 = Returned (Loaded [])
  ∧ fallen.2 = Returned (Loaded [keyedComment ("-K0", late)]).
Proof. by vm_compute. Qed.

Lemma afterDeletion_reachable : reachable afterDeletion.
Proof.
  unfold reachable, afterDeletion.
  eapply rtc_l; [apply (step_remote oneComment)|].
  eapply rtc_l; [apply (step_message quiet (LOAD_COMMENTS "v"))|].
  apply rtc_once, step_remote.
Qed.

(** *** The write path *)

(** [requireUser] touches neither the limiter, the filter, the cache nor
    the stored comments; it issues requests only when nobody is signed in,
    and only those of the sign-up; it returns the user it leaves signed
    in, or throws and leaves nobody. *)
Lemma requireUser_spec env w net :
  ∃ w1 net1 o,
    requireUser env (w, net) = ((w1, net1), o)
    ∧ rateLimiter w1 = rateLimiter w
    ∧ contentFilter w1 = contentFilter w
    ∧ cache (storage w1) = cache (storage w)
    ∧ comments (remote w1) = comments (remote w)
    ∧ allLikes (remote w1) = allLikes (remote w)
    ∧ (∃ extra, issued w1 = issued w ++ extra ∧ Forall authRequest extra
                ∧ (is_Some (currentUser w) → extra = [] ∧ w1 = w ∧ net1 = net))
    ∧ match o with
      | Returned user => currentUser w1 = Some user
      | Threw e => currentUser w1 = None
      end.
Proof.
  unfold requireUser, initializeAuth, catch, mbind, M_bind, gets, modify, fetch, throw,
    ret, mret, M_ret; simpl.
  destruct (currentUser w) as [user|] eqn:Hu; simpl.
  { do 3 eexists. split; [done|]. repeat split; try done.
    exists []. by rewrite app_nil_r. }
  assert (¬ is_Some (@None User)) as Hno by (by intros [? [=]]).
  destruct (truthy (userId (storage w))) as [u|]; simpl;
    [destruct (truthy (authToken (storage w))) as [t|]; simpl|].
  1: { do 3 eexists. split; [done|]. do 5 (split; [done|]). split; [|done].
       exists []. by rewrite app_nil_r. }
  all: destruct net as [|[|] rest]; destruct (signUp env) as [user|]; simpl;
    try (destruct rest as [|[|] rest']; simpl);
    rewrite ?Hu; simpl;
    do 3 eexists; (split; [reflexivity|]); simpl; rewrite ?Hu;
    do 5 (split; [done|]); (split; [|done]);
    (eexists; rewrite <- ?app_assoc; split; [reflexivity|]; split; [|done]);
    repeat first [apply Forall_nil_2
                 |apply Forall_cons_2; [first [by left|right; by eexists]|]].
Qed.

(** C3, as the code has it: the handler asks the rate limiter first and
    the moderation engine second.  For a text whose verdict is not clean:
    no comment is stored remotely or cached and the only requests are
    those of a sign-up (none when a user is signed in); if the limiter
    admits, the answer is a failure with the reasons of the verdict and
    the time of the call has been recorded in the user's comment window;
    if it rejects, the answer is the rate-limit message and the filter
    was not run. *)
Theorem save_admits_then_moderates w env data limit filter' verdict :
  RateLimiter.limits (rateLimiter w) !! "comment" = Some limit →
  ContentFilter.filterContent (contentFilter w) (dataText data)
    = (filter', Returned verdict) →
  ContentFilter.isClean verdict = false →
  let w' := (run (handleSaveComment env data) env w).1 in
  let answer := (run (handleSaveComment env data) env w).2 in
  comments (remote w') = comments (remote w)
  ∧ cache (storage w') = cache (storage w)
  ∧ (∃ extra, issued w' = issued w ++ extra ∧ Forall authRequest extra
              ∧ (is_Some (currentUser w) → extra = []))
  ∧ match currentUser w' with
    | None => ∃ e, answer = Returned (Failure e)
                   ∧ rateLimiter w' = rateLimiter w ∧ contentFilter w' = contentFilter w
    | Some user =>
        let kept := filter (RateLimiter.inWindow (now env) (RateLimiter.window limit))
                           (RateLimiter.windowOf (rateLimiter w) (uid user) "comment") in
        (length kept < RateLimiter.max limit
         ∧ answer = Returned (Failure (JSString.join ". " (ContentFilter.violations verdict)))
         ∧ RateLimiter.windowOf (rateLimiter w') (uid user) "comment" = kept ++ [now env]
         ∧ contentFilter w' = filter')
        ∨ (RateLimiter.max limit ≤ length kept
           ∧ answer = Returned (Failure "Rate limit exceeded. Please wait before posting again.")
           ∧ RateLimiter.windowOf (rateLimiter w') (uid user) "comment" = kept
           ∧ contentFilter w' = contentFilter w)
    end.
Proof.
  intros Hl Hfilter Hclean.
  destruct (requireUser_spec env w (net env))
    as (w1 & net1 & o & Hreq & Hrl & Hcf & Hcache & Hcom & _ & (extra & Hiss & Hauth & Hin) & Ho).
  unfold run, handleSaveComment, catch, mbind, M_bind. rewrite Hreq.
  destruct o as [user|e]; simpl.
  - unfold rateLimiterCheck; simpl. rewrite Hrl.
    pose proof (RateLimiterFacts.check_window (rateLimiter w) (uid user) "comment"
                  (now env) limit Hl) as Hcheck.
    destruct (RateLimiter.check (rateLimiter w) (uid user) "comment" (now env))
      as [limiter' admitted].
    simpl in Hcheck. destruct Hcheck as [(Hge & -> & Hw)|(Hlt & -> & Hw)]; simpl.
    + rewrite Ho. repeat split; try done.
      * exists extra. repeat split; try done. intros Hs. by apply Hin.
      * right. by rewrite Hcf.
    + unfold filterContent; simpl. rewrite Hcf, Hfilter; simpl. rewrite Hclean; simpl.
      rewrite Ho. repeat split; try done.
      * exists extra. repeat split; try done. intros Hs. by apply Hin.
      * by left.
  - rewrite Ho. repeat split; try done.
    + exists extra. repeat split; try done. intros Hs. by apply Hin.
    + by exists e.
Qed.

(** C3 at a comment that the content script sends: fifteen times the
    letter a, submitted a second time.  The worker admits it, records
    it and then refuses it for its repeated characters. *)
Lemma save_admits_then_moderates_witness :
  (run (handleSaveComment quiet repeated) quiet signedIn).2
    = Returned (Failure "Excessive repeated characters")
  ∧ issued (run (handleSaveComment quiet repeated) quiet signedIn).1 = [].
Proof.
  assert (ContentFilter.filterContent (contentFilter signedIn) (dataText repeated)
          = ((ContentFilter.filterContent ContentFilter.new ContentFilter.fifteen).1,
             Returned (ContentFilter.mkVerdict false ContentFilter.fifteen
                         ["Excessive repeated characters"] ContentFilter.block)))
    as Hverdict by (by vm_compute).
  pose proof (save_admits_then_moderates signedIn quiet repeated
                (RateLimiter.mkLimit 10 60000) _ _ eq_refl Hverdict eq_refl)
    as (_ & _ & (extra & Hiss & _ & Hno) & _).
  split.
  - by vm_compute.
  - rewrite Hiss, (Hno (mk_is_Some _ _ eq_refl)). done.
Defined.

(** The claim of C3 fails on the write path, at a text that reaches the
    worker.  A user of Hulu submits fifteen times the letter a twice.
    The filter of the content script refuses the first submission and
    keeps [lastIndex = 15] in its first spam pattern; it accepts the
    second, and [saveComment] sends it.  The filter of the worker, which
    is another instance, refuses the text; and yet the call has recorded
    its time in the comment window of the user. *)
Lemma moderation_runs_after_admission :
  let page := Content.showing (Some "12:34") None in
  let first :=
    Content.handleAddComment Content.wholeNumber ContentFilter.new
      (Some Content.hulu) page ContentFilter.fifteen in
  let second :=
    Content.handleAddComment Content.wholeNumber first.1
      (Some Content.hulu) page ContentFilter.fifteen in
  first.2 = Returned (Content.ShowError "Excessive repeated characters")
  ∧ second.2 = Returned (Content.SaveComment ContentFilter.fifteen (Content.ofInt 754))
  ∧ Content.saveComment "hulu_abc" "hulu"
      (Content.SaveComment ContentFilter.fifteen (Content.ofInt 754)) = Some repeated
  ∧ (ContentFilter.filterContent (contentFilter signedIn) (dataText repeated)).2
    = Returned (ContentFilter.mkVerdict false ContentFilter.fifteen
                  ["Excessive repeated characters"] ContentFilter.block)
  ∧ (run (handleSaveComment quiet repeated) quiet signedIn).2
    = Returned (Failure "Excessive repeated characters")
  ∧ RateLimiter.windowOf (rateLimiter signedIn) "alice" "comment" = []
  ∧ RateLimiter.windowOf
      (rateLimiter (run (handleSaveComment quiet repeated) quiet signedIn).1)
      "alice" "comment" = [1000%Z].
Proof. by vm_compute. Qed.

(** *** Likes *)







End BackgroundFacts.

(** ** The matcher *)

Module JSRegExpFacts.
Import JSString JSRegExp.

Section Facts.
Context (Input : list ascii) (IgnoreCase : bool).

Lemma CharacterSetMatcher_step p x y :
  y ∈ CharacterSetMatcher Input p x →
  endIndex y = S (endIndex x) ∧ captures y = captures x.
Proof.
  unfold CharacterSetMatcher. destruct (Input !! endIndex x) as [ch|]; [|by intros ?%elem_of_nil].
  destruct (p ch); [|by intros ?%elem_of_nil]. by intros ->%list_elem_of_singleton.
Qed.

Lemma RepeatMatcher_width m parens w :
  (∀ x y, y ∈ m x → endIndex y ≤ endIndex x + w) →
  ∀ fuel min n x y,
    y ∈ RepeatMatcher m parens fuel min (Some n) x → endIndex y ≤ endIndex x + n * w.
Proof.
  intros Hm. induction fuel as [|fuel IH]; intros min n x y; simpl.
  - destruct n; intros ->%list_elem_of_singleton; lia.
  - destruct n as [|n]; [intros ->%list_elem_of_singleton; lia|].
    assert (∀ y, y ∈ (y' ← m (clearCaptures parens x);
                      if (min =? 0) && (endIndex y' =? endIndex x) then []
                      else RepeatMatcher m parens fuel (pred min) (pred <$> Some (S n)) y') →
                 endIndex y ≤ endIndex x + S n * w) as Hagain.
    { intros z (y' & Hz & Hy')%list_elem_of_bind. apply Hm in Hy'. simpl in Hy'.
      destruct (_ && _); [by apply elem_of_nil in Hz|].
      apply IH in Hz. lia. }
    destruct (0 <? min); [apply Hagain|].
    intros [?| ->%list_elem_of_singleton]%elem_of_app; [by apply Hagain|lia].
Qed.

Lemma width_bound r :
  ∀ b x y, maxWidth r = Some b → y ∈ matches Input IgnoreCase r x →
           endIndex y ≤ endIndex x + b.
Proof.
  induction r as [|c| |inv atoms| | | |r1 IH1 r2 IH2|r1 IH1 r2 IH2|min max r IH|n r IH|n];
    intros b x y Hb; simpl in *.
  - intros ->%list_elem_of_singleton. lia.
  - intros [-> _]%CharacterSetMatcher_step. simplify_eq. lia.
  - intros [-> _]%CharacterSetMatcher_step. simplify_eq. lia.
  - intros [-> _]%CharacterSetMatcher_step. simplify_eq. lia.
  - destruct (_ =? _); [|by intros ?%elem_of_nil]. intros ->%list_elem_of_singleton. lia.
  - destruct (_ =? _); [|by intros ?%elem_of_nil]. intros ->%list_elem_of_singleton. lia.
  - destruct (xorb _ _); [|by intros ?%elem_of_nil]. intros ->%list_elem_of_singleton. lia.
  - destruct (maxWidth r1) as [a|], (maxWidth r2) as [a'|]; simplify_eq/=.
    intros (y' & Hy & Hy')%list_elem_of_bind.
    specialize (IH1 _ _ _ eq_refl Hy'). specialize (IH2 _ _ _ eq_refl Hy). lia.
  - destruct (maxWidth r1) as [a|], (maxWidth r2) as [a'|]; simplify_eq/=.
    intros [Hy|Hy]%elem_of_app;
      [specialize (IH1 _ _ _ eq_refl Hy)|specialize (IH2 _ _ _ eq_refl Hy)]; lia.
  - destruct max as [k|]; [|done]. destruct (maxWidth r) as [a|]; simplify_eq/=.
    apply RepeatMatcher_width. intros x' y'. by apply IH.
  - intros (y' & ->%list_elem_of_singleton & Hy')%list_elem_of_bind. simpl.
    by apply IH.
  - done.
Qed.

(** *** The fuel of [RepeatMatcher] is enough *)

(** A match ends no earlier than it starts, and inside the text. *)
Definition inBounds (m : MState → list MState) : Prop :=
  ∀ x y, y ∈ m x →
    endIndex x ≤ endIndex y ∧ (endIndex x ≤ length Input → endIndex y ≤ length Input).

Lemma bind_ext_elem_of {A B} (f g : A → list B) (l : list A) :
  (∀ y, y ∈ l → f y = g y) → l ≫= f = l ≫= g.
Proof.
  induction l as [|a l IH]; intros Hfg; [done|].
  change ((a :: l) ≫= f) with (f a ++ (l ≫= f)).
  change ((a :: l) ≫= g) with (g a ++ (l ≫= g)).
  rewrite Hfg by left. f_equal. apply IH. intros y Hy. apply Hfg. by right.
Qed.

Lemma RepeatMatcher_inBounds m parens fuel min max :
  inBounds m → inBounds (RepeatMatcher m parens fuel min max).
Proof.
  intros Hm. revert min max. induction fuel as [|fuel IH]; intros min max x y; simpl.
  - destruct max as [[|?]|]; by intros ->%list_elem_of_singleton.
  - assert (∀ y, y ∈ (y' ← m (clearCaptures parens x);
                      if (min =? 0) && (endIndex y' =? endIndex x) then []
                      else RepeatMatcher m parens fuel (pred min) (pred <$> max) y') →
                 endIndex x ≤ endIndex y
                 ∧ (endIndex x ≤ length Input → endIndex y ≤ length Input)) as Hagain.
    { intros z (y' & Hz & Hy')%list_elem_of_bind. apply Hm in Hy'. simpl in Hy'.
      destruct (_ && _); [by apply elem_of_nil in Hz|].
      apply IH in Hz. lia. }
    destruct max as [[|k]|]; [by intros ->%list_elem_of_singleton|..];
      (destruct (0 <? min); [apply Hagain|]);
      by intros [?| ->%list_elem_of_singleton]%elem_of_app; [apply Hagain|].
Qed.

Lemma matches_inBounds r : inBounds (matches Input IgnoreCase r).
Proof.
  induction r as [|c| |inv atoms| | | |r1 IH1 r2 IH2|r1 IH1 r2 IH2|min max r IH|n r IH|n];
    intros x y; simpl.
  - by intros ->%list_elem_of_singleton.
  - unfold CharacterSetMatcher. destruct (Input !! endIndex x) as [ch|] eqn:Hch;
      [|by intros ?%elem_of_nil]. apply lookup_lt_Some in Hch.
    destruct (sameChar _ _ _); [|by intros ?%elem_of_nil].
    intros ->%list_elem_of_singleton; simpl. lia.
  - unfold CharacterSetMatcher. destruct (Input !! endIndex x) as [ch|] eqn:Hch;
      [|by intros ?%elem_of_nil]. apply lookup_lt_Some in Hch.
    destruct (negb _); [|by intros ?%elem_of_nil].
    intros ->%list_elem_of_singleton; simpl. lia.
  - unfold CharacterSetMatcher. destruct (Input !! endIndex x) as [ch|] eqn:Hch;
      [|by intros ?%elem_of_nil]. apply lookup_lt_Some in Hch.
    destruct (xorb _ _); [|by intros ?%elem_of_nil].
    intros ->%list_elem_of_singleton; simpl. lia.
  - destruct (_ =? _); [|by intros ?%elem_of_nil]. by intros ->%list_elem_of_singleton.
  - destruct (_ =? _); [|by intros ?%elem_of_nil]. by intros ->%list_elem_of_singleton.
  - destruct (xorb _ _); [|by intros ?%elem_of_nil]. by intros ->%list_elem_of_singleton.
  - intros (y' & Hy & Hy')%list_elem_of_bind. apply IH1 in Hy'. apply IH2 in Hy. lia.
  - intros [Hy|Hy]%elem_of_app; [by apply IH1|by apply IH2].
  - by apply RepeatMatcher_inBounds.
  - intros (y' & ->%list_elem_of_singleton & Hy')%list_elem_of_bind. simpl. by apply IH.
  - unfold BackreferenceMatcher. destruct (captures x !! n) as [[s e]|];
      [|by intros ->%list_elem_of_singleton].
    destruct (_ && _) eqn:Hc; [|by intros ?%elem_of_nil].
    apply andb_true_iff in Hc as [Hlen%Nat.eqb_eq _].
    rewrite length_take, length_drop in Hlen.
    intros ->%list_elem_of_singleton; simpl. lia.
Qed.

(** Once [fuel] covers [min] and the characters left, more of it changes
    nothing. *)
Lemma RepeatMatcher_fuel m parens :
  inBounds m →
  ∀ fuel min max x,
    endIndex x ≤ length Input →
    min + (length Input - endIndex x) ≤ fuel →
    RepeatMatcher m parens fuel min max x = RepeatMatcher m parens (S fuel) min max x.
Proof.
  intros Hm. induction fuel as [|fuel IH]; intros min max x Hx Hfuel.
  - assert (min = 0) as -> by lia. simpl.
    destruct max as [[|k]|]; [done|..];
      (rewrite (bind_ext_elem_of _ (fun _ => []));
       [by induction (m (clearCaptures parens x))|]);
      intros y Hy%Hm; simpl in Hy;
      (assert (endIndex y = endIndex x) as -> by lia); by rewrite Nat.eqb_refl.
  - change (RepeatMatcher m parens (S (S fuel)) min max x) with
      (match max with
       | Some 0 => [x]
       | _ =>
         let again :=
           y ← m (clearCaptures parens x);
           if (min =? 0) && (endIndex y =? endIndex x) then []
           else RepeatMatcher m parens (S fuel) (pred min) (pred <$> max) y in
         if 0 <? min then again else again ++ [x]
       end).
    change (RepeatMatcher m parens (S fuel) min max x) with
      (match max with
       | Some 0 => [x]
       | _ =>
         let again :=
           y ← m (clearCaptures parens x);
           if (min =? 0) && (endIndex y =? endIndex x) then []
           else RepeatMatcher m parens fuel (pred min) (pred <$> max) y in
         if 0 <? min then again else again ++ [x]
       end).
    assert ((y ← m (clearCaptures parens x);
             if (min =? 0) && (endIndex y =? endIndex x) then []
             else RepeatMatcher m parens fuel (pred min) (pred <$> max) y)
            = (y ← m (clearCaptures parens x);
               if (min =? 0) && (endIndex y =? endIndex x) then []
               else RepeatMatcher m parens (S fuel) (pred min) (pred <$> max) y)) as Heq.
    { apply bind_ext_elem_of. intros y Hy%Hm; simpl in Hy.
      destruct ((min =? 0) && (endIndex y =? endIndex x)) eqn:Hc; [done|].
      apply IH; [lia|]. apply andb_false_iff in Hc as [Hc%Nat.eqb_neq|Hc%Nat.eqb_neq]; lia. }
    destruct max as [[|k]|]; [done|..]; cbv zeta; by rewrite Heq.
Qed.

(** So the fuel that [matches] gives to a quantifier is enough. *)
Lemma Repeat_fuel r min max x more :
  endIndex x ≤ length Input →
  RepeatMatcher (matches Input IgnoreCase r) (groups r)
                (min + (length Input - endIndex x) + more) min max x
  = matches Input IgnoreCase (Repeat min max r) x.
Proof.
  intros Hx. induction more as [|more IH].
  - by rewrite Nat.add_0_r.
  - rewrite Nat.add_succ_r, <- RepeatMatcher_fuel; [exact IH| |done|lia].
    apply matches_inBounds.
Qed.

Lemma narrow_empty b : narrow b ∅.
Proof. intros n s e. by rewrite lookup_empty. Qed.

Lemma narrow_clear b parens x : narrow b (captures x) → narrow b (captures (clearCaptures parens x)).
Proof.
  intros Hx. simpl. induction parens as [|p parens IH]; simpl; [done|].
  intros n s e. destruct (decide (p = n)) as [->|Hne].
  - by rewrite lookup_delete_eq.
  - rewrite lookup_delete_ne by done. apply IH.
Qed.

Lemma RepeatMatcher_narrow b m parens :
  (∀ x y, narrow b (captures x) → y ∈ m x → narrow b (captures y)) →
  ∀ fuel min max x y,
    narrow b (captures x) →
    y ∈ RepeatMatcher m parens fuel min max x → narrow b (captures y).
Proof.
  intros Hm. induction fuel as [|fuel IH]; intros min max x y Hx; simpl.
  - destruct max as [[|?]|]; by intros ->%list_elem_of_singleton.
  - assert (∀ y, y ∈ (y' ← m (clearCaptures parens x);
                      if (min =? 0) && (endIndex y' =? endIndex x) then []
                      else RepeatMatcher m parens fuel (pred min) (pred <$> max) y') →
                 narrow b (captures y)) as Hagain.
    { intros z (y' & Hz & Hy')%list_elem_of_bind.
      apply Hm in Hy'; [|by apply narrow_clear].
      destruct (_ && _); [by apply elem_of_nil in Hz|]. by apply IH in Hz. }
    destruct max as [[|k]|]; [by intros ->%list_elem_of_singleton|..];
      (destruct (0 <? min); [apply Hagain|]);
      by intros [?| ->%list_elem_of_singleton]%elem_of_app; [apply Hagain|].
Qed.

(** A match of a pattern whose groups are narrow leaves narrow captures. *)
Lemma narrow_preserved b r :
  narrowGroups b r = true →
  ∀ x y, narrow b (captures x) → y ∈ matches Input IgnoreCase r x → narrow b (captures y).
Proof.
  induction r as [|c| |inv atoms| | | |r1 IH1 r2 IH2|r1 IH1 r2 IH2|min max r IH|n r IH|n];
    intros Hr x y Hx; simpl in *.
  - by intros ->%list_elem_of_singleton.
  - by intros [_ ->]%CharacterSetMatcher_step.
  - by intros [_ ->]%CharacterSetMatcher_step.
  - by intros [_ ->]%CharacterSetMatcher_step.
  - destruct (_ =? _); [|by intros ?%elem_of_nil]. by intros ->%list_elem_of_singleton.
  - destruct (_ =? _); [|by intros ?%elem_of_nil]. by intros ->%list_elem_of_singleton.
  - destruct (xorb _ _); [|by intros ?%elem_of_nil]. by intros ->%list_elem_of_singleton.
  - apply andb_true_iff in Hr as [Hr1 Hr2].
    intros (y' & Hy & Hy')%list_elem_of_bind. eauto.
  - apply andb_true_iff in Hr as [Hr1 Hr2].
    intros [Hy|Hy]%elem_of_app; eauto.
  - apply RepeatMatcher_narrow; [|done]. intros x' y'. by apply IH.
  - apply andb_true_iff in Hr as [Hw Hr].
    intros (y' & ->%list_elem_of_singleton & Hy')%list_elem_of_bind. simpl.
    destruct (maxWidth r) as [a|] eqn:Ha; [|done]. apply Nat.leb_le in Hw.
    pose proof (width_bound r a x y' Ha Hy') as Hwidth.
    intros k s e. destruct (decide (n = k)) as [->|Hne].
    + rewrite lookup_insert_eq. intros [= <- <-]. lia.
    + rewrite lookup_insert_ne by done. by apply (IH Hr x y').
  - unfold BackreferenceMatcher. destruct (captures x !! n) as [[s e]|].
    + destruct (_ && _); [|by intros ?%elem_of_nil]. by intros ->%list_elem_of_singleton.
    + by intros ->%list_elem_of_singleton.
Qed.

Lemma scan_matches r n i j y :
  scan Input IgnoreCase r n i = Some (j, y) →
  y ∈ matches Input IgnoreCase r (mkMState j ∅).
Proof.
  revert i. induction n as [|n IH]; intros i; simpl; [done|].
  unfold matchAt. destruct (head _) as [y'|] eqn:Hhead.
  - intros [= <- <-]. by apply head_Some_elem_of.
  - apply IH.
Qed.

End Facts.

(** *** The fuel of [replace] is enough *)

Lemma scan_index Input ic r n i j y :
  scan Input ic r n i = Some (j, y) → i ≤ j < i + n.
Proof.
  revert i. induction n as [|n IH]; intros i; simpl; [done|].
  destruct (matchAt Input ic r i) as [y'|].
  - intros [= <- <-]. lia.
  - intros H%IH. lia.
Qed.

(** A match of a global pattern starts at [lastIndex] or later, ends no
    earlier than it starts, and leaves [lastIndex] at its end. *)
Lemma exec_global R txt R' m :
  global R = true →
  exec R txt = (R', Some m) →
  R' = setLastIndex R (mend m) ∧ lastIndex R ≤ index m ≤ mend m.
Proof.
  intros Hg. unfold exec. rewrite Hg.
  destruct (scan _ _ _ _ _) as [[i y]|] eqn:Hscan; [|done].
  intros [= <- <-]. simpl. split; [done|].
  pose proof (scan_index _ _ _ _ _ _ _ Hscan).
  apply scan_matches, matches_inBounds in Hscan. simpl in Hscan. lia.
Qed.

Lemma exec_past_end R txt :
  global R = true → length txt < lastIndex R → (exec R txt).2 = None.
Proof.
  intros Hg Hlast. unfold exec. rewrite Hg.
  by replace (S (length txt) - lastIndex R) with 0 by lia.
Qed.

Lemma replaceLoop_step txt f R n pos :
  replaceLoop txt f R (S n) pos =
  match exec R txt with
  | (R', Some m) =>
      let matched := take (mend m - index m) (drop (index m) txt) in
      let next := if mend m =? index m then S (mend m) else mend m in
      take (index m - pos) (drop pos txt) ++ f matched ++
      replaceLoop txt f (setLastIndex R' next) n (mend m)
  | (_, None) => drop pos txt
  end.
Proof. reflexivity. Qed.

(** Once [n] covers the start positions left, more of it changes
    nothing: the count that [replace] starts with is enough. *)
Lemma replaceLoop_fuel txt f n :
  ∀ R pos,
    global R = true → S (length txt) - lastIndex R ≤ n →
    replaceLoop txt f R n pos = replaceLoop txt f R (S n) pos.
Proof.
  induction n as [|n IH]; intros R pos Hg Hn.
  - rewrite replaceLoop_step.
    pose proof (exec_past_end R txt Hg ltac:(lia)) as Hnone.
    destruct (exec R txt) as [R' [m|]]; [done|]. reflexivity.
  - rewrite (replaceLoop_step txt f R (S n)), (replaceLoop_step txt f R n).
    destruct (exec R txt) as [R' [m|]] eqn:Hexec; [|done].
    destruct (exec_global R txt R' m Hg Hexec) as [-> Hm]. cbv zeta.
    do 2 f_equal. apply IH; [done|]. simpl.
    destruct (Nat.eqb_spec (mend m) (index m)); lia.
Qed.

Lemma replace_fuel txt f R more :
  global R = true →
  replaceLoop txt f (setLastIndex R 0) (S (length txt) + more) 0 = (replace txt R f).2.
Proof.
  intros Hg. induction more as [|more IH].
  - by rewrite Nat.add_0_r.
  - rewrite Nat.add_succ_r, <- replaceLoop_fuel; [exact IH|done|simpl; lia].
Qed.

(** The groups of the first match of a pattern with narrow groups are
    narrow. *)
Lemma smatch_narrow b txt R m :
  narrowGroups b (source R) = true →
  smatch txt R = Some m → narrow b (groupsOf m).
Proof.
  intros Hr. unfold smatch, exec. cbn [global ignoreCase source lastIndex].
  destruct (scan _ _ _ _ _) as [[i y]|] eqn:Hscan; cbn [snd]; [|done].
  intros [= <-]; cbn [groupsOf].
  apply scan_matches in Hscan.
  eapply narrow_preserved; [exact Hr| |exact Hscan]. apply narrow_empty.
Qed.

(** A group of such a match is a text of at most [b] characters. *)
Lemma group_length b txt m n g :
  narrow b (groupsOf m) → group txt m n = Some g → length g ≤ b.
Proof.
  intros Hm. unfold group.
  destruct (groupsOf m !! n) as [[s e]|] eqn:Hn; [|done]. simpl.
  intros [= <-]. rewrite length_take. specialize (Hm _ _ _ Hn). lia.
Qed.

(** *** Widths fixed by the syntax, and the length of a replaced text *)

Lemma exact_width Input ic r :
  ∀ n x y, exactWidth r = Some n → y ∈ matches Input ic r x →
           endIndex y = endIndex x + n.
Proof.
  induction r as [|c| |inv atoms| | | |r1 IH1 r2 IH2|r1 IH1 r2 IH2|min max r IH|k r IH|k];
    intros n x y Hn; simpl in *; try done.
  - intros ->%list_elem_of_singleton. simplify_eq. lia.
  - intros [-> _]%CharacterSetMatcher_step. simplify_eq. lia.
  - intros [-> _]%CharacterSetMatcher_step. simplify_eq. lia.
  - intros [-> _]%CharacterSetMatcher_step. simplify_eq. lia.
  - destruct (_ =? _); [|by intros ?%elem_of_nil].
    intros ->%list_elem_of_singleton. simplify_eq. lia.
  - destruct (_ =? _); [|by intros ?%elem_of_nil].
    intros ->%list_elem_of_singleton. simplify_eq. lia.
  - destruct (xorb _ _); [|by intros ?%elem_of_nil].
    intros ->%list_elem_of_singleton. simplify_eq. lia.
  - destruct (exactWidth r1) as [a|], (exactWidth r2) as [b|]; simplify_eq/=.
    intros (y' & Hy & Hy')%list_elem_of_bind.
    rewrite (IH2 _ _ _ eq_refl Hy), (IH1 _ _ _ eq_refl Hy'). lia.
  - intros (y' & ->%list_elem_of_singleton & Hy')%list_elem_of_bind. simpl.
    by apply IH.
Qed.

(** A match of a global pattern, in full: where it lies and which match
    of the matcher it is. *)
Lemma exec_global_match R txt R' m :
  global R = true →
  exec R txt = (R', Some m) →
  R' = setLastIndex R (mend m)
  ∧ lastIndex R ≤ index m ≤ mend m ∧ mend m ≤ length txt
  ∧ ∃ y, y ∈ matches txt (ignoreCase R) (source R) (mkMState (index m) ∅)
         ∧ endIndex y = mend m.
Proof.
  intros Hg Hexec. destruct (exec_global R txt R' m Hg Hexec) as [-> Hm].
  split; [done|]. split; [done|].
  unfold exec in Hexec. rewrite Hg in Hexec.
  destruct (scan _ _ _ _ _) as [[i y]|] eqn:Hscan; [|done].
  injection Hexec as _ <-. simpl in *.
  pose proof (scan_index _ _ _ _ _ _ _ Hscan) as Hi.
  apply scan_matches in Hscan. pose proof (matches_inBounds _ _ _ _ _ Hscan) as Hb.
  simpl in Hb. split; [lia|]. by exists y.
Qed.

(** When every match is replaced by a text of its own length, the
    result is as long as the rest of the text. *)
Lemma replaceLoop_length txt f n :
  ∀ R pos,
    global R = true →
    (∀ i y, i ≤ length txt →
            y ∈ matches txt (ignoreCase R) (source R) (mkMState i ∅) →
            length (f (take (endIndex y - i) (drop i txt))) = endIndex y - i) →
    pos ≤ lastIndex R → pos ≤ length txt →
    length (replaceLoop txt f R n pos) = length txt - pos.
Proof.
  induction n as [|n IH]; intros R pos Hg Hf Hpos Hlen.
  - simpl. by rewrite length_drop.
  - rewrite replaceLoop_step.
    destruct (exec R txt) as [R' [m|]] eqn:Hexec; [|by rewrite length_drop].
    destruct (exec_global_match R txt R' m Hg Hexec) as (-> & Hm & Hend & y & Hy & Hye).
    cbv zeta. rewrite !length_app, length_take, length_drop.
    rewrite <- Hye. rewrite (Hf (index m) y) by (done || lia). rewrite IH; simpl; try done.
    + lia.
    + rewrite Hye. destruct (Nat.eqb_spec (mend m) (index m)); lia.
    + lia.
Qed.

Lemma replace_length txt R f :
  global R = true →
  (∀ i y, i ≤ length txt →
          y ∈ matches txt (ignoreCase R) (source R) (mkMState i ∅) →
          length (f (take (endIndex y - i) (drop i txt))) = endIndex y - i) →
  length (replace txt R f).2 = length txt.
Proof.
  intros Hg Hf. unfold replace. cbn [snd].
  rewrite replaceLoop_length; simpl; [lia|done|done|lia|lia].
Qed.

(** What [test] leaves in a global pattern. *)
Lemma test_global R txt :
  global R = true →
  ∃ k, (test R txt).1 = setLastIndex R k ∧ ((test R txt).2 = false → k = 0).
Proof.
  intros Hg. unfold test, exec. rewrite Hg.
  destruct (scan _ _ _ _ _) as [[i y]|]; simpl; eexists; split; done.
Qed.

(** A pattern that matches nowhere from a position matches nowhere from
    a later one. *)
Lemma scan_none_later Input ic r n :
  ∀ i k, scan Input ic r n i = None → scan Input ic r (n - k) (i + k) = None.
Proof.
  induction n as [|n IH]; intros i k; [done|].
  destruct k as [|k].
  - by rewrite Nat.sub_0_r, Nat.add_0_r.
  - simpl. destruct (matchAt _ _ _ _) as [y|]; [done|]. intros H.
    replace (i + S k) with (S i + k) by lia. by apply IH.
Qed.

(** A global pattern that misses the text from the start misses it from
    wherever its [lastIndex] is, and is left at the start. *)
Lemma test_fresh_miss R txt :
  global R = true →
  (test (setLastIndex R 0) txt).2 = false →
  test R txt = (setLastIndex R 0, false).
Proof.
  intros Hg. unfold test, exec. cbn [global ignoreCase source lastIndex setLastIndex].
  rewrite Hg.
  destruct (scan txt (ignoreCase R) (source R) (S (length txt) - 0) 0)
    as [[i y]|] eqn:H0; [done|]. intros _.
  apply (scan_none_later _ _ _ _ _ (lastIndex R)) in H0.
  rewrite Nat.sub_0_r, Nat.add_0_l in H0. by rewrite H0.
Qed.


(** *** What a group of one or more characters of a class captures *)

Lemma RepeatMatcher_chars Input p fuel :
  ∀ min x y,
    min ≤ fuel →
    y ∈ RepeatMatcher (CharacterSetMatcher Input p) [] fuel min None x →
    captures y = captures x
    ∧ endIndex x + min ≤ endIndex y
    ∧ ∀ i, endIndex x ≤ i < endIndex y → ∃ c, Input !! i = Some c ∧ p c = true.
Proof.
  induction fuel as [|fuel IH]; intros min x y Hmin.
  - simpl. intros ->%list_elem_of_singleton. split; [done|]. split; [lia|]. intros; lia.
  - cbn [RepeatMatcher].
    assert (∀ z, z ∈ (y' ← CharacterSetMatcher Input p (clearCaptures [] x);
                      if (min =? 0) && (endIndex y' =? endIndex x) then []
                      else RepeatMatcher (CharacterSetMatcher Input p) [] fuel (pred min)
                                         (pred <$> None) y') →
              captures z = captures x
              ∧ endIndex x + min ≤ endIndex z
              ∧ ∀ i, endIndex x ≤ i < endIndex z →
                     ∃ c, Input !! i = Some c ∧ p c = true) as Hagain.
    { intros z (y' & Hz & Hy')%list_elem_of_bind.
      unfold CharacterSetMatcher in Hy'. cbn [clearCaptures endIndex captures foldr] in Hy'.
      destruct (Input !! endIndex x) as [ch|] eqn:Hch; [|by apply elem_of_nil in Hy'].
      destruct (p ch) eqn:Hp; [|by apply elem_of_nil in Hy'].
      apply list_elem_of_singleton in Hy' as ->. cbn [endIndex] in Hz.
      destruct ((min =? 0) && (S (endIndex x) =? endIndex x));
        [by apply elem_of_nil in Hz|].
      apply IH in Hz as (Hc & He & Hd); [|lia]. cbn [endIndex captures] in *.
      split; [done|]. split; [lia|]. intros i Hi.
      destruct (decide (i = endIndex x)) as [->|]; [by eexists|apply Hd; lia]. }
    destruct (Nat.ltb_spec 0 min); [apply Hagain|].
    intros [?| ->%list_elem_of_singleton]%elem_of_app; [by apply Hagain|].
    split; [done|]. split; [lia|]. intros; lia.
Qed.

Lemma Group_plus_class Input ic n invert atoms x y :
  y ∈ matches Input ic (Group n (Repeat 1 None (Class invert atoms))) x →
  captures y !! n = Some (endIndex x, endIndex y)
  ∧ endIndex x < endIndex y
  ∧ ∀ i, endIndex x ≤ i < endIndex y →
         ∃ c, Input !! i = Some c ∧ xorb invert (existsb (atomMatches ic c) atoms) = true.
Proof.
  cbn [matches groups]. intros (y' & ->%list_elem_of_singleton & Hy')%list_elem_of_bind.
  apply RepeatMatcher_chars in Hy' as (Hc & He & Hd); [|lia].
  cbn [endIndex captures]. rewrite lookup_insert_eq. split; [done|]. split; [lia|done].
Qed.

(** The text of a group whose characters all pass [p]. *)
Lemma group_chars (p : ascii → bool) txt m n s e g :
  groupsOf m !! n = Some (s, e) →
  s < e →
  (∀ i, s ≤ i < e → ∃ c, txt !! i = Some c ∧ p c = true) →
  group txt m n = Some g →
  g ≠ [] ∧ Forall (fun c => p c = true) g.
Proof.
  intros Hn Hlt Hp. unfold group. rewrite Hn. simpl. intros [= <-]. split.
  - destruct (Hp s ltac:(lia)) as (c & Hc & _).
    intros Hnil. apply (f_equal length) in Hnil. rewrite length_take, length_drop in Hnil.
    apply lookup_lt_Some in Hc. simpl in Hnil. lia.
  - apply Forall_lookup. intros k c Hk.
    apply lookup_take_Some in Hk as [Hk Hlt']. rewrite lookup_drop in Hk.
    destruct (Hp (s + k) ltac:(lia)) as (c' & Hc' & Hpc). congruence.
Qed.

(** The first match of a pattern that is a prefix followed by a group
    of one or more characters of a class. *)
Lemma smatch_prefix_group txt R m pre n invert atoms :
  source R = Seq pre (Seq (Group n (Repeat 1 None (Class invert atoms))) Empty) →
  smatch txt R = Some m →
  ∃ g, group txt m n = Some g
    ∧ g ≠ []
    ∧ Forall (fun c => xorb invert (existsb (atomMatches (ignoreCase R) c) atoms) = true) g.
Proof.
  intros Hsrc. unfold smatch, exec. cbn [global ignoreCase source lastIndex].
  destruct (scan _ _ _ _ _) as [[i y]|] eqn:Hscan; cbn [snd]; [|done].
  intros [= <-]. apply scan_matches in Hscan. rewrite Hsrc in Hscan.
  cbn [matches] in Hscan. apply list_elem_of_bind in Hscan as (y1 & Hy & Hy1).
  apply list_elem_of_bind in Hy as (y2 & <-%list_elem_of_singleton & Hy2).
  apply (Group_plus_class txt (ignoreCase R) n invert atoms y1 y) in Hy2
    as (Hcap & Hlt & Hchars).
  destruct (group txt (mkMatch i (endIndex y) (captures y)) n) as [g|] eqn:Hg.
  - exists g. split; [done|].
    by apply (group_chars _ txt (mkMatch i (endIndex y) (captures y)) n
                (endIndex y1) (endIndex y) g Hcap Hlt Hchars).
  - unfold group in Hg. cbn [groupsOf] in Hg. by rewrite Hcap in Hg.
Qed.

End JSRegExpFacts.

(** ** More on the moderation engine *)

Module ModerationFacts.
Import JSString JSRegExp JSRegExpFacts ContentFilter.

Lemma length_chars s : length (chars s) = String.length s.
Proof. induction s as [|c s IH]; simpl; [done|]. by rewrite IH. Qed.

Lemma length_str l : String.length (str l) = length l.
Proof. induction l as [|c l IH]; simpl; [done|]. by rewrite IH. Qed.

Lemma global_rewind R : global (rewind R) = global R.
Proof. done. Qed.

(** What being constructed says of the fields. *)
Lemma constructed_fields this :
  constructed this →
  profanityList this = profanityList new
  ∧ Forall (fun R => global R = true) (patterns this)
  ∧ Forall (fun R => global R = true) (spamPatterns this)
  ∧ length (spamPatterns this) = 4.
Proof.
  unfold constructed, rules. intros H.
  assert (profanityList this = profanityList new) as H1 by (by rewrite <- H).
  assert (rewind <$> patterns this = patterns new) as H2 by (by rewrite <- H).
  assert (rewind <$> spamPatterns this = spamPatterns new) as H3 by (by rewrite <- H).
  split; [done|]. split; [|split].
  - assert (Forall (fun R => global R = true) (rewind <$> patterns this)) as Hg
      by (rewrite H2; repeat constructor).
    by rewrite Forall_fmap in Hg.
  - assert (Forall (fun R => global R = true) (rewind <$> spamPatterns this)) as Hg
      by (rewrite H3; repeat constructor).
    by rewrite Forall_fmap in Hg.
  - by rewrite <- (length_fmap rewind), H3.
Qed.

(** *** The state the patterns are left in *)

Lemma checkPatterns_rewound text ps res :
  Forall (fun R => global R = true) ps →
  (checkPatterns text ps res).1 = rewind <$> ps.
Proof.
  intros Hps. revert res. induction Hps as [|R ps Hg _ IH]; intros res; [done|].
  cbn [checkPatterns]. destruct (test_global R text Hg) as (k & Hk & Hmiss).
  destruct (test R text) as [R1 hit]. simpl in Hk, Hmiss. subst R1.
  destruct hit.
  - unfold replace.
    specialize (IH {| pClean := false;
                      pViolations := pViolations res ++ ["Inappropriate language detected"];
                      pFiltered := replaceLoop text (fun m => stars (length m))
                                     (setLastIndex (setLastIndex R k) 0)
                                     (S (length text)) 0 |}).
    destruct (checkPatterns text ps _) as [ps' res']. simpl in *. by rewrite IH.
  - rewrite (Hmiss eq_refl). specialize (IH res).
    destruct (checkPatterns text ps res) as [ps' res']. simpl in *. by rewrite IH.
Qed.

Lemma checkSpamFrom_rewound text ps :
  Forall (fun R => global R = true) ps →
  ∀ i res,
    rewind <$> (checkSpamFrom text i ps res).1 = rewind <$> ps
    ∧ ((checkSpamFrom text i ps res).2.1 = true →
       (checkSpamFrom text i ps res).1 = rewind <$> ps ∧ res.1 = true).
Proof.
  induction 1 as [|R ps Hg _ IH]; intros i res; [done|].
  cbn [checkSpamFrom]. destruct (test_global R text Hg) as (k & Hk & Hmiss).
  destruct (test R text) as [R1 hit]. simpl in Hk, Hmiss. subst R1.
  specialize (IH (S i) (if hit then (false, res.2 ++ spamReason i) else res)).
  destruct (checkSpamFrom text (S i) ps _) as [ps' res']. cbn [fst snd] in *.
  destruct IH as [IH1 IH2]. split; [by rewrite !fmap_cons, IH1|].
  intros Hclean. destruct (IH2 Hclean) as [-> Hres]. destruct hit; [done|].
  by rewrite (Hmiss eq_refl).
Qed.

(** *** What the lists of reasons hold *)

Lemma sound_hit res s filtered :
  sound res → ¬ lengthReason s →
  sound {| pClean := false; pViolations := pViolations res ++ [s]; pFiltered := filtered |}.
Proof.
  intros [_ Hres] Hs. split; simpl.
  - split; [done|]. by intros [_ [=]]%app_eq_nil.
  - apply Forall_app. split; [done|]. by constructor.
Qed.

Lemma checkWords_sound lowerText words res res' :
  sound res → checkWords lowerText words res = Returned res' → sound res'.
Proof.
  revert res. induction words as [|word words IH]; intros res Hres; simpl.
  - by intros [= <-].
  - unfold checkWord. destruct (includes lowerText (chars word)); [|by apply IH].
    destruct (parsePattern (chars word)) as [r| |]; [|done..].
    apply IH. apply sound_hit; [done|]. unfold lengthReason. simpl. by intros [[=]|[=]].
Qed.

Lemma checkPatterns_sound text ps res :
  sound res → sound (checkPatterns text ps res).2.
Proof.
  revert res. induction ps as [|R ps IH]; intros res Hres; [done|].
  cbn [checkPatterns]. destruct (test R text) as [R1 hit].
  destruct hit.
  - destruct (replace text R1 _) as [R2 filtered].
    specialize (IH {| pClean := false;
                      pViolations := pViolations res ++ ["Inappropriate language detected"];
                      pFiltered := filtered |}).
    destruct (checkPatterns text ps _) as [ps' res']. simpl in *.
    apply IH, sound_hit; [done|]. unfold lengthReason. by intros [[=]|[=]].
  - specialize (IH res Hres). by destruct (checkPatterns text ps res) as [ps' res'].
Qed.

Lemma spamReason_sound i :
  i < 4 → spamReason i ≠ [] ∧ Forall (fun s => ¬ lengthReason s) (spamReason i).
Proof.
  intros Hi. destruct i as [|[|[|[|i]]]]; [..|lia]; simpl;
    (split; [done|]); repeat constructor; unfold lengthReason; by intros [[=]|[=]].
Qed.

Lemma checkSpamFrom_sound text ps :
  ∀ i res,
    i + length ps ≤ 4 →
    (res.1 = true ↔ res.2 = []) → Forall (fun s => ¬ lengthReason s) res.2 →
    ((checkSpamFrom text i ps res).2.1 = true ↔ (checkSpamFrom text i ps res).2.2 = [])
    ∧ Forall (fun s => ¬ lengthReason s) (checkSpamFrom text i ps res).2.2.
Proof.
  induction ps as [|R ps IH]; intros i res Hi Hres Hreasons; [done|].
  cbn [checkSpamFrom]. destruct (test R text) as [R1 hit].
  specialize (IH (S i) (if hit then (false, res.2 ++ spamReason i) else res)).
  destruct (checkSpamFrom text (S i) ps _) as [ps' res']. simpl in *.
  apply IH; [lia|..]; destruct hit; simpl; try done.
  - destruct (spamReason_sound i ltac:(lia)) as [Hne _].
    split; [done|]. by intros [_ ?]%app_eq_nil.
  - destruct (spamReason_sound i ltac:(lia)) as [_ Hs]. by apply Forall_app.
Qed.

(** *** A returning call, taken apart *)

Lemma filterContent_returned this text this' v :
  filterContent this text = (this', Returned v) →
  ∃ res0,
    checkWords (toLowerCase (chars text)) (profanityList this)
               (mkProfanity true (chars text) []) = Returned res0
    ∧ this' = mkFilter (profanityList this)
                (checkPatterns (chars text) (patterns this) res0).1
                (checkSpamFrom (chars text) 0 (spamPatterns this) (true, [])).1
    ∧ v = assemble text (checkPatterns (chars text) (patterns this) res0).2
                   (checkSpamFrom (chars text) 0 (spamPatterns this) (true, [])).2.
Proof.
  unfold filterContent, checkProfanity, checkSpam, assemble.
  destruct (checkWords _ _ _) as [res0|e]; [|done].
  intros H. exists res0. split; [done|]. revert H.
  destruct (checkPatterns (chars text) (patterns this) res0) as [ps' res1].
  cbn [spamPatterns withPatterns].
  destruct (checkSpamFrom (chars text) 0 (spamPatterns this) (true, [])) as [sps' spam].
  cbn [fst snd]. by intros [= <- <-].
Qed.


Lemma assemble_isClean text p spam :
  isClean (assemble text p spam)
  = pClean p && spam.1 && negb (500 <? length (chars text))
    && negb (length (trim (chars text)) <? 2).
Proof.
  unfold assemble.
  by destruct (pClean p), spam.1, (500 <? _), (length (trim _) <? 2).
Qed.

Lemma assemble_violations text p spam :
  violations (assemble text p spam)
  = (if pClean p then [] else pViolations p)
    ++ (if spam.1 then [] else spam.2)
    ++ (if 500 <? length (chars text) then ["Text too long (max 500 characters)"] else [])
    ++ (if length (trim (chars text)) <? 2 then ["Text too short"] else []).
Proof.
  unfold assemble.
  destruct (pClean p), spam.1, (500 <? _), (length (trim _) <? 2); simpl;
    by rewrite ?app_nil_r, <- ?app_assoc.
Qed.

Lemma assemble_action text p spam :
  action (assemble text p spam)
  = if isClean (assemble text p spam) then allow else block.
Proof.
  unfold assemble.
  by destruct (pClean p), spam.1, (500 <? _), (length (trim _) <? 2).
Qed.

Lemma assemble_filteredText text p spam :
  filteredText (assemble text p spam)
  = if pClean p then text else str (pFiltered p).
Proof.
  unfold assemble.
  by destruct (pClean p), spam.1, (500 <? _), (length (trim _) <? 2).
Qed.

Lemma sound_start text : sound (mkProfanity true text []).
Proof. split; [done|]. simpl. constructor. Qed.

(** What a returning call of a constructed engine has computed. *)
Lemma filterContent_sound this text this' v :
  constructed this →
  filterContent this text = (this', Returned v) →
  ∃ p spam,
    v = assemble text p spam
    ∧ sound p
    ∧ (spam.1 = true ↔ spam.2 = [])
    ∧ Forall (fun s => ¬ lengthReason s) spam.2.
Proof.
  intros (_ & _ & _ & Hlen)%constructed_fields
         (res0 & Hwords & _ & ->)%filterContent_returned.
  eexists _, _. split; [done|]. split.
  - apply checkPatterns_sound. eapply checkWords_sound; [|done]. apply sound_start.
  - apply checkSpamFrom_sound; simpl; [lia|done|constructor].
Qed.

(** X3: a verdict is coherent.  Whenever an engine made by the
    constructor returns a verdict, the verdict is clean exactly when it
    lists no violation and exactly when its action is allow; the action
    is never warn; and a clean verdict carries the text unchanged. *)
Theorem verdict_is_coherent this text this' v :
  constructed this →
  filterContent this text = (this', Returned v) →
  (isClean v = true ↔ violations v = [])
  ∧ (isClean v = true ↔ action v = allow)
  ∧ (isClean v = false ↔ action v = block)
  ∧ (isClean v = true → filteredText v = text).
Proof.
  intros Hthis Hv.
  destruct (filterContent_sound _ _ _ _ Hthis Hv) as (p & spam & -> & [Hp _] & Hspam & _).
  rewrite assemble_action, assemble_filteredText, assemble_violations, assemble_isClean.
  rewrite !app_nil.
  destruct (pClean p), spam.1, (500 <? _), (length (trim _) <? 2); simpl;
    intuition congruence.
Qed.

Lemma verdict_is_coherent_witness :
  let v := mkVerdict false "a" ["Text too short"] block in
  (isClean v = true ↔ violations v = [])
  ∧ (isClean v = true ↔ action v = allow)
  ∧ (isClean v = false ↔ action v = block)
  ∧ (isClean v = true → filteredText v = "a").
Proof.
  apply (verdict_is_coherent new "a" new); [reflexivity|]. by vm_compute.
Defined.

(** X4: the two length reasons appear exactly when a bound is crossed.
    In a verdict of an engine made by the constructor on a text of
    characters below 128, the reason for a long text is listed exactly
    when the text has more than 500 characters, and the reason for a
    short text exactly when the trimmed text has fewer than 2: no word or
    pattern can produce either. *)
Theorem length_reasons_are_exact this text this' v :
  isASCII text = true →
  constructed this →
  filterContent this text = (this', Returned v) →
  ("Text too long (max 500 characters)" ∈ violations v ↔ 500 < String.length text)
  ∧ ("Text too short" ∈ violations v ↔ length (trim (chars text)) < 2).
Proof.
  intros _ Hthis Hv.
  destruct (filterContent_sound _ _ _ _ Hthis Hv) as (p & spam & -> & [_ Hp] & _ & Hspam).
  rewrite assemble_violations, <- length_chars.
  assert (∀ s, lengthReason s → s ∈ (if pClean p then [] else pViolations p) → False) as H1.
  { intros s Hs Hin. destruct (pClean p); [by apply elem_of_nil in Hin|].
    by apply (proj1 (Forall_forall _ _) Hp s). }
  assert (∀ s, lengthReason s → s ∈ (if spam.1 then [] else spam.2) → False) as H2.
  { intros s Hs Hin. destruct spam.1; [by apply elem_of_nil in Hin|].
    by apply (proj1 (Forall_forall _ _) Hspam s). }
  specialize (H1 "Text too long (max 500 characters)" (or_introl eq_refl)) as H1l.
  specialize (H1 "Text too short" (or_intror eq_refl)) as H1s.
  specialize (H2 "Text too long (max 500 characters)" (or_introl eq_refl)) as H2l.
  specialize (H2 "Text too short" (or_intror eq_refl)) as H2s.
  rewrite !elem_of_app.
  destruct (Nat.ltb_spec 500 (length (chars text))),
           (Nat.ltb_spec (length (trim (chars text))) 2);
    rewrite ?list_elem_of_singleton, ?elem_of_nil; split; split;
    try tauto; try lia; intros; try lia; try (intuition discriminate).
Qed.

Lemma length_reasons_are_exact_witness :
  let v := mkVerdict false "a" ["Text too short"] block in
  ("Text too long (max 500 characters)" ∈ violations v ↔ 500 < String.length "a")
  ∧ ("Text too short" ∈ violations v ↔ length (trim (chars "a")) < 2).
Proof.
  apply (length_reasons_are_exact new "a" new); [reflexivity|reflexivity|].
  by vm_compute.
Defined.

(** *** The length of the redacted text *)

Lemma length_stars n : length (stars n) = n.
Proof. apply length_replicate. Qed.

(** Every word of the list that is a pattern matches texts of its own
    length only. *)
Lemma profanityList_widths :
  Forall (fun word => ∀ r, parsePattern (chars word) = Pattern r →
                           exactWidth r = Some (String.length word))
         (profanityList new).
Proof.
  repeat (apply Forall_cons; split;
          [intros r Hr; vm_compute in Hr;
           first [discriminate Hr | by injection Hr as <-]|]).
  apply Forall_nil_2.
Qed.

Lemma checkWords_length lowerText words n :
  Forall (fun word => ∀ r, parsePattern (chars word) = Pattern r →
                           exactWidth r = Some (String.length word)) words →
  ∀ res res',
    length (pFiltered res) = n →
    checkWords lowerText words res = Returned res' →
    length (pFiltered res') = n.
Proof.
  induction 1 as [|word words Hword _ IH]; intros res res' Hres; simpl.
  - by intros [= <-].
  - unfold checkWord. destruct (includes lowerText (chars word)); [|by apply IH].
    destruct (parsePattern (chars word)) as [r| |]; [|done..].
    apply IH. cbn [pFiltered]. rewrite replace_length; [done|done|].
    intros i y _ Hy. rewrite length_stars.
    apply (exact_width _ _ _ _ _ _ (Hword r eq_refl)) in Hy. simpl in *. lia.
Qed.

Lemma checkPatterns_length text ps :
  Forall (fun R => global R = true) ps →
  ∀ res,
    length (pFiltered res) = length text →
    length (pFiltered (checkPatterns text ps res).2) = length text.
Proof.
  induction 1 as [|R ps Hg _ IH]; intros res Hres; [done|].
  cbn [checkPatterns]. destruct (test_global R text Hg) as (k & Hk & _).
  destruct (test R text) as [R1 hit]. simpl in Hk. subst R1.
  assert (length (replace text (setLastIndex R k) (fun m => stars (length m))).2
          = length text) as Hlen.
  { apply replace_length; [done|]. intros i y Hi Hy.
    rewrite length_stars, length_take, length_drop.
    apply matches_inBounds in Hy. simpl in Hy. lia. }
  destruct (replace text (setLastIndex R k) _) as [R2 filtered]. simpl in Hlen.
  specialize (IH (if hit
                  then {| pClean := false;
                          pViolations := pViolations res ++ ["Inappropriate language detected"];
                          pFiltered := filtered |}
                  else res)).
  destruct hit.
  - destruct (checkPatterns text ps _) as [ps' res']. by apply IH.
  - destruct (checkPatterns text ps _) as [ps' res']. by apply IH.
Qed.

(** X5: redaction keeps the length of the text.  The filtered text of
    every verdict of an engine made by the constructor on a text of
    characters below 128 has as many characters as the text that was
    checked: each word is replaced by as
    many stars as it has letters, and each match of a pattern by as many
    stars as it is long. *)
Theorem redaction_keeps_length this text this' v :
  isASCII text = true →
  constructed this →
  filterContent this text = (this', Returned v) →
  String.length (filteredText v) = String.length text.
Proof.
  intros _ (Hwords & Hps & _)%constructed_fields
         (res0 & Hres0 & _ & ->)%filterContent_returned.
  rewrite assemble_filteredText. destruct (pClean _); [done|].
  rewrite length_str, <- length_chars. apply checkPatterns_length; [done|].
  rewrite Hwords in Hres0.
  exact (checkWords_length _ _ _ profanityList_widths _ _ eq_refl Hres0).
Qed.

Lemma redaction_keeps_length_witness :
  String.length "what a ****" = String.length "what a crap".
Proof.
  apply (redaction_keeps_length new "what a crap" new
           (mkVerdict false "what a ****" ["Inappropriate language: crap"] block));
    [reflexivity|reflexivity|]. by vm_compute.
Defined.


(** *** The state a call leaves behind *)

Lemma rewind_rewind (ps : list RegExp) : rewind <$> (rewind <$> ps) = rewind <$> ps.
Proof. rewrite <- list_fmap_compose. by apply list_fmap_ext. Qed.

(** What a call leaves of the engine. *)
Lemma filterContent_keeps_rules this text :
  constructed this →
  constructed (filterContent this text).1
  ∧ (∀ v, (filterContent this text).2 = Returned v →
          patterns (filterContent this text).1 = patterns new
          ∧ (isClean v = true → (filterContent this text).1 = new)).
Proof.
  intros Hthis. pose proof Hthis as (_ & Hps & Hsps & _)%constructed_fields.
  destruct (filterContent this text) as [this' [v|e]] eqn:Hcall; cbn [fst snd].
  - apply filterContent_returned in Hcall as (res0 & _ & -> & ->).
    rewrite (checkPatterns_rewound _ _ _ Hps).
    destruct (checkSpamFrom_rewound (chars text) _ Hsps 0 (true, [])) as [Hsp Hclean].
    split; [|intros ? [= <-]; split].
    + unfold constructed, rules in *. simpl. by rewrite rewind_rewind, Hsp.
    + by rewrite <- Hthis.
    + rewrite assemble_isClean. intros Hv.
      destruct (checkSpamFrom _ _ _ _).2.1; [|by rewrite andb_false_r in Hv].
      destruct (Hclean eq_refl) as [-> _]. by rewrite <- Hthis.
  - split; [|done]. revert Hcall. unfold filterContent, checkProfanity.
    destruct (checkWords _ _ _) as [res0|e']; [|by intros [= <- _]].
    destruct (checkPatterns _ _ _) as [ps' res1].
    by destruct (checkSpam _ _) as [this2 spam].
Qed.

(** X6: the engine keeps its rules, and a clean verdict resets it.  A
    call on an engine made by the constructor, whether it returns or
    throws, leaves an engine made by the constructor: the word list and
    the patterns are never changed, only [lastIndex] moves.  The
    profanity patterns are always left at the start of the text, and
    after a clean verdict so are the spam patterns: the engine is as
    new. *)
Theorem engine_keeps_its_rules this text :
  constructed this →
  constructed (filterContent this text).1
  ∧ (∀ v, (filterContent this text).2 = Returned v →
          patterns (filterContent this text).1 = patterns new
          ∧ (isClean v = true → (filterContent this text).1 = new)).
Proof. exact (filterContent_keeps_rules this text). Qed.

Lemma engine_keeps_its_rules_witness :
  let stale := (filterContent new fifteen).1 in
  constructed (filterContent stale "hello").1
  ∧ (∀ v, (filterContent stale "hello").2 = Returned v →
          patterns (filterContent stale "hello").1 = patterns new
          ∧ (isClean v = true → (filterContent stale "hello").1 = new)).
Proof.
  apply (engine_keeps_its_rules (filterContent new fifteen).1 "hello"). by vm_compute.
Defined.

(** *** A text that a new engine accepts *)

Lemma checkPatterns_blocked text ps res :
  pClean res = false → pClean (checkPatterns text ps res).2 = false.
Proof.
  revert res. induction ps as [|R ps IH]; intros res Hres; [done|].
  cbn [checkPatterns]. destruct (test R text) as [R1 hit].
  destruct (replace text R1 _) as [R2 filtered].
  specialize (IH (if hit
                  then {| pClean := false;
                          pViolations := pViolations res ++ ["Inappropriate language detected"];
                          pFiltered := filtered |}
                  else res)).
  destruct hit; destruct (checkPatterns text ps _) as [ps' res']; by apply IH.
Qed.

Lemma checkPatterns_fresh_clean text ps :
  Forall (fun R => global R = true) ps →
  ∀ res,
    pClean (checkPatterns text (rewind <$> ps) res).2 = true →
    checkPatterns text ps res = (rewind <$> ps, res).
Proof.
  induction 1 as [|R ps Hg _ IH]; intros res; [done|].
  rewrite fmap_cons. cbn [checkPatterns].
  pose proof (test_fresh_miss R text Hg) as Hmiss. fold (rewind R) in Hmiss.
  destruct (test (rewind R) text) as [R1 hit]. destruct hit.
  - destruct (replace text R1 _) as [R2 filtered].
    pose proof (checkPatterns_blocked text (rewind <$> ps)
                  {| pClean := false;
                     pViolations := pViolations res ++ ["Inappropriate language detected"];
                     pFiltered := filtered |} eq_refl) as Hb.
    destruct (checkPatterns text (rewind <$> ps) _) as [ps' res']. simpl in *. congruence.
  - rewrite (Hmiss eq_refl). specialize (IH res).
    destruct (checkPatterns text (rewind <$> ps) res) as [ps' res']. cbn [snd] in *.
    intros Hclean. by rewrite (IH Hclean).
Qed.

Lemma checkSpamFrom_fresh_clean text ps :
  Forall (fun R => global R = true) ps →
  ∀ i res,
    (checkSpamFrom text i (rewind <$> ps) res).2.1 = true →
    checkSpamFrom text i ps res = (rewind <$> ps, res).
Proof.
  induction 1 as [|R ps Hg Hps IH]; intros i res; [done|].
  assert (Forall (fun R => global R = true) (rewind <$> ps)) as Hgs
    by (apply Forall_fmap; exact Hps).
  rewrite fmap_cons. cbn [checkSpamFrom].
  pose proof (test_fresh_miss R text Hg) as Hmiss. fold (rewind R) in Hmiss.
  destruct (test (rewind R) text) as [R1 hit]. destruct hit.
  - destruct (checkSpamFrom_rewound text _ Hgs (S i) (false, res.2 ++ spamReason i))
      as [_ Hb].
    destruct (checkSpamFrom text (S i) (rewind <$> ps) _) as [ps' res']. cbn [snd] in *.
    intros Hclean. by destruct (Hb Hclean) as [_ ?].
  - rewrite (Hmiss eq_refl). specialize (IH (S i) res).
    destruct (checkSpamFrom text (S i) (rewind <$> ps) res) as [ps' res']. cbn [snd] in *.
    intros Hclean. by rewrite (IH Hclean).
Qed.

(** X7: what a new engine accepts, every engine accepts.  If a new
    engine gives a text a clean verdict, then an engine made by the
    constructor gives the same verdict in whatever state earlier calls
    have left its patterns, and is as new afterwards: the state kept in
    [lastIndex] can make the engine miss a violation, but never report
    one that a new engine would not. *)
Theorem accepted_by_new_is_accepted this text new' v :
  constructed this →
  filterContent new text = (new', Returned v) →
  isClean v = true →
  filterContent this text = (new, Returned v).
Proof.
  intros Hthis Hnew Hv.
  pose proof Hthis as (Hwords & Hps & Hsps & _)%constructed_fields.
  apply filterContent_returned in Hnew as (res0 & Hres0 & _ & ->).
  rewrite assemble_isClean in Hv. apply andb_prop in Hv as [Hv Hshort].
  apply andb_prop in Hv as [Hv Hlong]. apply andb_prop in Hv as [Hp Hspam].
  assert (patterns new = rewind <$> patterns this) as Hps' by (by rewrite <- Hthis).
  assert (spamPatterns new = rewind <$> spamPatterns this) as Hsps'
    by (by rewrite <- Hthis).
  rewrite Hps' in Hp |- *. rewrite Hsps' in Hspam |- *.
  pose proof (checkPatterns_fresh_clean _ _ Hps _ Hp) as Hcp.
  pose proof (checkSpamFrom_fresh_clean _ _ Hsps _ _ Hspam) as Hcs.
  assert (Forall (fun R => global R = true) (rewind <$> patterns this)) as Hps2
    by (apply Forall_fmap; exact Hps).
  assert (Forall (fun R => global R = true) (rewind <$> spamPatterns this)) as Hsps2
    by (apply Forall_fmap; exact Hsps).
  rewrite (checkPatterns_fresh_clean _ _ Hps2 res0) by (by rewrite rewind_rewind).
  rewrite (checkSpamFrom_fresh_clean _ _ Hsps2 0 (true, [])) by (by rewrite rewind_rewind).
  unfold filterContent, checkProfanity, checkSpam.
  rewrite Hwords, Hres0, Hcp. cbn [withPatterns spamPatterns]. rewrite Hcs.
  cbn [fst snd withSpamPatterns profanityList patterns].
  unfold constructed, rules in Hthis. rewrite <- Hthis. reflexivity.
Qed.

Lemma accepted_by_new_is_accepted_witness :
  let stale := (filterContent new fifteen).1 in
  filterContent stale "nice shot" = (new, Returned (mkVerdict true "nice shot" [] allow)).
Proof.
  apply (accepted_by_new_is_accepted (filterContent new fifteen).1 "nice shot" new);
    by vm_compute.
Defined.

(** *** When the engine throws *)

Lemma checkWords_throws lowerText words :
  ∀ res,
    (∃ e, checkWords lowerText words res = Threw e)
    ↔ Exists (fun word => includes lowerText (chars word) = true
                          ∧ ∀ r, parsePattern (chars word) ≠ Pattern r) words.
Proof.
  induction words as [|word words IH]; intros res; simpl.
  - rewrite Exists_nil. by split; [intros [e ?]|].
  - rewrite Exists_cons. unfold checkWord.
    destruct (includes lowerText (chars word)).
    + destruct (parsePattern (chars word)) as [r| |] eqn:Hr.
      * rewrite IH. split; [by right|]. intros [[_ Hno]|?]; [|done]. by destruct (Hno r).
      * split; [|by eexists]. intros _. by left.
      * split; [|by eexists]. intros _. by left.
    + rewrite IH. split; [by right|]. by intros [[? _]|?].
Qed.

Lemma profanityList_throws lowerText :
  Exists (fun word => includes lowerText (chars word) = true
                      ∧ ∀ r, parsePattern (chars word) ≠ Pattern r) (profanityList new)
  ↔ starred lowerText = true.
Proof.
  unfold starred. split.
  - intros H.
    repeat (apply Exists_cons in H as [[Hinc Hno]|H];
            [first [ by exfalso; eapply Hno; vm_compute
                   | rewrite Hinc; by rewrite ?orb_true_r ]|]).
    by apply Exists_nil in H.
  - intros H.
    do 11 apply Exists_cons_tl.
    apply orb_prop in H as [H|H]; [apply orb_prop in H as [H|H]|].
    + apply Exists_cons_hd. split; [done|]. intros r. by vm_compute.
    + apply Exists_cons_tl, Exists_cons_hd. split; [done|]. intros r. by vm_compute.
    + do 2 apply Exists_cons_tl. apply Exists_cons_hd. split; [done|].
      intros r. by vm_compute.
Qed.

(** X8: when the engine throws.  An engine made by the constructor
    throws exactly on the texts that, in lower case, include one of the
    three words of the list that are written with stars; on every other
    text it returns a verdict.  A call that throws leaves the engine as
    it was. *)
Theorem filterContent_throws_exactly this text :
  constructed this →
  ((∃ e, (filterContent this text).2 = Threw e)
   ↔ starred (toLowerCase (chars text)) = true)
  ∧ (∀ e, (filterContent this text).2 = Threw e → (filterContent this text).1 = this).
Proof.
  intros (Hwords & _)%constructed_fields.
  rewrite <- profanityList_throws, <- Hwords.
  rewrite <- (checkWords_throws _ _ (mkProfanity true (chars text) [])).
  unfold filterContent, checkProfanity.
  destruct (checkWords _ _ _) as [res0|e].
  - destruct (checkPatterns _ _ _) as [ps' res1].
    destruct (checkSpam _ _) as [this2 spam]. simpl.
    split; [|done]. by split; intros [e ?].
  - simpl. split; [|done]. by split; intros _; eexists.
Qed.

Lemma filterContent_throws_exactly_witness :
  ((∃ e, (filterContent new "you R****D").2 = Threw e)
   ↔ starred (toLowerCase (chars "you R****D")) = true)
  ∧ (∀ e, (filterContent new "you R****D").2 = Threw e
          → (filterContent new "you R****D").1 = new).
Proof.
  apply (filterContent_throws_exactly new "you R****D"). reflexivity.
Defined.


(** *** What a clean verdict says of the text *)

Lemma checkWords_clean lowerText words :
  ∀ res res',
    checkWords lowerText words res = Returned res' →
    pClean res' = true →
    pClean res = true ∧ ∀ word, word ∈ words → includes lowerText (chars word) = false.
Proof.
  induction words as [|word words IH]; intros res res'; simpl.
  - intros [= <-] Hclean. split; [done|]. by intros word ?%elem_of_nil.
  - unfold checkWord. destruct (includes lowerText (chars word)) eqn:Hinc.
    + destruct (parsePattern (chars word)) as [r| |]; [|done..].
      intros Hrest Hclean. by destruct (IH _ _ Hrest Hclean) as [? _].
    + intros Hrest Hclean. destruct (IH _ _ Hrest Hclean) as [Hres Hwords].
      split; [done|]. intros w [->|Hw]%elem_of_cons; [done|by apply Hwords].
Qed.

(** What a clean verdict says of the text. *)
Lemma clean_text_passes this text this' v :
  constructed this →
  filterContent this text = (this', Returned v) →
  isClean v = true →
  (∀ word, word ∈ profanityList new →
           includes (toLowerCase (chars text)) (chars word) = false)
  ∧ String.length text ≤ 500
  ∧ 2 ≤ length (trim (chars text)).
Proof.
  intros (Hwords & _)%constructed_fields (res0 & Hres0 & _ & ->)%filterContent_returned.
  rewrite assemble_isClean, <- length_chars. intros Hv.
  apply andb_prop in Hv as [Hv Hshort]. apply andb_prop in Hv as [Hv Hlong].
  apply andb_prop in Hv as [Hp _].
  apply negb_true_iff, Nat.ltb_ge in Hshort. apply negb_true_iff, Nat.ltb_ge in Hlong.
  split; [|done].
  assert (pClean res0 = true) as Hclean0.
  { destruct (pClean res0) eqn:H0; [done|].
    by rewrite (checkPatterns_blocked _ _ _ H0) in Hp. }
  rewrite Hwords in Hres0. by destruct (checkWords_clean _ _ _ _ Hres0 Hclean0).
Qed.

(** X9: a clean verdict means that the text passed the checks that
    keep no state.  When an engine made by the constructor gives a clean
    verdict to a text of characters below 128, the text in lower case
    includes no word of the list, it has at most 500 characters, and at
    least 2 once trimmed; this holds in whatever state earlier calls have
    left the patterns. *)
Theorem clean_text_has_no_listed_word this text this' v :
  isASCII text = true →
  constructed this →
  filterContent this text = (this', Returned v) →
  isClean v = true →
  (∀ word, word ∈ profanityList new →
           includes (toLowerCase (chars text)) (chars word) = false)
  ∧ String.length text ≤ 500
  ∧ 2 ≤ length (trim (chars text)).
Proof. intros _. exact (clean_text_passes this text this' v). Qed.

Lemma clean_text_has_no_listed_word_witness :
  (∀ word, word ∈ profanityList new →
           includes (toLowerCase (chars "Nice shot")) (chars word) = false)
  ∧ String.length "Nice shot" ≤ 500
  ∧ 2 ≤ length (trim (chars "Nice shot")).
Proof.
  apply (clean_text_has_no_listed_word new "Nice shot" new
           (mkVerdict true "Nice shot" [] allow));
    [reflexivity|reflexivity|by vm_compute|done].
Defined.

End ModerationFacts.

(** ** More on the service worker *)

Module WorkerFacts.
Import Background BackgroundFacts.

(** *** Requests that go through *)

Lemma fetch_up method path w net :
  up net →
  ∃ net', fetch method path (w, net)
          = ((setIssued (issued w ++ [(method, path)]) w, net'), Returned tt)
          ∧ up net'.
Proof.
  intros Hnet. unfold fetch; simpl. destruct Hnet as [|b rest -> Hrest].
  - exists []. split; [done|constructor].
  - by exists rest.
Qed.

(** Unfolding a handler down to the requests and the checks. *)
Ltac handler :=
  unfold run, handleSaveComment, handleLikeComment, handleAddReply, handleReportComment,
    requireUser, cacheCommentLocally, catch, mbind, M_bind, gets, modify,
    rateLimiterCheck, filterContent, ret, mret, M_ret, throw;
  cbn [fst snd].

(** X10: a call that the limiter rejects goes no further.  When the
    limiter rejects a like or a reply of a signed-in user, the handler
    answers with the rate-limit message at once: the world is as it was
    but for the pruned window of the limiter; no request is issued, the
    moderation engine is not run and no store is written. *)
Theorem rejected_call_goes_no_further w env user commentId txt :
  currentUser w = Some user →
  (∀ limiter',
     RateLimiter.check (rateLimiter w) (uid user) "like" (now env)
       = (limiter', Returned false) →
     run (handleLikeComment env commentId) env w
       = (setRateLimiter limiter' w, Returned (Failure "Rate limit exceeded.")))
  ∧ (∀ limiter',
     RateLimiter.check (rateLimiter w) (uid user) "reply" (now env)
       = (limiter', Returned false) →
     run (handleAddReply env commentId txt) env w
       = (setRateLimiter limiter' w, Returned (Failure "Rate limit exceeded."))).
Proof.
  intros Hu. split; intros limiter' Hcheck; handler; rewrite Hu; simpl;
    by rewrite Hcheck.
Qed.


Lemma rejected_call_goes_no_further_witness :
  (run (handleLikeComment quiet "-K0") quiet busy).2
    = Returned (Failure "Rate limit exceeded.")
  ∧ issued (run (handleLikeComment quiet "-K0") quiet busy).1 = [].
Proof.
  destruct (rejected_call_goes_no_further busy quiet alice "-K0" "hi" eq_refl)
    as [Hlike _].
  rewrite (Hlike (RateLimiter.check (rateLimiter busy) "alice" "like" 1000).1); [done|].
  by vm_compute.
Defined.

(** *** Saving a comment *)

(** The cases of a schedule in which every request goes through. *)
Lemma up_cons b net : up (b :: net) → b = true ∧ up net.
Proof. intros H. by apply Forall_cons in H. Qed.

Ltac network H := repeat (apply up_cons in H as [? H]); subst.

Ltac welcomed H verdict :=
  let Hu := fresh "Hu" in
  let Hcheck := fresh "Hcheck" in
  let Hv := fresh "Hv" in
  let Hclean := fresh "Hclean" in
  let Hprofile := fresh "Hprofile" in
  let Hban := fresh "Hban" in
  let limiter' := fresh "limiter'" in
  let filter' := fresh "filter'" in
  let o := fresh "o" in
  destruct H as (Hu & Hcheck & (verdict & Hv & Hclean) & Hprofile & Hban);
  handler; rewrite Hu; simpl;
  destruct (RateLimiter.check _ _ _ _) as [limiter' o]; simpl in Hcheck; subst o; simpl;
  destruct (ContentFilter.filterContent _ _) as [filter' o]; simpl in Hv; subst o; simpl;
  rewrite Hclean; simpl.

(** The path of a save on which everything succeeds. *)
Lemma save_spec w env data user userData :
  welcome w env user userData "comment" (dataText data) →
  up (net env) →
  let name := generated (remote w) in
  let c := newComment env data user userData in
  let w' := (run (handleSaveComment env data) env w).1 in
  (run (handleSaveComment env data) env w).2 = Returned (Saved (named name c))
  ∧ comments (remote w') !! dataVideoId data
    = Some (default [] (comments (remote w) !! dataVideoId data) ++ [(name, c)])
  ∧ (∀ v, v ≠ dataVideoId data → comments (remote w') !! v = comments (remote w) !! v)
  ∧ commentCount <$> users (remote w') !! uid user = Some (commentCount userData + 1)
  ∧ cache (storage w') !! dataVideoId data
    = Some (sortByTimestamp
              (default [] (cache (storage w) !! dataVideoId data) ++ [named name c]))
  ∧ issued w' = issued w ++ [(GET, UserPath (uid user));
                             (POST, CommentsPath (dataVideoId data));
                             (PUT, CommentCountPath (uid user))].
Proof.
  intros Hwelcome Hnet. welcomed Hwelcome verdict.
  unfold fetch; simpl.
  destruct (net env) as [|b1 [|b2 [|b3 rest]]]; network Hnet; simpl;
    rewrite Hprofile; simpl; rewrite Hban; simpl;
    unfold putCommentCount; simpl; rewrite Hprofile; simpl;
    rewrite !lookup_insert_eq, <- ?app_assoc; simpl;
    (split; [done|]); (split; [done|]);
    (split; [by intros v Hv; rewrite lookup_insert_ne|]); done.
Qed.

(** X11: what a successful save does.  For a signed-in user who is not
    banned, when the limiter admits the call, the filter accepts the text
    and every request goes through, the video id and the user id being
    plain keys of the store (so that the paths of the requests name the
    nodes of that video and that user, and no place inside another): the
    answer is the comment with the key that the store generated; the
    store holds it, without that key in its body, after the comments the
    video had, and no other video is touched; the comment count of the
    profile is one more than the one that was read; the cache of the
    video holds the comment among the cached ones, sorted; and the
    requests were the read of the profile, the POST and the PUT of the
    count, in this order. *)
Theorem save_stores_the_comment w env data user userData :
  plainKey (dataVideoId data) = true →
  plainKey (uid user) = true →
  welcome w env user userData "comment" (dataText data) →
  up (net env) →
  let name := generated (remote w) in
  let c := newComment env data user userData in
  let w' := (run (handleSaveComment env data) env w).1 in
  (run (handleSaveComment env data) env w).2 = Returned (Saved (named name c))
  ∧ comments (remote w') !! dataVideoId data
    = Some (default [] (comments (remote w) !! dataVideoId data) ++ [(name, c)])
  ∧ (∀ v, v ≠ dataVideoId data → comments (remote w') !! v = comments (remote w) !! v)
  ∧ commentCount <$> users (remote w') !! uid user = Some (commentCount userData + 1)
  ∧ cache (storage w') !! dataVideoId data
    = Some (sortByTimestamp
              (default [] (cache (storage w) !! dataVideoId data) ++ [named name c]))
  ∧ issued w' = issued w ++ [(GET, UserPath (uid user));
                             (POST, CommentsPath (dataVideoId data));
                             (PUT, CommentCountPath (uid user))].
Proof. intros _ _. exact (save_spec w env data user userData). Qed.

Lemma save_stores_the_comment_witness :
  (run (handleSaveComment quiet hello) quiet withAlice).2
    = Returned (Saved (mkComment (Some "-K0") "hello there" 12 "alice" "Alice" 0 1000
                                 "netflix" None None))
  ∧ issued (run (handleSaveComment quiet hello) quiet withAlice).1
    = [(GET, UserPath "alice"); (POST, CommentsPath "v"); (PUT, CommentCountPath "alice")].
Proof.
  assert (welcome withAlice quiet alice aliceProfile "comment" "hello there") as Hw.
  { split; [done|]. split; [by vm_compute|]. split; [|done].
    eexists. split; by vm_compute. }
  assert (up (net quiet)) as Hnet by constructor.
  destruct (save_stores_the_comment withAlice quiet hello alice aliceProfile
              eq_refl eq_refl Hw Hnet)
    as (Hanswer & _ & _ & _ & _ & Hissued).
  split; [exact Hanswer|exact Hissued].
Defined.

Lemma withAlice_welcome net :
  welcome withAlice (mkEnv 1000 net None 0) alice aliceProfile "comment" "hello there".
Proof.
  split; [done|]. split; [by vm_compute|]. split; [|done].
  eexists. split; by vm_compute.
Defined.

(** X12: a save can fail after the comment is stored.  When the
    request that updates the comment count fails, the answer is a
    failure, and yet the comment has been stored on the remote store; the
    count and the cache are as they were. *)
Theorem save_can_fail_after_storing w env data user userData rest :
  welcome w env user userData "comment" (dataText data) →
  net env = true :: true :: false :: rest →
  let w' := (run (handleSaveComment env data) env w).1 in
  (run (handleSaveComment env data) env w).2 = Returned (Failure "Failed to fetch")
  ∧ comments (remote w') !! dataVideoId data
    = Some (default [] (comments (remote w) !! dataVideoId data)
            ++ [(generated (remote w), newComment env data user userData)])
  ∧ users (remote w') = users (remote w)
  ∧ cache (storage w') = cache (storage w).
Proof.
  intros Hwelcome Hnet. welcomed Hwelcome verdict.
  unfold fetch; simpl. rewrite Hnet; simpl.
  rewrite Hprofile; simpl; rewrite Hban; simpl.
  by rewrite lookup_insert_eq.
Qed.

Lemma save_can_fail_after_storing_witness :
  let env := mkEnv 1000 [true; true; false] None 0 in
  (run (handleSaveComment env hello) env withAlice).2 = Returned (Failure "Failed to fetch")
  ∧ comments (remote (run (handleSaveComment env hello) env withAlice).1) !! "v"
    = Some [("-K0", newComment env hello alice aliceProfile)].
Proof.
  intros env.
  destruct (save_can_fail_after_storing withAlice env hello alice aliceProfile []
              (withAlice_welcome _) eq_refl) as (Ha & Hs & _).
  split; [exact Ha|exact Hs].
Defined.

(** *** Loading the comments of a video *)

Lemma setIssued_nil w : setIssued (issued w ++ []) w = w.
Proof. destruct w. unfold setIssued; simpl. by rewrite app_nil_r. Qed.

Lemma setIssued_app w l1 l2 :
  setIssued (issued (setIssued (issued w ++ l1) w) ++ l2) (setIssued (issued w ++ l1) w)
  = setIssued (issued w ++ l1 ++ l2) w.
Proof. unfold setIssued; simpl. by rewrite app_assoc. Qed.

Lemma loadDetails_up c w net :
  up net →
  ∃ l net',
    loadDetails c (w, net) = ((setIssued (issued w ++ l) w, net'), Returned (detailed w c))
    ∧ up net'.
Proof.
  intros Hnet. unfold loadDetails, detailed, mbind, M_bind, gets, fetch, ret, mret, M_ret.
  cbn [fst snd].
  destruct net as [|b1 [|b2 rest]]; network Hnet; cbn [fst snd];
    rewrite (setIssued_app w [_] [_]); eexists _, _; (split; [reflexivity|]);
    first [done|constructor].
Qed.

Lemma loadAllDetails_up cs :
  ∀ w net,
    up net →
    ∃ l net',
      loadAllDetails cs (w, net)
      = ((setIssued (issued w ++ l) w, net'), Returned (detailed w <$> cs))
      ∧ up net'.
Proof.
  induction cs as [|c cs IH]; intros w net Hnet; cbn [loadAllDetails].
  - exists [], net. by rewrite setIssued_nil.
  - unfold mbind, M_bind.
    destruct (loadDetails_up c w net Hnet) as (l1 & net1 & -> & Hnet1).
    destruct (IH (setIssued (issued w ++ l1) w) net1 Hnet1) as (l2 & net2 & -> & Hnet2).
    rewrite setIssued_app. exists (l1 ++ l2), net2. by split.
Qed.

Lemma loadFromRemote_up videoId w net data :
  up net →
  comments (remote w) !! videoId = Some data →
  let cs := detailed w <$> sortByTimestamp (keyedComment <$> data) in
  ∃ l net',
    loadFromRemote videoId (w, net)
    = ((setStorage (setCache videoId cs (storage w)) (setIssued (issued w ++ l) w), net'),
       Returned (Loaded cs)).
Proof.
  intros Hnet Hdata cs. unfold loadFromRemote, mbind, M_bind.
  destruct (fetch_up GET (CommentsPath videoId) w net Hnet) as (net1 & -> & Hnet1).
  unfold gets at 1. cbn [fst snd]. change (remote (setIssued _ w)) with (remote w).
  rewrite Hdata.
  destruct (loadAllDetails_up (sortByTimestamp (keyedComment <$> data))
              (setIssued (issued w ++ [(GET, CommentsPath videoId)]) w) net1 Hnet1)
    as (l2 & net2 & Hall & Hnet2).
  cbv zeta. rewrite Hall, setIssued_app. unfold modify, ret, mret, M_ret. cbn [fst snd].
  by eexists _, _.
Qed.

Lemma shown_detailed w c : shown (detailed w c) = shown c.
Proof.
  unfold detailed. by destruct (allReplies _ !! _), (allLikes _ !! _).
Qed.

Lemma upToDate_detailed w kc : upToDate w (detailed w (keyedComment kc)).
Proof.
  exists kc.1. unfold detailed. simpl.
  destruct (allReplies (remote w) !! kc.1) as [rs|] eqn:Hrs,
           (allLikes (remote w) !! kc.1) as [ls|] eqn:Hls;
    (split; [done|]); (split; [done|]); by intros ? [= <-].
Qed.

(** The path of a load on which every request goes through. *)
Lemma load_spec w env videoId data :
  up (net env) →
  comments (remote w) !! videoId = Some data →
  let w' := (run (handleLoadComments videoId) env w).1 in
  ∃ cs,
    (run (handleLoadComments videoId) env w).2 = Returned (Loaded cs)
    ∧ shown <$> cs ≡ₚ stored <$> data
    ∧ Forall (upToDate w) cs
    ∧ cache (storage w') !! videoId = Some cs
    ∧ remote w' = remote w.
Proof.
  intros Hnet Hdata.
  destruct (loadFromRemote_up videoId w (net env) data Hnet Hdata) as (l & net' & Hrun).
  unfold run, handleLoadComments, catch. rewrite Hrun. cbn [fst snd].
  eexists. split; [done|]. split; [|split; [|split; [|done]]].
  - rewrite <- list_fmap_compose.
    rewrite (list_fmap_ext (shown ∘ detailed w) shown) by (intros; apply shown_detailed).
    rewrite sortByTimestamp_Permutation. by rewrite <- list_fmap_compose.
  - apply Forall_forall. intros c (c0 & -> & Hc0)%list_elem_of_fmap.
    rewrite sortByTimestamp_Permutation in Hc0.
    apply list_elem_of_fmap in Hc0 as (kc & -> & _). apply upToDate_detailed.
  - simpl. by rewrite lookup_insert_eq.
Qed.

(** X13: a load shows every stored comment once.  When every request
    goes through and the store holds comments for the video, every key of
    the store being plain (so that no node lies inside another) and no
    stored comment or reply carrying an [id] in its body (as none that
    the handlers store does): the answer lists one comment for
    each stored one, with the key as id and saying what the stored
    comment says; each comes with the replies and the like count held
    under its key; the list is what the cache of the video holds
    afterwards; and the remote store is only read. *)
Theorem load_shows_every_comment w env videoId data :
  plainStore (remote w) = true →
  forallb unnamed data = true →
  unnamedReplies (remote w) = true →
  up (net env) →
  comments (remote w) !! videoId = Some data →
  let w' := (run (handleLoadComments videoId) env w).1 in
  ∃ cs,
    (run (handleLoadComments videoId) env w).2 = Returned (Loaded cs)
    ∧ shown <$> cs ≡ₚ stored <$> data
    ∧ Forall (upToDate w) cs
    ∧ cache (storage w') !! videoId = Some cs
    ∧ remote w' = remote w.
Proof. intros _ _ _. exact (load_spec w env videoId data). Qed.

Lemma load_shows_every_comment_witness :
  ∃ cs,
    (run (handleLoadComments "v") quiet (setRemote twoComments initial)).2
      = Returned (Loaded cs)
    ∧ shown <$> cs ≡ₚ [stored ("-K0", late); stored ("-K1", early)].
Proof.
  destruct (load_shows_every_comment (setRemote twoComments initial) quiet "v"
              [("-K0", late); ("-K1", early)]) as (cs & Hcs & Hall & _).
  - by vm_compute.
  - reflexivity.
  - by vm_compute.
  - constructor.
  - reflexivity.
  - exists cs. by split.
Defined.


(** X14: when the remote load fails, the answer repeats the last load
    that found comments.  After a load in which every request went
    through and the store held comments for the video, a load whose
    remote part throws answers with the same list. *)
Theorem failed_load_repeats_the_last w env env' videoId data w1 net1 e :
  up (net env) →
  comments (remote w) !! videoId = Some data →
  let loaded := run (handleLoadComments videoId) env w in
  loadFromRemote videoId (loaded.1, net env') = ((w1, net1), Threw e) →
  (run (handleLoadComments videoId) env' loaded.1).2 = loaded.2.
Proof.
  intros Hnet Hdata loaded Hthrows.
  destruct (load_spec w env videoId data Hnet Hdata)
    as (cs & Hcs & _ & _ & Hcache & _).
  fold loaded in Hcs, Hcache.
  destruct (load_falls_back_to_cache videoId env' loaded.1 w1 net1 e Hthrows) as [-> _].
  by rewrite Hcache, Hcs.
Qed.

Lemma failed_load_repeats_the_last_witness :
  (run (handleLoadComments "v") offline afterLoad).2
  = (run (handleLoadComments "v") quiet (setRemote twoComments initial)).2.
Proof.
  apply (failed_load_repeats_the_last (setRemote twoComments initial) quiet offline "v"
           [("-K0", late); ("-K1", early)]
           (setIssued [(GET, CommentsPath "v"); (GET, RepliesPath "-K1");
                       (GET, LikesPath "-K1"); (GET, RepliesPath "-K0");
                       (GET, LikesPath "-K0"); (GET, CommentsPath "v")] afterLoad)
           [] "Failed to fetch").
  - constructor.
  - reflexivity.
  - by vm_compute.
Defined.

(** X15: a saved comment is shown by the next load.  After a
    successful save, a load of the video in which every request goes
    through lists the comment under the key of the answer; and a load
    whose remote part throws lists it too, from the cache. *)
Theorem saved_comment_is_loaded w env env' data user userData :
  welcome w env user userData "comment" (dataText data) →
  up (net env) →
  let saved := run (handleSaveComment env data) env w in
  let loaded := run (handleLoadComments (dataVideoId data)) env' saved.1 in
  ∃ c, saved.2 = Returned (Saved c)
    ∧ (up (net env') →
       ∃ cs, loaded.2 = Returned (Loaded cs) ∧ shown c ∈ shown <$> cs)
    ∧ (∀ w1 net1 e,
         loadFromRemote (dataVideoId data) (saved.1, net env') = ((w1, net1), Threw e) →
         ∃ cs, loaded.2 = Returned (Loaded cs) ∧ c ∈ cs).
Proof.
  intros Hwelcome Hnet saved loaded.
  destruct (save_spec w env data user userData Hwelcome Hnet)
    as (Hanswer & Hstored & _ & _ & Hcache & _).
  fold saved in Hanswer, Hstored, Hcache.
  eexists. split; [exact Hanswer|]. split.
  - intros Hnet'.
    destruct (load_spec saved.1 env' (dataVideoId data) _ Hnet' Hstored)
      as (cs & Hcs & Hshown & _).
    exists cs. split; [exact Hcs|]. rewrite Hshown, fmap_app.
    apply elem_of_app. right. by apply list_elem_of_singleton.
  - intros w1 net1 e Hthrows.
    destruct (load_falls_back_to_cache _ env' saved.1 w1 net1 e Hthrows) as [Hl _].
    eexists. split; [exact Hl|]. rewrite Hcache. simpl.
    rewrite sortByTimestamp_Permutation. apply elem_of_app. right.
    by apply list_elem_of_singleton.
Qed.

Lemma saved_comment_is_loaded_witness :
  let saved := run (handleSaveComment quiet hello) quiet withAlice in
  ∃ c, saved.2 = Returned (Saved c)
    ∧ ∃ cs, (run (handleLoadComments "v") quiet saved.1).2 = Returned (Loaded cs)
            ∧ shown c ∈ shown <$> cs.
Proof.
  destruct (saved_comment_is_loaded withAlice quiet quiet hello alice aliceProfile
              (withAlice_welcome []) (Forall_nil_2 _)) as (c & Hc & Hup & _).
  exists c. split; [exact Hc|]. apply Hup. constructor.
Defined.

(** *** Who may write *)

(** X16: a user without a profile in good standing writes nothing.
    When the profile of the signed-in user is missing on the remote store
    or says that the user is banned, a save and a reply are answered with
    a failure and leave the remote store and local storage as they were;
    the only request they may issue is the read of the profile.  A banned
    user whom the limiter admits and whose text the filter accepts is
    told that the account is suspended when that read goes through. *)
Theorem unwelcome_user_writes_nothing w env data commentId txt user :
  unwelcome w user →
  let saved := run (handleSaveComment env data) env w in
  let replied := run (handleAddReply env commentId txt) env w in
  (∃ e, saved.2 = Returned (Failure e))
  ∧ sameStores w saved.1
  ∧ (issued saved.1 = issued w ∨ issued saved.1 = issued w ++ [(GET, UserPath (uid user))])
  ∧ (∃ e, replied.2 = Returned (Failure e))
  ∧ sameStores w replied.1
  ∧ (issued replied.1 = issued w
     ∨ issued replied.1 = issued w ++ [(GET, UserPath (uid user))])
  ∧ (∀ userData verdict,
       users (remote w) !! uid user = Some userData →
       (RateLimiter.check (rateLimiter w) (uid user) "comment" (now env)).2
         = Returned true →
       (ContentFilter.filterContent (contentFilter w) (dataText data)).2
         = Returned verdict →
       ContentFilter.isClean verdict = true →
       up (net env) →
       saved.2 = Returned (Failure "Your account has been suspended.")).
Proof.
  intros [Hu Hprofile] saved replied. unfold sameStores.
  repeat apply conj.
  9: { intros userData verdict Hud Hcheck Hv Hclean Hnet. subst saved.
       rewrite Hud in Hprofile. handler. rewrite Hu; simpl.
       destruct (RateLimiter.check _ _ _ _) as [limiter' o]; simpl in Hcheck; subst o; simpl.
       destruct (ContentFilter.filterContent _ _) as [f o]; simpl in Hv; subst o; simpl.
       rewrite Hclean; simpl. unfold fetch; simpl.
       destruct (net env) as [|b1 rest]; network Hnet; simpl;
         rewrite Hud; simpl; by rewrite Hprofile. }
  all: subst saved replied; handler; rewrite Hu; simpl;
    destruct (RateLimiter.check _ _ _ _) as [limiter' [[|]|e]]; simpl; eauto;
    destruct (ContentFilter.filterContent _ _) as [f [v|e]]; simpl; eauto;
    destruct (ContentFilter.isClean v); simpl; eauto;
    unfold fetch; simpl; destruct (net env) as [|[|] rest]; simpl; eauto;
    destruct (users (remote w) !! uid user) as [userData|]; simpl; eauto;
    rewrite Hprofile; simpl; eauto.
Qed.

Lemma unwelcome_user_writes_nothing_witness :
  (run (handleSaveComment quiet hello) quiet bannedAlice).2
    = Returned (Failure "Your account has been suspended.")
  ∧ sameStores bannedAlice (run (handleSaveComment quiet hello) quiet bannedAlice).1.
Proof.
  assert (unwelcome bannedAlice alice) as Hban by (split; [done|by vm_compute]).
  destruct (unwelcome_user_writes_nothing bannedAlice quiet hello "-K0" "hi" alice Hban)
    as (_ & Hsame & _ & _ & _ & _ & Hmsg).
  split; [|exact Hsame].
  eapply Hmsg; [by vm_compute|by vm_compute|by vm_compute|done|constructor].
Defined.





(** *** Calls without a user *)

(** X19: without a user and without a sign-up, a call fails and writes
    nothing.  When nobody is signed in, no credentials are stored, and
    the sign-up is refused or its request fails, a save, a like, a reply
    and a report are answered with a failure; the limiter, the moderation
    engine, local storage and the remote store are as they were, nobody
    is signed in afterwards, and the only request issued is that of the
    sign-up. *)
Theorem call_without_user_fails w env message :
  needsUser message = true →
  currentUser w = None →
  truthy (userId (storage w)) = None ∨ truthy (authToken (storage w)) = None →
  signUp env = None ∨ head (net env) = Some false →
  let answered := run (onMessage env message) env w in
  (∃ e, answered.2 = Returned (Failure e))
  ∧ answered.1 = setIssued (issued w ++ [(POST, SignUp)]) w.
Proof.
  intros Hmessage Hu Hstored Hrefused.
  assert (requireUser env (w, net env)
          = ((setIssued (issued w ++ [(POST, SignUp)]) w, tail (net env)),
             Threw "TypeError: Cannot read properties of null (reading 'uid')")) as Hreq.
  { unfold requireUser, initializeAuth, catch, mbind, M_bind, gets, modify, fetch, throw,
      ret, mret, M_ret; simpl. rewrite Hu; simpl.
    assert (match truthy (userId (storage w)), truthy (authToken (storage w)) with
            | Some _, Some _ => False
            | _, _ => True
            end) as Hnone.
    { destruct Hstored as [-> | ->]; [done|]. by destruct (truthy (userId _)). }
    destruct (truthy (userId (storage w))) as [u|]; simpl;
      [destruct (truthy (authToken (storage w))) as [t|]; simpl; [done|]|].
    all: destruct Hrefused as [Hs|Hn];
      [rewrite Hs; by destruct (net env) as [|[|] rest]; simpl; rewrite ?Hu
      |destruct (net env) as [|[|] rest]; simplify_eq/=; by rewrite Hu]. }
  destruct message; try done; simpl;
    unfold run, handleSaveComment, handleLikeComment, handleAddReply, handleReportComment,
      catch, mbind, M_bind;
    rewrite Hreq; simpl; eauto.
Qed.

Lemma call_without_user_fails_witness :
  ∃ e, (run (onMessage refused (LIKE_COMMENT "-K0")) refused initial).2
       = Returned (Failure e).
Proof.
  destruct (call_without_user_fails initial refused (LIKE_COMMENT "-K0")) as [He _];
    [reflexivity|reflexivity|by left|by left|exact He].
Defined.


(** *** Invariants of the handlers

    A property of the world that every write of the handlers keeps is
    kept by every handler, however it ends. *)

Section Invariant.
Context (I : World → Prop).
Context (I_issued : ∀ w method path,
           path ≠ SignUp → I w → I (setIssued (issued w ++ [(method, path)]) w)).
Context (I_auth : ∀ env, keeps I (initializeAuth env)).
Context (I_limiter : ∀ w userId action t,
           I w → I (setRateLimiter (RateLimiter.check (rateLimiter w) userId action t).1 w)).
Context (I_filter : ∀ w txt,
           I w →
           I (setContentFilter (ContentFilter.filterContent (contentFilter w) txt).1 w)).
Context (I_cache : ∀ w videoId l, I w → I (setStorage (setCache videoId l (storage w)) w)).
Context (I_flags : ∀ w, I w → I (setStorage (setFlags (storage w)) w)).
Context (I_comment : ∀ w videoId c, I w → I (setRemote (postComment videoId c (remote w)) w)).
Context (I_count : ∀ w u n, I w → I (setRemote (putCommentCount u n (remote w)) w)).
Context (I_likes : ∀ w c l, I w → I (setRemote (setLikes c l (remote w)) w)).
Context (I_reply : ∀ w c r, I w → I (setRemote (postReply c r (remote w)) w)).
Context (I_report : ∀ w c r, I w → I (setRemote (postReport c r (remote w)) w)).

Lemma inv_fetch method path : path ≠ SignUp → keeps I (fetch method path).
Proof. intros Hp. apply triple_fetch. intros w Hw. split; by apply I_issued. Qed.

Lemma inv_rateLimiterCheck userId action t : keeps I (rateLimiterCheck userId action t).
Proof.
  intros w net w' net' o Hw. unfold rateLimiterCheck; cbn [fst snd].
  pose proof (I_limiter w userId action t Hw) as H.
  destruct (RateLimiter.check _ _ _ _) as [r o']. intros [= <- <- <-].
  by destruct o'.
Qed.

Lemma inv_filterContent txt : keeps I (filterContent txt).
Proof.
  intros w net w' net' o Hw. unfold filterContent; cbn [fst snd].
  pose proof (I_filter w txt Hw) as H.
  destruct (ContentFilter.filterContent _ _) as [f o']. intros [= <- <- <-].
  by destruct o'.
Qed.

Ltac inv_step :=
  lazymatch goal with
  | |- keeps _ (_ ≫= _) => apply keeps_bind; [|intro; cbv beta]
  | |- keeps _ (catch _ _) => apply keeps_catch; [|intro; cbv beta]
  | |- keeps _ (ret _) => apply keeps_ret
  | |- keeps _ (throw _) => apply keeps_throw
  | |- keeps _ (gets _) => apply keeps_gets
  | |- keeps _ (fetch _ _) => apply inv_fetch; discriminate
  | |- keeps _ (rateLimiterCheck _ _ _) => apply inv_rateLimiterCheck
  | |- keeps _ (filterContent _) => apply inv_filterContent
  | |- keeps _ (modify _) => apply triple_modify; intros ? ?; eauto
  | |- keeps _ (match ?x with _ => _ end) => destruct x
  | |- keeps _ _ => solve [auto]
  end.
Ltac inv_steps := repeat inv_step.

Lemma inv_requireUser env : keeps I (requireUser env).
Proof. pose proof (I_auth env). unfold requireUser. inv_steps. Qed.

Lemma inv_cacheCommentLocally videoId comment :
  keeps I (cacheCommentLocally videoId comment).
Proof. unfold cacheCommentLocally. inv_steps. Qed.

Lemma inv_loadAllDetails cs : keeps I (loadAllDetails cs).
Proof.
  induction cs as [|c cs IH]; cbn [loadAllDetails]; [apply keeps_ret|].
  unfold loadDetails. inv_steps.
Qed.

Lemma inv_onMessage env message : keeps I (onMessage env message).
Proof.
  pose proof (inv_requireUser env).
  pose proof inv_cacheCommentLocally. pose proof inv_loadAllDetails.
  destruct message; simpl.
  - unfold handleSaveComment. inv_steps.
  - unfold handleLoadComments, loadFromRemote, loadFromCache. inv_steps.
  - unfold handleLikeComment. inv_steps.
  - unfold handleAddReply. inv_steps.
  - unfold handleReportComment. inv_steps.
Qed.

Lemma inv_onInstalled env : keeps I (onInstalled env).
Proof. pose proof (I_auth env). unfold onInstalled. inv_steps. Qed.

Lemma inv_served w w' : served w w' → I w → I w'.
Proof.
  destruct 1; intros Hw.
  - by apply run_keeps; [apply inv_onMessage|].
  - by apply run_keeps; [apply inv_onInstalled|].
Qed.

End Invariant.

(** When the sign-up too keeps the property, so does [initializeAuth]. *)
Lemma inv_initializeAuth (I : World → Prop) env :
  (∀ w req, I w → I (setIssued (issued w ++ [req]) w)) →
  (∀ w u, I w → I (setCurrentUser (Some u) w)) →
  (∀ w u, I w → I (setStorage (setCredentials u (storage w)) w)) →
  (∀ w u p, I w → I (setRemote (putUser u p (remote w)) w)) →
  keeps I (initializeAuth env).
Proof.
  intros Hissued Huser Hcred Hprofile.
  assert (∀ method path, keeps I (fetch method path)) as Hfetch.
  { intros. apply triple_fetch. intros w Hw. split; by apply Hissued. }
  unfold initializeAuth.
  apply keeps_catch; [|intros; apply keeps_ret].
  apply keeps_bind; [apply keeps_gets|intros stored; cbv beta].
  assert (keeps I (fetch POST SignUp;;
                   match signUp env with
                   | Some u =>
                       modify (setCurrentUser (Some u));;
                       modify (fun w => setStorage (setCredentials u (storage w)) w);;
                       fetch PUT (UserPath (uid u));;
                       modify (fun w => setRemote
                         (putUser (uid u)
                            (mkProfile ("User" +:+ pretty (random env)) (now env) 0 true false)
                            (remote w)) w)
                   | None => throw "sign-up error"
                   end)) as Hsign.
  { apply keeps_bind; [apply Hfetch|intros _].
    destruct (signUp env) as [u|]; [|apply keeps_throw].
    repeat (apply keeps_bind; [|intros _]);
      first [apply Hfetch | apply triple_modify; intros ? ?; eauto]. }
  destruct (truthy (userId stored)), (truthy (authToken stored)); try exact Hsign.
  apply triple_modify. intros ? ?. eauto.
Qed.


(** *** The configuration of the worker *)

Lemma configured_served w w' : served w w' → configured w → configured w'.
Proof.
  apply inv_served; try (by intros).
  - intros env. apply inv_initializeAuth; by intros.
  - intros w0 userId action t (Hl & Hb & Hf). split; [|split; [|done]]; simpl.
    + by rewrite RateLimiterFacts.limits_check.
    + by apply RateLimiterFacts.bounded_check.
  - intros w0 txt (Hl & Hb & Hf). split; [done|]. split; [done|]. simpl.
    by apply ModerationFacts.filterContent_keeps_rules.
Qed.

Lemma configured_step w w' : step w w' → configured w → configured w'.
Proof.
  destruct 1; intros Hw.
  - eapply configured_served; [apply served_message|done].
  - eapply configured_served; [apply served_installed|done].
  - split; [done|]. split; [apply RateLimiterFacts.bounded_empty|reflexivity].
  - exact Hw.
  - exact Hw.
Qed.

Lemma configured_rtc w w' : rtc step w w' → configured w → configured w'.
Proof. induction 1; eauto using configured_step. Qed.

(** X20: the worker keeps its configuration.  In every world that the
    worker can reach, the limiter has the limits of the source, no window
    of any user holds more entries than its limit, and the moderation
    engine is one that the constructor made; so the limiter answers every
    check of a comment, a like or a reply, and never throws. *)
Theorem worker_keeps_its_configuration w :
  reachable w →
  configured w
  ∧ ∀ userId action t,
      action ∈ ["comment"; "like"; "reply"] →
      ∃ admitted,
        (RateLimiter.check (rateLimiter w) userId action t).2 = Returned admitted.
Proof.
  intros Hw.
  assert (configured w) as Hc.
  { apply (configured_rtc _ _ Hw). split; [done|].
    split; [apply RateLimiterFacts.bounded_empty|reflexivity]. }
  split; [done|]. destruct Hc as (Hl & _ & _).
  intros userId action t Ha. unfold RateLimiter.check. rewrite Hl.
  assert (is_Some (RateLimiter.table !! action)) as [limit ->].
  { repeat (apply elem_of_cons in Ha as [->|Ha]; [by eexists|]).
    by apply elem_of_nil in Ha. }
  destruct (_ <=? _); by eexists.
Qed.

Lemma worker_keeps_its_configuration_witness :
  configured afterLoad
  ∧ ∃ admitted,
      (RateLimiter.check (rateLimiter afterLoad) "alice" "like" 5).2 = Returned admitted.
Proof.
  destruct (worker_keeps_its_configuration afterLoad afterLoad_reachable) as [Hc Hcheck].
  split; [exact Hc|]. apply Hcheck. apply elem_of_cons. right. apply elem_of_cons. by left.
Defined.

(** *** The worker only appends *)





(** *** The identity of the user *)

Lemma truthy_Some s : s ≠ "" → truthy (Some s) = Some s.
Proof.
  intros Hs. unfold truthy; simpl. destruct (String.eqb_spec s ""); [done|done].
Qed.

Section Identity.
Context (u t : string) (Hu : u ≠ "") (Ht : t ≠ "") (w0 : World).

Lemma since_initializeAuth env : keeps (since u t w0) (initializeAuth env).
Proof.
  intros w net w' net' o [(Hid & Htok & Hcur) Hno].
  unfold initializeAuth, catch, mbind, M_bind, gets, modify. cbn [fst snd].
  rewrite Hid, Htok, !truthy_Some by done.
  intros [= <- <- <-]. split; [|done]. split; [done|]. split; [done|]. by right.
Qed.

Lemma since_served w w' : served w w' → since u t w0 w → since u t w0 w'.
Proof.
  apply inv_served; try (by intros); try apply since_initializeAuth.
  intros w1 method path Hp [Hid (l & Hl & Hno)]. split; [done|].
  exists (l ++ [(method, path)]). simpl. rewrite Hl. split; [by rewrite app_assoc|].
  rewrite elem_of_app, list_elem_of_singleton. intros [?|[=]]; [done|]. by subst.
Qed.

Lemma since_step w w' : step w w' → since u t w0 w → since u t w0 w'.
Proof.
  destruct 1; intros Hw.
  - eapply since_served; [apply served_message|done].
  - eapply since_served; [apply served_installed|done].
  - destruct Hw as [(Hid & Htok & _) Hno]. split; [|done]. split; [done|]. split; [done|].
    by left.
  - exact Hw.
  - exact Hw.
Qed.

Lemma since_rtc w w' : rtc step w w' → since u t w0 w → since u t w0 w'.
Proof. induction 1; eauto using since_step. Qed.

End Identity.

(** X22: the identity of the user is stable.  Once local storage
    holds a user id and a token that are not empty, and whoever is signed
    in is that user, this stays so whatever happens: messages,
    installation events, restarts of the worker, the toggle of the popup
    and writes of others to the remote store; and the worker never issues
    a sign-up request again. *)
Theorem identity_is_stable u t w w' :
  u ≠ "" → t ≠ "" →
  identified u t w →
  rtc step w w' →
  identified u t w' ∧ noSignUpSince w w'.
Proof.
  intros Hu Ht Hw Hsteps. apply (since_rtc u t Hu Ht w w w' Hsteps).
  split; [done|]. exists []. split; [by rewrite app_nil_r|]. apply not_elem_of_nil.
Qed.

(** X23: a sign-up is remembered.  When nobody is signed in, no
    credentials are stored and the sign-up succeeds with a user id and a
    token that are not empty, the user is signed in and the credentials
    are stored, whether or not the request that creates the profile goes
    through; after a restart of the worker, [initializeAuth] signs the
    same user in again without any request. *)
Theorem sign_up_is_remembered w env env' user :
  currentUser w = None →
  truthy (userId (storage w)) = None ∨ truthy (authToken (storage w)) = None →
  signUp env = Some user →
  head (net env) ≠ Some false →
  uid user ≠ "" → token user ≠ "" →
  let w1 := (run (initializeAuth env) env w).1 in
  currentUser w1 = Some user
  ∧ identified (uid user) (token user) w1
  ∧ run (initializeAuth env') env' (restart w1)
    = (setCurrentUser (Some user) (restart w1), Returned tt).
Proof.
  intros Hcur Hstored Hsign Hnet Hu Ht w1.
  assert (currentUser w1 = Some user
          ∧ userId (storage w1) = Some (uid user)
          ∧ authToken (storage w1) = Some (token user)) as (H1 & H2 & H3).
  { subst w1. unfold run, initializeAuth, catch, mbind, M_bind, gets, modify, fetch,
      throw, ret, mret, M_ret. cbn [fst snd].
    assert (match truthy (userId (storage w)), truthy (authToken (storage w)) with
            | Some _, Some _ => False
            | _, _ => True
            end) as Hnone.
    { destruct Hstored as [-> | ->]; [done|]. by destruct (truthy (userId _)). }
    rewrite Hsign.
    destruct (truthy (userId (storage w))) as [u|];
      [destruct (truthy (authToken (storage w))) as [t|]; [done|]|].
    all: destruct (net env) as [|[|] [|[|] rest]]; by simpl in *. }
  split; [done|]. split; [by split; [|split; [|right; destruct user]]|].
  unfold run, initializeAuth, catch, mbind, M_bind, gets, modify. cbn [fst snd restart storage].
  rewrite H2, H3, !truthy_Some by done. by destruct user.
Qed.

Lemma identity_is_stable_witness :
  let w1 := (run (initializeAuth signsUp) signsUp initial).1 in
  let w2 := (run (onMessage quiet (LIKE_COMMENT "-K0")) quiet (restart w1)).1 in
  identified "alice" "token" w2 ∧ noSignUpSince w1 w2.
Proof.
  apply (identity_is_stable "alice" "token"); [done|done| |].
  { split; [by vm_compute|]. split; [by vm_compute|]. right. by vm_compute. }
  eapply rtc_l; [apply step_restart|]. apply rtc_once, step_message.
Defined.

Lemma sign_up_is_remembered_witness :
  let w1 := (run (initializeAuth signsUp) signsUp initial).1 in
  currentUser w1 = Some alice
  ∧ identified "alice" "token" w1
  ∧ run (initializeAuth refused) refused (restart w1)
    = (setCurrentUser (Some alice) (restart w1), Returned tt).
Proof.
  apply (sign_up_is_remembered initial signsUp refused alice); try done. by left.
Defined.

End WorkerFacts.

(** ** The playback position *)

Module ContentFacts.
Import JSString JSRegExp JSRegExpFacts Content.

Lemma withinDay_wholeSeconds t : withinDay t → wholeSeconds t.
Proof. intros (z & Hz & ->). right. exists z. split; [lia|done]. Qed.

Lemma Qltb_lt a b : Qltb a b = true → (a < b)%Q.
Proof.
  unfold Qltb. intros H%negb_true_iff. apply Qnot_le_lt. intros Hle.
  apply Qle_bool_iff in Hle. congruence.
Qed.

Lemma floor_wholeSeconds v q : (0 <= q)%Q → gt v q = true → wholeSeconds (floor v).
Proof.
  destruct v as [|x| |]; simpl; try done; [|by left].
  intros Hq Hx%Qltb_lt. right. exists (Qfloor x). split; [|done].
  change 0%Z with (Qfloor 0). apply Qfloor_resp_le.
  apply Qlt_le_weak. by eapply Qle_lt_trans.
Qed.

Lemma floor_withinDay v q :
  (0 <= q)%Q → gt v q = true → lt v 86400 = true → withinDay (floor v).
Proof.
  destruct v as [|x| |]; simpl; try done.
  intros Hq Hx%Qltb_lt Hday%Qltb_lt. exists (Qfloor x). split; [|done]. split.
  - change 0%Z with (Qfloor 0). apply Qfloor_resp_le.
    apply Qlt_le_weak. by eapply Qle_lt_trans.
  - rewrite Zlt_Qlt. eapply Qle_lt_trans; [apply Qfloor_le|exact Hday].
Qed.

Section Sources.
Context (parseFloat : string → Num).

Lemma shadowSlider_wholeSeconds bar t :
  shadowSlider parseFloat bar = Some t → wholeSeconds t.
Proof.
  unfold shadowSlider. destruct (shadowInput bar) as [[v m]|]; [|done].
  destruct (gt (parseFloat m) 100 && lt (parseFloat m) 86400 && gt (parseFloat v) 0)
    eqn:Hc; [|done].
  intros [= <-]. apply andb_true_iff in Hc as [_ Hv].
  by apply (floor_wholeSeconds _ 0).
Qed.

Lemma firstProperty_withinDay bar props t :
  firstProperty parseFloat bar props = Some t → withinDay t.
Proof.
  induction props as [|prop props IH]; simpl; [done|].
  destruct (property bar prop) as [| |s]; try done.
  destruct (negb (isNaN (parseFloat s)) && gt (parseFloat s) 0 && lt (parseFloat s) 86400)
    eqn:Hc; [|done].
  intros [= <-]. apply andb_true_iff in Hc as [[_ Hpos]%andb_true_iff Hday].
  by apply (floor_withinDay _ 0).
Qed.

Lemma firstAttribute_withinDay attrs t :
  firstAttribute parseFloat attrs = Some t → withinDay t.
Proof.
  induction attrs as [|[name value] attrs IH]; simpl; [done|].
  destruct (_ && bool_decide _); [|done].
  destruct (negb (isNaN (parseFloat value)) && gt (parseFloat value) 10
            && lt (parseFloat value) 86400) eqn:Hc; [|done].
  intros [= <-]. apply andb_true_iff in Hc as [[_ Hpos]%andb_true_iff Hday].
  by apply (floor_withinDay _ 10).
Qed.

End Sources.

Lemma isDigit_value c : isDigit c = true → (0 ≤ Z.of_nat (code c) - 48 ≤ 9)%Z.
Proof.
  unfold isDigit, between. intros [H1%Nat.leb_le H2%Nat.leb_le]%andb_true_iff. lia.
Qed.

(** One or two characters read as a number up to 99. *)
Lemma parseInt_two s : length s ≤ 2 → (0 ≤ parseInt s ≤ 99)%Z.
Proof.
  unfold parseInt. destruct s as [|a [|b [|c s]]]; simpl; intros Hlen; try lia.
  - destruct (isDigit a) eqn:Ha; [apply isDigit_value in Ha|]; lia.
  - destruct (isDigit a) eqn:Ha; [apply isDigit_value in Ha|lia].
    destruct (isDigit b) eqn:Hb; [apply isDigit_value in Hb|]; lia.
Qed.

Lemma intGroup_two txt R m n :
  narrowGroups 2 (source R) = true → smatch txt R = Some m →
  (0 ≤ intGroup txt m n ≤ 99)%Z.
Proof.
  intros HR Hm. unfold intGroup. apply parseInt_two.
  destruct (group txt m n) as [g|] eqn:Hg; simpl; [|lia].
  eapply group_length; [|exact Hg]. by eapply smatch_narrow.
Qed.

Lemma controlSeconds_range txt z :
  controlSeconds txt = Some z → (0 < z < 86400)%Z.
Proof.
  unfold controlSeconds. destruct (smatch txt clock) as [m|]; [|done].
  destruct (_ && _) eqn:Hc; [|done]. intros [= <-].
  apply andb_true_iff in Hc as [?%Z.ltb_lt ?%Z.ltb_lt]. lia.
Qed.

Lemma foldl_max_range (lo hi : Z) ts t :
  (lo < t < hi)%Z → Forall (fun z => lo < z < hi)%Z ts →
  (lo < foldl Z.max t ts < hi)%Z.
Proof.
  intros Ht Hts. revert t Ht. induction Hts as [|z ts Hz _ IH]; intros t Ht; simpl; [done|].
  apply IH. lia.
Qed.

Lemma controlsTime_withinDay texts t : controlsTime texts = Some t → withinDay t.
Proof.
  unfold controlsTime.
  set (timeTexts := List.filter _ _).
  assert (Forall (fun z => 0 < z < 86400)%Z (omap controlSeconds timeTexts)) as Hall.
  { apply Forall_forall. intros z (txt & _ & Hz)%list_elem_of_omap.
    by apply controlSeconds_range in Hz. }
  destruct (omap controlSeconds timeTexts) as [|z times]; [done|].
  intros [= <-]. apply Forall_cons in Hall as [Hz Htimes].
  pose proof (foldl_max_range 0 86400 times z Hz Htimes).
  eexists; split; [|done]. lia.
Qed.

Lemma netflixDisplay_range page t :
  netflixDisplay page = Some t → ∃ z, (0 ≤ z ≤ 362439)%Z ∧ t = ofInt z.
Proof.
  unfold netflixDisplay. destruct (netflixTime page) as [txt|]; [|done]. simpl.
  destruct (smatch (chars txt) netflixClock) as [m|] eqn:Hm; [|done]. simpl.
  intros [= <-].
  pose proof (intGroup_two (chars txt) netflixClock m 1 eq_refl Hm).
  pose proof (intGroup_two (chars txt) netflixClock m 2 eq_refl Hm).
  pose proof (intGroup_two (chars txt) netflixClock m 3 eq_refl Hm).
  eexists; split; [|done]. lia.
Qed.

Lemma huluDisplay_withinDay page t : huluDisplay page = Some t → withinDay t.
Proof.
  unfold huluDisplay. destruct (huluTime page) as [txt|]; [|done]. simpl.
  destruct (smatch (chars txt) huluClock) as [m|] eqn:Hm; [|done]. simpl.
  intros [= <-].
  pose proof (intGroup_two (chars txt) huluClock m 1 eq_refl Hm).
  pose proof (intGroup_two (chars txt) huluClock m 2 eq_refl Hm).
  eexists; split; [|done]. lia.
Qed.

Lemma fallback_wholeSeconds page t : fallback page = Some t → wholeSeconds t.
Proof.
  unfold fallback. destruct (video page) as [currentTime|]; [|done].
  destruct (gt currentTime 0) eqn:Hpos; [|done]. intros [= <-].
  by apply (floor_wholeSeconds _ 0).
Qed.

(** C7, as the code has it: a value that [getRealTimestamp] returns is a
    non-negative whole number of seconds (or [Infinity], the floor of a
    reading that is infinite).  It lies in [0, 86400) unless it is the
    reading of the shadow slider of Disney+ (only the slider's [max] is
    bounded), the time display of Netflix (at most 362439), or the clock
    of the media element.  And when it returns [null], [handleAddComment]
    sends no comment. *)
Theorem getRealTimestamp_range (parseFloat : string → Num)
    (platform : option Platform) (page : Page) :
  (∀ t, getRealTimestamp parseFloat platform page = Some t →
     wholeSeconds t
     ∧ (withinDay t
        ∨ (platform = Some disneyplus
           ∧ ∃ bar, progressBar page = Some bar ∧ shadowSlider parseFloat bar = Some t)
        ∨ (platform = Some netflix ∧ netflixDisplay page = Some t
           ∧ ∃ z, (0 ≤ z ≤ 362439)%Z ∧ t = ofInt z)
        ∨ fallback page = Some t))
  ∧ (getRealTimestamp parseFloat platform page = None →
     ∀ filter txt submitted timestamp,
       (handleAddComment parseFloat filter platform page txt).2
       ≠ Returned (SaveComment submitted timestamp)).
Proof.
  split.
  - intros t. unfold getRealTimestamp.
    assert (fallback page = Some t →
            wholeSeconds t ∧ (withinDay t
              ∨ (platform = Some disneyplus
                 ∧ ∃ bar, progressBar page = Some bar ∧ shadowSlider parseFloat bar = Some t)
              ∨ (platform = Some netflix ∧ netflixDisplay page = Some t
                 ∧ ∃ z, (0 ≤ z ≤ 362439)%Z ∧ t = ofInt z)
              ∨ fallback page = Some t)) as Hfallback.
    { intros Hf. split; [by eapply fallback_wholeSeconds|]. by do 3 right. }
    destruct platform as [[| |]|]; [| | |done].
    + destruct (netflixDisplay page) as [t'|] eqn:Hn; [|done]. intros [= ->].
      destruct (netflixDisplay_range page t Hn) as (z & Hz & ->).
      split; [right; exists z; split; [lia|done]|].
      right; right; left. do 2 (split; [done|]). by exists z.
    + unfold disneyTime.
      destruct (progressBar page) as [bar|]; cbn [mbind option_bind].
      * destruct (shadowSlider parseFloat bar) as [t'|] eqn:Hs.
        { intros [= ->]. split; [by eapply shadowSlider_wholeSeconds|].
          right; left. split; [done|]. by exists bar. }
        destruct (firstProperty parseFloat bar possibleProps) as [t'|] eqn:Hp.
        { intros [= ->]. apply firstProperty_withinDay in Hp.
          split; [by apply withinDay_wholeSeconds|by left]. }
        destruct (firstAttribute parseFloat (attributes bar)) as [t'|] eqn:Ha.
        { intros [= ->]. apply firstAttribute_withinDay in Ha.
          split; [by apply withinDay_wholeSeconds|by left]. }
        destruct (controls page ≫= controlsTime) as [t'|] eqn:Hc; [|done].
        intros [= ->]. destruct (controls page) as [texts|]; [|done].
        apply controlsTime_withinDay in Hc.
        split; [by apply withinDay_wholeSeconds|by left].
      * destruct (controls page ≫= controlsTime) as [t'|] eqn:Hc; [|done].
        intros [= ->]. destruct (controls page) as [texts|]; [|done].
        apply controlsTime_withinDay in Hc.
        split; [by apply withinDay_wholeSeconds|by left].
    + destruct (huluDisplay page) as [t'|] eqn:Hh; [|done]. intros [= ->].
      apply huluDisplay_withinDay in Hh.
      split; [by apply withinDay_wholeSeconds|by left].
  - intros Hnone filter txt submitted timestamp. unfold handleAddComment.
    destruct (length (trim (chars txt)) =? 0); [done|].
    destruct (ContentFilter.filterContent filter txt) as [filter' [verdict|e]]; [|done].
    destruct (negb (ContentFilter.isClean verdict)); [done|].
    by rewrite Hnone.
Qed.

(** C7 on Hulu at the display "12:34" and, with no display, at a media
    clock of 7.5 seconds. *)
Lemma getRealTimestamp_range_witness :
  withinDay (ofInt 754)
  ∧ wholeSeconds (ofInt 7)
  ∧ (handleAddComment wholeNumber ContentFilter.new (Some hulu) (showing None None)
                      "nice scene").2
    = Returned (ShowError "Could not get current timestamp. Please try again.").
Proof.
  destruct (getRealTimestamp_range wholeNumber (Some hulu) (showing (Some "12:34") None))
    as [Hdisplay _].
  destruct (getRealTimestamp_range wholeNumber (Some hulu)
              (showing None (Some (Finite (15 # 2))))) as [Hclock _].
  destruct (Hdisplay (ofInt 754) eq_refl) as [_ [Hday|[[[=] _]|[[[=] _]|[=]]]]].
  destruct (Hclock (ofInt 7) eq_refl) as [Hwhole _].
  split; [exact Hday|]. split; [exact Hwhole|by vm_compute].
Defined.

(** The claim of C7 fails on Netflix at the display "24:00:00", and on
    any platform at a media clock past a day when no display is found. *)
Lemma getRealTimestamp_beyond_a_day :
  getRealTimestamp wholeNumber (Some netflix) (showing (Some "24:00:00") None)
    = Some (ofInt 86400)
  ∧ getRealTimestamp wholeNumber (Some hulu) (showing None (Some (Finite (180001 # 2))))
    = Some (ofInt 90000).
Proof. by vm_compute. Qed.


(** *** The video element *)

Lemma find_elem_of {A} (f : A → bool) l x : List.find f l = Some x → x ∈ l ∧ f x = true.
Proof. intros [Hin Hf]%find_some. by rewrite list_elem_of_In. Qed.

Lemma find_none_elem_of {A} (f : A → bool) l x : List.find f l = None → x ∈ l → f x = false.
Proof. intros Hnone Hin%list_elem_of_In. by apply (find_none f l Hnone). Qed.

(** X24: which video element is found.  [findVideoElement] returns
    [null] exactly when no platform was detected or the page has no video
    element, and otherwise one of the video elements of the page: the
    only one when there is one, whatever its state; among several, a
    playing one if any is playing, else one that has content if any has,
    else the first. *)
Theorem findVideoElement_picks platform videos :
  (findVideoElement platform videos = None ↔ platform = None ∨ videos = [])
  ∧ ∀ video,
      findVideoElement platform videos = Some video →
      is_Some platform
      ∧ video ∈ videos
      ∧ (length videos = 1 → videos = [video])
      ∧ (1 < length videos →
         (∀ other, other ∈ videos → playing other = true → playing video = true)
         ∧ (∀ other, other ∈ videos → hasContent other = true → hasContent video = true)
         ∧ ((∀ other, other ∈ videos → hasContent other = false) →
            head videos = Some video)).
Proof.
  unfold findVideoElement. destruct platform as [platform|]; cbn [selected].
  2: { split; [by split; [left|]|done]. }
  split.
  - destruct videos as [|v1 [|v2 videos]];
      [by split; [right|]|by split; [|intros [?|?]]|].
    cbn [length Nat.ltb Nat.leb].
    destruct (List.find playing _); [by split; [|intros [?|?]]|].
    destruct (List.find hasContent _); by split; [|intros [?|?]].
  - intros video Hfound. split; [done|]. revert Hfound.
    destruct videos as [|v1 [|v2 videos]]; [done| |].
    { intros [= <-]. split; [by left|]. split; [done|]. simpl. lia. }
    set (vs := v1 :: v2 :: videos). cbn [length Nat.ltb Nat.leb].
    destruct (List.find playing vs) as [p|] eqn:Hp.
    { intros [= <-]. apply find_elem_of in Hp as [Hin Hplay].
      split; [done|]. split; [by simpl|]. intros _. split; [done|]. split.
      - intros _ _ _. unfold playing in Hplay. by apply andb_prop in Hplay as [? _].
      - intros Hnone. specialize (Hnone p Hin). unfold playing in Hplay.
        apply andb_prop in Hplay as [Hc _]. unfold hasContent in Hnone. congruence. }
    destruct (List.find hasContent vs) as [c|] eqn:Hc.
    { intros [= <-]. apply find_elem_of in Hc as [Hin Hcontent].
      split; [done|]. split; [by simpl|]. intros _. split; [|split; [done|]].
      - intros other Hother Hplay. by rewrite (find_none_elem_of _ _ _ Hp Hother) in Hplay.
      - intros Hnone. specialize (Hnone c Hin). congruence. }
    intros [= <-]. split; [by left|]. split; [by simpl|]. intros _. split; [|split; [|done]].
    + intros other Hother Hplay. by rewrite (find_none_elem_of _ _ _ Hp Hother) in Hplay.
    + intros other Hother Hcontent.
      by rewrite (find_none_elem_of _ _ _ Hc Hother) in Hcontent.
Qed.

(** *** The comments at the playhead *)

Lemma near_floor timestamp q :
  near timestamp (floor (Finite q)) = bool_decide (timestamp = Qfloor q).
Proof.
  unfold near, floor, Qltb. case_bool_decide as Heq.
  - subst. apply negb_true_iff. apply not_true_is_false. intros Hle%Qle_bool_iff.
    revert Hle. unfold Qle, Qabs, Qminus, Qplus, Qopp, inject_Z; simpl. lia.
  - apply negb_false_iff, Qle_bool_iff.
    unfold Qle, Qabs, Qminus, Qplus, Qopp, inject_Z; simpl. lia.
Qed.

Lemma filter_never {A} (f : A → bool) l : (∀ x, f x = false) → List.filter f l = [].
Proof. intros Hf. induction l as [|x l IH]; [done|]. simpl. by rewrite Hf. Qed.

(** X25: the comments displayed are those at the playhead.  When
    [onTimeUpdate] hands comments to the display, a video element was
    found, its clock is a finite number, and the comments are exactly the
    loaded comments whose position is the whole second of the clock, in
    the order of the list; there is at least one.  Nothing is displayed
    while the clock is not a finite number. *)
Theorem displayed_comments_are_at_the_playhead platform videos comments shown :
  onTimeUpdate platform videos comments = Some shown →
  ∃ video q,
    findVideoElement platform videos = Some video
    ∧ currentTime video = Finite q
    ∧ shown = filter (fun c => Background.timestamp c = Qfloor q) comments
    ∧ shown ≠ [].
Proof.
  unfold onTimeUpdate. destruct (findVideoElement platform videos) as [video|]; [|done].
  destruct (currentTime video) as [|q| |] eqn:Hq; cbn [floor].
  2: { intros Hshown. exists video, q. split; [done|]. split; [done|].
       assert (List.filter
                 (fun c => near (Background.timestamp c) (Finite (inject_Z (Qfloor q))))
                 comments
               = filter (fun c => Background.timestamp c = Qfloor q) comments) as Hfilter.
       { clear Hshown. induction comments as [|c comments IH]; [done|].
         cbn [List.filter].
         change (Finite (inject_Z (Qfloor q))) with (floor (Finite q)) in *.
         rewrite near_floor, filter_cons, IH. by case_bool_decide; case_decide. }
       rewrite Hfilter in Hshown.
       destruct (filter _ comments) as [|c l]; [done|]. by injection Hshown as <-. }
  all: by rewrite filter_never.
Qed.

Lemma displayed_comments_are_at_the_playhead_witness :
  ∃ video q,
    findVideoElement (Some netflix) [mkVideo 4 false (Finite (21 # 2))] = Some video
    ∧ currentTime video = Finite q
    ∧ [Background.early]
      = filter (fun c => Background.timestamp c = Qfloor q)
               [Background.early; Background.late]
    ∧ [Background.early] ≠ [].
Proof.
  apply (displayed_comments_are_at_the_playhead (Some netflix)
           [mkVideo 4 false (Finite (21 # 2))] [Background.early; Background.late]).
  reflexivity.
Defined.

(** *** Writing a position and reading it back *)

Lemma allFrom_spec test n :
  ∀ z, allFrom test n z = true → ∀ i, (z ≤ i < z + Z.of_nat n)%Z → test i = true.
Proof.
  induction n as [|n IH]; intros z; simpl; [lia|].
  intros [Hz Hrest]%andb_prop i Hi.
  destruct (decide (i = z)) as [->|Hne]; [done|].
  apply (IH (z + 1)%Z Hrest). lia.
Qed.

Lemma reads_spec n t : reads n t = true → t = Some (ofInt n).
Proof.
  destruct t as [[|[a [| |]]| |]|]; simpl; try done. by intros ->%Z.eqb_eq.
Qed.

Lemma readBack_hour : allFrom readBack (Z.to_nat 3599) 1 = true.
Proof. by vm_compute. Qed.

(** X26: a position under an hour that is written is read back.  For
    every whole number of seconds from 1 to 3599, the text that
    [formatTime] writes, minutes and seconds, is read back as that number
    by the reader of the controls of Disney+ and by the reader of the Hulu
    display; the reader of the Netflix display, which wants hours, reads
    nothing from it.  So [formatTime] writes different texts for
    different positions of the hour. *)
Theorem formatTime_is_read_back n :
  (0 < n < 3600)%Z →
  controlSeconds (chars (formatTime n)) = Some n
  ∧ huluDisplay (showing (Some (formatTime n)) None) = Some (ofInt n)
  ∧ netflixDisplay (showing (Some (formatTime n)) None) = None.
Proof.
  intros Hn. pose proof (allFrom_spec _ _ _ readBack_hour n) as Hread.
  rewrite Z2Nat.id in Hread by lia. specialize (Hread ltac:(lia)).
  unfold readBack in Hread. apply andb_prop in Hread as [Hread Hn3].
  apply andb_prop in Hread as [Hc Hh].
  apply bool_decide_eq_true in Hc. apply bool_decide_eq_true in Hn3.
  split; [done|]. split; [by apply reads_spec|].
  unfold netflixDisplay, showing. cbn [netflixTime fmap option_fmap option_map mbind option_bind].
  destruct (smatch (chars (formatTime n)) netflixClock) as [m|]; [|done].
  by destruct Hn3.
Qed.

Lemma formatTime_is_read_back_witness :
  formatTime 754 = "12:34"
  ∧ controlSeconds (chars (formatTime 754)) = Some 754%Z.
Proof.
  split; [reflexivity|]. apply (formatTime_is_read_back 754). lia.
Defined.

(** *** What is submitted *)

Section Submitted.
Context (parseFloat : string → Num).

Lemma getRealTimestamp_wholeSeconds platform page t :
  getRealTimestamp parseFloat platform page = Some t → wholeSeconds t.
Proof.
  unfold getRealTimestamp.
  assert (fallback page = Some t → wholeSeconds t) as Hfallback
    by apply fallback_wholeSeconds.
  assert (∀ o, o = Some t ∨ (o = None ∧ fallback page = Some t) →
               (∀ t', o = Some t' → wholeSeconds t') → wholeSeconds t) as Hcases.
  { intros o [->|[-> Hf]] Ho; [by apply Ho|by apply Hfallback]. }
  destruct platform as [[| |]|]; [| | |done].
  - destruct (netflixDisplay page) as [t'|] eqn:Hn; [|done]. intros [= ->].
    destruct (netflixDisplay_range page t Hn) as (z & Hz & ->).
    right. exists z. split; [lia|done].
  - unfold disneyTime.
    destruct (progressBar page) as [bar|]; cbn [mbind option_bind].
    + destruct (shadowSlider parseFloat bar) as [t'|] eqn:Hs.
      { intros [= ->]. by eapply shadowSlider_wholeSeconds. }
      destruct (firstProperty parseFloat bar possibleProps) as [t'|] eqn:Hp.
      { intros [= ->]. by apply withinDay_wholeSeconds, (firstProperty_withinDay parseFloat bar possibleProps). }
      destruct (firstAttribute parseFloat (attributes bar)) as [t'|] eqn:Ha.
      { intros [= ->]. by apply withinDay_wholeSeconds, (firstAttribute_withinDay parseFloat (attributes bar)). }
      destruct (controls page ≫= controlsTime) as [t'|] eqn:Hc; [|done].
      intros [= ->]. destruct (controls page) as [texts|]; [|done].
      by apply withinDay_wholeSeconds, (controlsTime_withinDay texts).
    + destruct (controls page ≫= controlsTime) as [t'|] eqn:Hc; [|done].
      intros [= ->]. destruct (controls page) as [texts|]; [|done].
      by apply withinDay_wholeSeconds, (controlsTime_withinDay texts).
  - destruct (huluDisplay page) as [t'|] eqn:Hh; [|done]. intros [= ->].
    by apply withinDay_wholeSeconds, (huluDisplay_withinDay page).
Qed.

(** X27: what the content script submits.  When [handleAddComment]
    sends a comment whose text has only characters below 128, with an
    engine made by the constructor: the text sent is the text given; in
    lower case it includes no word of the list, it has at most 500
    characters and at least 2 once trimmed; the position is a whole
    number of seconds that is not negative, or [Infinity]; and the engine
    is afterwards as new. *)
Theorem submitted_comment_is_checked filter platform page txt filter' submitted timestamp :
  isASCII txt = true →
  ContentFilter.constructed filter →
  handleAddComment parseFloat filter platform page txt
    = (filter', Returned (SaveComment submitted timestamp)) →
  submitted = txt
  ∧ (∀ word, word ∈ ContentFilter.profanityList ContentFilter.new →
             includes (toLowerCase (chars txt)) (chars word) = false)
  ∧ String.length txt ≤ 500
  ∧ 2 ≤ length (trim (chars txt))
  ∧ wholeSeconds timestamp
  ∧ filter' = ContentFilter.new.
Proof.
  intros _ Hfilter. unfold handleAddComment.
  destruct (length (trim (chars txt)) =? 0); [done|].
  destruct (ContentFilter.filterContent filter txt) as [filter1 [verdict|e]] eqn:Hcall;
    [|done].
  destruct (ContentFilter.isClean verdict) eqn:Hclean; [|done]. simpl.
  destruct (getRealTimestamp parseFloat platform page) as [t|] eqn:Ht; [|done].
  intros [= <- <- <-]. split; [done|].
  destruct (ModerationFacts.clean_text_passes _ _ _ _ Hfilter Hcall Hclean)
    as (Hwords & Hlong & Hshort).
  do 3 (split; [done|]). split; [by eapply getRealTimestamp_wholeSeconds|].
  pose proof (ModerationFacts.filterContent_keeps_rules filter txt Hfilter) as [_ Hnew].
  rewrite Hcall in Hnew. by apply (Hnew verdict eq_refl).
Qed.

End Submitted.

Lemma submitted_comment_is_checked_witness :
  let page := showing (Some "12:34") None in
  "Nice shot" = "Nice shot"
  ∧ (∀ word, word ∈ ContentFilter.profanityList ContentFilter.new →
             includes (toLowerCase (chars "Nice shot")) (chars word) = false)
  ∧ String.length "Nice shot" ≤ 500
  ∧ 2 ≤ length (trim (chars "Nice shot"))
  ∧ wholeSeconds (ofInt 754)
  ∧ ContentFilter.new = ContentFilter.new.
Proof.
  intros page.
  apply (submitted_comment_is_checked wholeNumber ContentFilter.new (Some hulu) page
           "Nice shot" ContentFilter.new "Nice shot" (ofInt 754));
    [reflexivity|reflexivity|].
  by vm_compute.
Defined.


(** *** The key of the video *)

Lemma chars_str l : chars (str l) = l.
Proof. induction l as [|c l IH]; simpl; [done|]. by rewrite IH. Qed.

Lemma str_nil l : str l = "" → l = [].
Proof. by destruct l. Qed.

(** The show id of a Netflix address is a text of digits. *)
Lemma watchId_digits url m :
  smatch (chars url) watchId = Some m →
  ∃ show, matched url m 1 = Some show ∧ digits show.
Proof.
  intros Hm.
  destruct (smatch_prefix_group (chars url) watchId m (ContentFilter.lit "/watch/") 1
              false [CDigit] eq_refl Hm) as (g & Hg & Hne & Hdigits).
  exists (str g). unfold matched. rewrite Hg. split; [done|]. split.
  - by intros ?%str_nil.
  - rewrite chars_str. eapply Forall_impl; [exact Hdigits|].
    intros c Hc. simpl in Hc. by rewrite orb_false_r in Hc.
Qed.

Lemma extractVideoInfo_prefix platform videoElement win old key :
  extractVideoInfo (Some platform) videoElement win old = Some key →
  ∃ rest, key = keyPrefix platform +:+ rest.
Proof.
  unfold extractVideoInfo. destruct platform.
  - destruct (Background.truthy _) as [showId|]; [|done].
    destruct (getNetflixEpisodeId videoElement win) as [episodeId|];
      [destruct (truthyId episodeId && differs episodeId showId)|];
      intros [= <-]; by eexists.
  - destruct (Background.truthy _) as [guid|]; [|done]. intros [= <-]. by eexists.
  - destruct (smatch _ huluWatch) as [m|]; [|done]. intros [= <-]. by eexists.
Qed.

(** X28: a key names its platform.  A key that [extractVideoInfo]
    makes starts with the name of the platform and an underscore, so two
    pages of different platforms never get the same key, whatever their
    addresses are. *)
Theorem video_key_names_the_platform platform1 platform2 video1 video2 win1 win2
    old1 old2 key :
  extractVideoInfo (Some platform1) video1 win1 old1 = Some key →
  extractVideoInfo (Some platform2) video2 win2 old2 = Some key →
  platform1 = platform2
  ∧ ∃ rest, key = keyPrefix platform1 +:+ rest.
Proof.
  intros H1 H2. pose proof H1 as [rest1 Hk1]%extractVideoInfo_prefix.
  apply extractVideoInfo_prefix in H2 as [rest2 Hk2].
  split; [|by exists rest1]. rewrite Hk1 in Hk2.
  by destruct platform1, platform2.
Qed.

Lemma video_key_names_the_platform_witness :
  netflix = netflix ∧ ∃ rest, "netflix_81234567" = keyPrefix netflix +:+ rest.
Proof.
  apply (video_key_names_the_platform netflix netflix None None
           (mkWindow "https://www.netflix.com/watch/81234567?trackId=1" None None None)
           (mkWindow "https://www.netflix.com/watch/81234567" None None None)
           None None "netflix_81234567"); by vm_compute.
Defined.

(** X29: a Netflix key is that of the show or that of an episode.  On
    Netflix a key is made only when the address has [/watch/] followed by
    digits; it is [netflix_] and those digits, or [netflix_ep_] and an
    episode id that [getNetflixEpisodeId] found and that is not the same
    value as the show id; and no key of the first form is a key of the
    second form. *)
Theorem netflix_key_is_show_or_episode videoElement win old key :
  extractVideoInfo (Some netflix) videoElement win old = Some key →
  ∃ show,
    digits show
    ∧ (smatch (chars (href win)) watchId ≫= fun m => matched (href win) m 1) = Some show
    ∧ (key = "netflix_" +:+ show
       ∨ ∃ episode,
           getNetflixEpisodeId videoElement win = Some episode
           ∧ truthyId episode = true
           ∧ differs episode show = true
           ∧ key = "netflix_ep_" +:+ idText episode)
    ∧ ∀ text, "netflix_" +:+ show ≠ "netflix_ep_" +:+ text.
Proof.
  unfold extractVideoInfo.
  destruct (smatch (chars (href win)) watchId) as [m|] eqn:Hm; [|done].
  destruct (watchId_digits _ _ Hm) as (show & Hshow & Hne & Hdigits).
  cbn [mbind option_bind]. rewrite Hshow.
  unfold Background.truthy. cbn [mbind option_bind].
  destruct (String.eqb_spec show ""); [done|]. intros Hkey.
  exists show. split; [done|]. split; [done|]. split.
  - destruct (getNetflixEpisodeId videoElement win) as [episode|]; [|left; congruence].
    destruct (truthyId episode) eqn:Ht; [|left; simpl in Hkey; congruence].
    destruct (differs episode show) eqn:Hd; [|left; simpl in Hkey; congruence].
    right. exists episode. simpl in Hkey. do 3 (split; [done|]). congruence.
  - intros text Heq. simpl in Heq. injection Heq as Heq.
    destruct show as [|c show]; [done|]. injection Heq as -> _.
    by apply Forall_cons in Hdigits as [? _].
Qed.

Lemma netflix_key_is_show_or_episode_witness :
  ∃ show,
    digits show
    ∧ (smatch (chars "https://www.netflix.com/watch/81234567?tctx=0") watchId
         ≫= fun m => matched "https://www.netflix.com/watch/81234567?tctx=0" m 1)
      = Some show
    ∧ ("netflix_ep_70143825" = "netflix_" +:+ show
       ∨ ∃ episode,
           getNetflixEpisodeId None
             (mkWindow "https://www.netflix.com/watch/81234567?tctx=0"
                       (Some "0,0,Video:70143825") None None) = Some episode
           ∧ truthyId episode = true
           ∧ differs episode show = true
           ∧ "netflix_ep_70143825" = "netflix_ep_" +:+ idText episode)
    ∧ ∀ text, "netflix_" +:+ show ≠ "netflix_ep_" +:+ text.
Proof.
  apply (netflix_key_is_show_or_episode None
           (mkWindow "https://www.netflix.com/watch/81234567?tctx=0"
                     (Some "0,0,Video:70143825") None None) None "netflix_ep_70143825").
  by vm_compute.
Defined.

End ContentFacts.
